(** * react-native-draggable-order-list: the reorder engine

    A shallow embedding of the reorder engine of the library:
    - [DraggableItem.tsx]  the pan-gesture handlers [onStart] / [onUpdate] /
      [onEnd] with the index-swap logic.  The repository holds two copies of
      the component; the one embedded here is the complete one, with the
      scan loop and the neighbour shifts written out (the other copy elides
      both behind placeholder comments);
    - [DraggableList.tsx]  [handleDragEnd], the data-sync effect and
      [getCurrentData];
    - [useAutoScroll.ts]   [startAutoScroll], the interval callback,
      [stopAutoScroll] and the unmount cleanup.

    Conventions.  Slots and indices are JavaScript numbers that only ever
    hold integers: they are modelled in [Z].  Pixel quantities (heights,
    offsets, scroll positions) are JavaScript numbers, that is IEEE 754
    binary64 values.  The swap resolver, whose answer is an integer slot
    decided by comparing such values, is written once over the arithmetic
    [Num.Arithmetic] and is read with [Num.binary64], the arithmetic of the
    code ([Double], from the standard library's [SpecFloat]); the state
    machine around it (gesture handlers, auto-scroll) is read with
    [Num.exact], the same operations on exact rationals [Q], where a
    rounding only moves a pixel value by a rounding error.  A JavaScript
    object used as a dictionary is an association list with unique keys,
    listed in the order [Object.keys] enumerates them; [Obj.get] is the
    property read (absent = [undefined] = [None]) and [Obj.set] the
    assignment.  Shared values and refs are fields of explicit state
    records, and each [scheduleOnRN (f, args)] is an entry of the list of
    calls a handler hands to the JS thread, in the order issued. *)

From Stdlib Require Import List ZArith QArith Qminmax Lia Lqa Bool String Sorted
  Permutation Relations SpecFloat.
Import ListNotations.

Local Open Scope Z_scope.

(** ** JavaScript objects used as dictionaries *)

Module Obj.

Section WithValue.
Context {V : Type}.

Definition t := list (string * V).

(** [o[k]] *)
Fixpoint get (o : t) (k : string) : option V :=
  match o with
  | [] => None
  | (k', v) :: o' => if String.eqb k' k then Some v else get o' k
  end.

(** [o[k] = v].  A new key goes last, which is where [Object.keys] lists
    it unless the key is an integer index (those are listed first, in
    numeric order).  The enumeration order only reaches a result through
    the stable sort of [sortedItems], on items of equal slot. *)
Fixpoint set (o : t) (k : string) (v : V) : t :=
  match o with
  | [] => [(k, v)]
  | (k', v') :: o' =>
      if String.eqb k' k then (k', v) :: o' else (k', v') :: set o' k v
  end.

(** [Object.keys(o)] *)
Definition keys (o : t) : list string := map fst o.

Definition values (o : t) : list V := map snd o.

End WithValue.

Arguments t : clear implicits.

End Obj.

(** ** JavaScript numbers *)

(** The JavaScript number: IEEE 754 binary64, with the operations the
    resolver uses.  [SpecFloat] has one NaN, as JavaScript shows one. *)
Module Double.

Definition t : Type := spec_float.

Definition prec : Z := 53.
Definition emax : Z := 1024.

(** The number an integer literal denotes. *)
Definition of_Z (n : Z) : t := binary_normalize prec emax n 0 false.

(** [+0] *)
Definition zero : t := S754_zero false.

(** [x + y] *)
Definition add (x y : t) : t := SFadd prec emax x y.

(** [x / y] *)
Definition div (x y : t) : t := SFdiv prec emax x y.

(** [x < y] *)
Definition ltb (x y : t) : bool := SFltb x y.

(** [x === y] on numbers: [NaN] equals nothing, [+0 === -0]. *)
Definition eqb (x y : t) : bool := SFeqb x y.

(** A number used as a condition: [+0], [-0] and [NaN] are falsy. *)
Definition falsy (x : t) : bool :=
  match x with
  | S754_zero _ | S754_nan => true
  | _ => false
  end.

(** [x || 0] *)
Definition or_zero (x : t) : t := if falsy x then zero else x.

(** The number a decimal literal [n / d] denotes (the binary64 value
    nearest to it), for integers [n] and [d] that binary64 holds exactly:
    [60.3] is [decimal 603 10]. *)
Definition decimal (n d : Z) : t := div (of_Z n) (of_Z d).

(** Equal as numbers: the same value, [+0] and [-0] being one number. *)
Definition same (x y : t) : Prop :=
  match x, y with
  | S754_zero _, S754_zero _ => True
  | _, _ => x = y
  end.

End Double.

(** The arithmetic the resolver is written over: the operations of the
    source on pixel quantities. *)
Module Num.

Class Arithmetic (num : Type) := {
  zero : num;                    (* [0] *)
  add : num -> num -> num;       (* [x + y] *)
  half : num -> num;             (* [x / 2] *)
  ltb : num -> num -> bool;      (* [x < y] *)
  eqb : num -> num -> bool;      (* [x === y] *)
  or_zero : num -> num           (* [x || 0] *)
}.

(** The arithmetic of the code. *)
#[global] Instance binary64 : Arithmetic Double.t := {
  zero := Double.zero;
  add := Double.add;
  half := fun x => Double.div x (Double.of_Z 2);
  ltb := Double.ltb;
  eqb := Double.eqb;
  or_zero := Double.or_zero
}.

(** The same operations without rounding, on exact rationals ([x || 0] is
    [x]: the only falsy rational is 0). *)
#[global] Instance exact : Arithmetic Q := {
  zero := 0%Q;
  add := Qplus;
  half := fun x => (x / 2)%Q;
  ltb := fun x y => if Qlt_le_dec x y then true else false;
  eqb := Qeq_bool;
  or_zero := fun x => x
}.

End Num.

(** ** Types ([types/index.ts]) *)

Definition TPositions := Obj.t Z.
Definition THeights := Obj.t Q.

Inductive TAutoScrollDirection := up | down | stop.

Definition direction_eqb (a b : TAutoScrollDirection) : bool :=
  match a, b with
  | up, up | down, down | stop, stop => true
  | _, _ => false
  end.

(** [itemHeights.value[key] || 0]: an absent (unmeasured) height reads as 0.
    ([onLayout] only ever stores heights [> 0]; a stored 0 would read as 0
    as well.) *)
Definition height_or_zero {num} {A : Num.Arithmetic num}
    (heights : Obj.t num) (key : string) : num :=
  match Obj.get heights key with
  | Some h => Num.or_zero h
  | None => Num.zero
  end.

(** [itemHeights.value[key] === 0]: strict equality with the number 0;
    [undefined === 0] is false. *)
Definition height_is_zero {num} {A : Num.Arithmetic num}
    (heights : Obj.t num) (key : string) : bool :=
  match Obj.get heights key with
  | Some h => Num.eqb h Num.zero
  | None => false
  end.

(** [onLayout]: a measured height is stored only when it is positive. *)
Definition onLayout (itemKey : string) (height : Q) (heights : THeights)
  : THeights :=
  if Qlt_le_dec 0 height then Obj.set heights itemKey height else heights.

(** ** The swap resolver ([onUpdate], "Calculate which position ...") *)

Module Resolver.

Section WithNumber.
Context {num : Type} {A : Num.Arithmetic num}.

Record SortedItem := mkSortedItem {
  key : string;
  index : Z;
  height : num
}.

(** The [for (const key of keys)] loop filling [sortedItems]: every entry of
    the position table but the dragged one, with its slot and its height. *)
Fixpoint collect_items (positions : TPositions) (heights : Obj.t num)
    (dragged : string) : list SortedItem :=
  match positions with
  | [] => []
  | (k, p) :: rest =>
      if String.eqb k dragged then collect_items rest heights dragged
      else mkSortedItem k p (height_or_zero heights k)
             :: collect_items rest heights dragged
  end.

(** [sortedItems.sort((a, b) => a.index - b.index)]: [Array.prototype.sort]
    is stable; it is modelled by a stable insertion sort on [index].  The
    items are inserted from the last to the first, each in front of the
    items of the same or a higher [index], so items of equal [index] keep
    the order they were collected in. *)
Fixpoint insert_by_index (x : SortedItem) (l : list SortedItem)
  : list SortedItem :=
  match l with
  | [] => [x]
  | y :: l' =>
      if index x <=? index y then x :: y :: l'
      else y :: insert_by_index x l'
  end.

Definition sort_by_index (l : list SortedItem) : list SortedItem :=
  fold_right insert_by_index [] l.

Definition sortedItems (positions : TPositions) (heights : Obj.t num)
    (dragged : string) : list SortedItem :=
  sort_by_index (collect_items positions heights dragged).

(** [itemCenterY = runningY + item.height / 2] *)
Definition itemCenterY (runningY : num) (item : SortedItem) : num :=
  Num.add runningY (Num.half (height item)).

(** The scan loop
    [for (const item of sortedItems) {
       if (currentAbsoluteY < itemCenterY) { found = true; break; }
       runningY += item.height; newPos++; }]
    started from the given [runningY] and [newPos]; it yields the final
    [newPos] (the only loop variable read afterwards). *)
Fixpoint scan (items : list SortedItem) (currentAbsoluteY runningY : num)
    (newPos : Z) : Z :=
  match items with
  | [] => newPos
  | item :: rest =>
      if Num.ltb currentAbsoluteY (itemCenterY runningY item)
      then newPos
      else scan rest currentAbsoluteY (Num.add runningY (height item))
             (newPos + 1)
  end.

(** [Math.max(0, Math.min(listLength - 1, newPos))] *)
Definition clamp_position (listLength newPos : Z) : Z :=
  Z.max 0 (Z.min (listLength - 1) newPos).

(** The target slot [newPosition] computed by [onUpdate]. *)
Definition resolve_position (positions : TPositions) (heights : Obj.t num)
    (dragged : string) (listLength : Z) (currentAbsoluteY : num) : Z :=
  clamp_position listLength
    (scan (sortedItems positions heights dragged) currentAbsoluteY
       Num.zero 0).

(** The reassignment of one neighbour inside [positions.modify]:
    [if (newPosition > oldPosition && itemPos > oldPosition
         && itemPos <= newPosition) itemPos - 1
     else if (newPosition < oldPosition && itemPos < oldPosition
              && itemPos >= newPosition) itemPos + 1]. *)
Definition shift_neighbour (oldPosition newPosition itemPos : Z) : Z :=
  if (newPosition >? oldPosition) && (itemPos >? oldPosition)
     && (itemPos <=? newPosition)
  then itemPos - 1
  else if (newPosition <? oldPosition) && (itemPos <? oldPosition)
          && (itemPos >=? newPosition)
  then itemPos + 1
  else itemPos.

(** The worklet passed to [positions.modify]: the old slot of the dragged
    item is read, the dragged entry is assigned [newPosition], and every
    other key is visited once.  When the dragged key has no entry
    ([oldPosition] is [undefined]) every comparison with it is false and no
    neighbour moves. *)
Definition modify_positions (positions : TPositions) (dragged : string)
    (newPosition : Z) : TPositions :=
  let oldPosition := Obj.get positions dragged in
  let value := Obj.set positions dragged newPosition in
  map (fun '(k, itemPos) =>
         if String.eqb k dragged then (k, itemPos)
         else match oldPosition with
              | Some old => (k, shift_neighbour old newPosition itemPos)
              | None => (k, itemPos)
              end) value.

(** [newPosition !== positions.value[draggableItemKey.value]] *)
Definition position_differs (newPosition : Z) (current : option Z) : bool :=
  match current with
  | Some p => negb (newPosition =? p)
  | None => true
  end.

(** One swap resolution of [onUpdate]: resolve the target slot and commit it
    when it differs from the dragged item's slot. *)
Definition swap_step (positions : TPositions) (heights : Obj.t num)
    (dragged : string) (listLength : Z) (currentAbsoluteY : num)
  : TPositions :=
  let newPosition :=
    resolve_position positions heights dragged listLength currentAbsoluteY in
  if position_differs newPosition (Obj.get positions dragged)
  then modify_positions positions dragged newPosition
  else positions.

(** [for (const key of keys) if (positions.value[key] < bound)
      y += itemHeights.value[key] || 0]  *)
Fixpoint offset_below (keys : list string) (positions : TPositions)
    (heights : Obj.t num) (bound : Z) (y : num) : num :=
  match keys with
  | [] => y
  | k :: rest =>
      match Obj.get positions k with
      | Some p =>
          if p <? bound
          then offset_below rest positions heights bound
                 (Num.add y (height_or_zero heights k))
          else offset_below rest positions heights bound y
      | None => offset_below rest positions heights bound y
      end
  end.

End WithNumber.

(** Numerals written for a pixel quantity are read as rationals. *)
Arguments mkSortedItem {num} key%_string index%_Z height%_Q.
Arguments itemCenterY {num A} runningY%_Q item : simpl never.
Arguments scan {num A} items%_list currentAbsoluteY%_Q runningY%_Q newPos%_Z.
Arguments resolve_position {num A} positions heights dragged%_string
  listLength%_Z currentAbsoluteY%_Q.
Arguments swap_step {num A} positions heights dragged%_string
  listLength%_Z currentAbsoluteY%_Q.
Arguments offset_below {num A} keys%_list positions heights bound%_Z y%_Q.

End Resolver.

(** ** Calls handed to the JS thread with [scheduleOnRN] *)

Inductive RNCall :=
| CallSetIsDragging (isDragging : bool)
| CallOnDragStart (index : Z)
| CallOnDragEnd (fromIndex : Z) (toIndex : option Z)
| CallStartAutoScroll (direction : TAutoScrollDirection)
| CallStopAutoScroll.

(** ** Shared values created by [DraggableList] *)

Record SharedValues := mkShared {
  draggableItemKey : option string;
  draggedItemPosition : Z;
  positions : TPositions;
  itemHeights : THeights;
  containerHeight : Q;
  autoScrollDirection : TAutoScrollDirection;
  scrollY : Q;
  contentHeight : Q
}.

Definition set_draggableItemKey v (s : SharedValues) :=
  mkShared v (draggedItemPosition s) (positions s) (itemHeights s)
    (containerHeight s) (autoScrollDirection s) (scrollY s) (contentHeight s).
Definition set_draggedItemPosition v (s : SharedValues) :=
  mkShared (draggableItemKey s) v (positions s) (itemHeights s)
    (containerHeight s) (autoScrollDirection s) (scrollY s) (contentHeight s).
Definition set_positions v (s : SharedValues) :=
  mkShared (draggableItemKey s) (draggedItemPosition s) v (itemHeights s)
    (containerHeight s) (autoScrollDirection s) (scrollY s) (contentHeight s).
Definition set_itemHeights v (s : SharedValues) :=
  mkShared (draggableItemKey s) (draggedItemPosition s) (positions s) v
    (containerHeight s) (autoScrollDirection s) (scrollY s) (contentHeight s).
Definition set_autoScrollDirection v (s : SharedValues) :=
  mkShared (draggableItemKey s) (draggedItemPosition s) (positions s)
    (itemHeights s) (containerHeight s) v (scrollY s) (contentHeight s).
Definition set_scrollY v (s : SharedValues) :=
  mkShared (draggableItemKey s) (draggedItemPosition s) (positions s)
    (itemHeights s) (containerHeight s) (autoScrollDirection s) v
    (contentHeight s).

(** A JavaScript string used as a condition: only the empty string is
    falsy. *)
Definition truthy (s : string) : bool := negb (String.eqb s EmptyString).

(** ** [DraggableItem]: the drag state machine *)

Module DraggableItem.

(** The props the handlers read.  [itemKey] is [String(item.id)];
    [onDragStart] / [onDragEnd] record whether the optional callback was
    passed. *)
Record Props := mkProps {
  itemKey : string;
  index : Z;
  listLength : Z;
  onDragStart : bool;
  onDragEnd : bool
}.

(** The item's own React state and shared values.  [translateY] holds the
    value the spring animates toward. *)
Record State := mkState {
  isDragging : bool;
  translateY : Q;
  isDraggingShared : bool;
  targetPosition : Z;
  initialScrollY : Q;
  initialIndex : Z;
  initialItemOffset : Q;
  initialLayoutOffset : Q
}.

Definition initial (p : Props) : State :=
  mkState false 0 false (index p) 0 (index p) 0 0.

Definition Result : Type := SharedValues * State * list RNCall.

(** [Gesture.Pan().onStart] *)
Definition onStart (p : Props) (sh : SharedValues) (it : State) : Result :=
  let sh1 := set_draggableItemKey (Some (itemKey p)) sh in
  let currentPos :=
    match Obj.get (positions sh) (itemKey p) with
    | Some pos => pos
    | None => index p
    end in
  let it1 :=
    mkState (isDragging it) (translateY it) (isDraggingShared it)
      currentPos (scrollY sh) currentPos
      (initialItemOffset it) (initialLayoutOffset it) in
  if height_is_zero (itemHeights sh) (itemKey p) then (sh1, it1, [])
  else
    let y :=
      Resolver.offset_below (Obj.keys (positions sh)) (positions sh)
        (itemHeights sh) currentPos 0%Q in
    let it2 :=
      mkState (isDragging it) (translateY it) true
        currentPos (scrollY sh) currentPos
        y (y - translateY it)%Q in
    (sh1, it2,
     CallSetIsDragging true
       :: (if onDragStart p then [CallOnDragStart (index p)] else [])).

(** The auto-scroll zone check of [onUpdate]: the new value of
    [autoScrollDirection] and the calls scheduled. *)
Definition edge_check (visualY topThreshold bottomThreshold : Q)
    (previousDirection : TAutoScrollDirection)
  : TAutoScrollDirection * list RNCall :=
  if Qlt_le_dec visualY topThreshold then
    (up, if direction_eqb previousDirection up then []
         else [CallStartAutoScroll up])
  else if Qlt_le_dec bottomThreshold visualY then
    (down, if direction_eqb previousDirection down then []
           else [CallStartAutoScroll down])
  else if direction_eqb previousDirection stop then (previousDirection, [])
  else (stop, [CallStopAutoScroll]).

(** [Gesture.Pan().onUpdate], with [translationY = event.translationY]. *)
Definition onUpdate (p : Props) (translationY : Q) (sh : SharedValues)
    (it : State) : Result :=
  match draggableItemKey sh with
  | None => (sh, it, [])
  | Some dragged =>
      if negb (truthy dragged) || height_is_zero (itemHeights sh) dragged
      then (sh, it, [])
      else
        let scrollDelta := (scrollY sh - initialScrollY it)%Q in
        let compensatedTranslation := (translationY + scrollDelta)%Q in
        let currentAbsoluteY :=
          (initialItemOffset it + compensatedTranslation)%Q in
        let scrollZone := 100%Q in
        let topThreshold := scrollZone in
        let bottomThreshold := (containerHeight sh - scrollZone * 2)%Q in
        let previousDirection := autoScrollDirection sh in
        let visualY := (currentAbsoluteY - scrollY sh)%Q in
        let '(direction, calls) :=
          edge_check visualY topThreshold bottomThreshold previousDirection in
        let keys := Obj.keys (positions sh) in
        let newPosition :=
          Resolver.resolve_position (positions sh) (itemHeights sh) dragged
            (listLength p) currentAbsoluteY in
        let changed :=
          Resolver.position_differs newPosition
            (Obj.get (positions sh) dragged) in
        let positions' :=
          if changed
          then Resolver.modify_positions (positions sh) dragged newPosition
          else positions sh in
        let targetY :=
          Resolver.offset_below keys positions' (itemHeights sh)
            newPosition 0%Q in
        let snapOffset := (targetY - initialLayoutOffset it)%Q in
        (set_positions positions'
           (set_draggedItemPosition newPosition
              (set_autoScrollDirection direction sh)),
         mkState (isDragging it) snapOffset (isDraggingShared it)
           (if changed then newPosition else targetPosition it)
           (initialScrollY it) (initialIndex it)
           (initialItemOffset it) (initialLayoutOffset it),
         calls)
  end.

(** [Gesture.Pan().onEnd] *)
Definition onEnd (p : Props) (sh : SharedValues) (it : State) : Result :=
  match draggableItemKey sh with
  | None => (sh, it, [])
  | Some dragged =>
      if negb (truthy dragged) then (sh, it, [])
      else
        let finalPosition := Obj.get (positions sh) dragged in
        (set_autoScrollDirection stop sh,
         mkState (isDragging it) (translateY it) false
           (targetPosition it) (initialScrollY it) (initialIndex it)
           (initialItemOffset it) (initialLayoutOffset it),
         CallStopAutoScroll
           :: CallSetIsDragging false
           :: (if onDragEnd p
               then [CallOnDragEnd (initialIndex it) finalPosition]
               else []))
  end.

End DraggableItem.

(** ** [useAutoScroll]: the auto-scroll coordinator *)

Module AutoScroll.

(** The hook's ref together with the interval timers of the JS runtime that
    are alive.  A timer handle is an opaque token, always truthy (the
    runtime numbers its timers from 1); each live timer carries the
    [direction] its callback closed over. *)
Record Hook := mkHook {
  scrollIntervalRef : option nat;
  intervals : list (nat * TAutoScrollDirection);
  nextHandle : nat
}.

Definition initial : Hook := mkHook None [] 1.

(** [clearInterval(handle)] *)
Definition clearInterval (handle : nat)
    (live : list (nat * TAutoScrollDirection))
  : list (nat * TAutoScrollDirection) :=
  filter (fun t => negb (Nat.eqb (fst t) handle)) live.

(** [if (scrollIntervalRef.current) clearInterval(scrollIntervalRef.current)] *)
Definition clear_current (hk : Hook) : list (nat * TAutoScrollDirection) :=
  match scrollIntervalRef hk with
  | Some handle => clearInterval handle (intervals hk)
  | None => intervals hk
  end.

(** [startAutoScroll(direction)]: clear the interval held by the ref, then
    [scrollIntervalRef.current = setInterval(callback, 16)]. *)
Definition startAutoScroll (direction : TAutoScrollDirection) (hk : Hook)
  : Hook :=
  let handle := nextHandle hk in
  mkHook (Some handle) ((handle, direction) :: clear_current hk) (S handle).

(** [stopAutoScroll()] *)
Definition stopAutoScroll (hk : Hook) : Hook :=
  match scrollIntervalRef hk with
  | Some handle =>
      mkHook None (clearInterval handle (intervals hk)) (nextHandle hk)
  | None => hk
  end.

(** The cleanup returned by the unmount effect: the interval is cleared, the
    ref is left as it is. *)
Definition unmount (hk : Hook) : Hook :=
  mkHook (scrollIntervalRef hk) (clear_current hk) (nextHandle hk).

(** [const maxScroll =
      Math.max(0, contentHeight.value - containerHeight.value)] *)
Definition maxScroll (sh : SharedValues) : Q :=
  Qmax 0 (contentHeight sh - containerHeight sh).

(** [newScroll] of the interval callback. *)
Definition newScroll (autoScrollSpeed : Q) (direction : TAutoScrollDirection)
    (sh : SharedValues) : Q :=
  let currentScroll := scrollY sh in
  match direction with
  | up => Qmax 0 (currentScroll - autoScrollSpeed)
  | _ => Qmin (maxScroll sh) (currentScroll + autoScrollSpeed)
  end.

(** [animatedRef.current?.scrollToOffset({ offset, animated: false })]
    together with what the list does in return.  The hook itself does not
    write [scrollY]: the list jumps to [offset] and its scroll handler
    stores the new content offset in [scrollY].  Two things are taken for
    granted here: the ref holds the mounted list (with a null ref the call
    does nothing), and the scroll event reaches the handler before the
    timer fires again. *)
Definition scrollToOffset (offset : Q) (sh : SharedValues) : SharedValues :=
  set_scrollY offset sh.

(** The body of the interval callback created by [startAutoScroll]. *)
Definition interval_callback (autoScrollSpeed : Q)
    (direction : TAutoScrollDirection) (st : SharedValues * Hook)
  : SharedValues * Hook :=
  let '(sh, hk) := st in
  let currentScroll := scrollY sh in
  let new := newScroll autoScrollSpeed direction sh in
  if Qeq_bool new currentScroll
  then (set_autoScrollDirection stop sh,
        mkHook None
          (match scrollIntervalRef hk with
           | Some handle => clearInterval handle (intervals hk)
           | None => intervals hk
           end)
          (nextHandle hk))
  else (scrollToOffset new sh, hk).

Fixpoint find_interval (handle : nat)
    (live : list (nat * TAutoScrollDirection))
  : option TAutoScrollDirection :=
  match live with
  | [] => None
  | (h, d) :: rest =>
      if Nat.eqb h handle then Some d else find_interval handle rest
  end.

(** The JS runtime firing timer [handle]: only a live timer fires. *)
Definition fire (autoScrollSpeed : Q) (handle : nat)
    (st : SharedValues * Hook) : SharedValues * Hook :=
  match find_interval handle (intervals (snd st)) with
  | Some direction => interval_callback autoScrollSpeed direction st
  | None => st
  end.

(** The timer held by the ref firing [n] times in a row. *)
Fixpoint ticks (autoScrollSpeed : Q) (n : nat) (st : SharedValues * Hook)
  : SharedValues * Hook :=
  match n with
  | O => st
  | S n' =>
      ticks autoScrollSpeed n'
        (match scrollIntervalRef (snd st) with
         | Some handle => fire autoScrollSpeed handle st
         | None => st
         end)
  end.

(** The calls a client of the hook can make, and the runtime's timer
    firings. *)
Inductive Op :=
| OpStart (direction : TAutoScrollDirection)
| OpStop
| OpFire (handle : nat)
| OpUnmount.

Definition step (autoScrollSpeed : Q) (op : Op) (st : SharedValues * Hook)
  : SharedValues * Hook :=
  match op with
  | OpStart direction => (fst st, startAutoScroll direction (snd st))
  | OpStop => (fst st, stopAutoScroll (snd st))
  | OpFire handle => fire autoScrollSpeed handle st
  | OpUnmount => (fst st, unmount (snd st))
  end.

Definition run (autoScrollSpeed : Q) (ops : list Op)
    (st : SharedValues * Hook) : SharedValues * Hook :=
  fold_left (fun s op => step autoScrollSpeed op s) ops st.

End AutoScroll.

(** ** [DraggableList]: the logical order *)

Module DraggableList.

Section WithItem.
(** [T extends TItem]; [item_key item] is [String(item.id)]. *)
Context {T : Type} (item_key : T -> string).

(** An array slot holds an item or [undefined] ([None]). *)
Definition Order := list (option T).

Record State := mkState {
  currentOrderRef : Order;
  shared : SharedValues;
  hook : AutoScroll.Hook
}.

(** [Array.prototype.splice]'s start index: a negative [start] counts from
    the end, and the result is clamped to [0, len]. *)
Definition splice_start (len start : Z) : nat :=
  Z.to_nat (if start <? 0 then Z.max (len + start) 0 else Z.min start len).

(** [const [movedItem] = newData.splice(fromIndex, 1)]: the array left and
    the element taken ([undefined] when nothing was removed). *)
Definition splice_remove (newData : Order) (fromIndex : Z)
  : Order * option T :=
  let start := splice_start (Z.of_nat (List.length newData)) fromIndex in
  (firstn start newData ++ skipn (S start) newData,
   match nth_error newData start with
   | Some movedItem => movedItem
   | None => None
   end).

(** [newData.splice(toIndex, 0, movedItem)] *)
Definition splice_insert (newData : Order) (toIndex : Z)
    (movedItem : option T) : Order :=
  let start := splice_start (Z.of_nat (List.length newData)) toIndex in
  firstn start newData ++ movedItem :: skipn start newData.

(** [fromIndex === toIndex] *)
Definition same_index (fromIndex : Z) (toIndex : option Z) : bool :=
  match toIndex with
  | Some t => fromIndex =? t
  | None => false
  end.

(** An [undefined] index is converted to 0 by [splice]. *)
Definition to_integer (i : option Z) : Z :=
  match i with
  | Some z => z
  | None => 0
  end.

(** [handleDragEnd(fromIndex, toIndex)] on the array held by
    [currentOrderRef]. *)
Definition handleDragEnd (fromIndex : Z) (toIndex : option Z)
    (current : Order) : Order :=
  if same_index fromIndex toIndex then current
  else
    let '(newData, movedItem) := splice_remove current fromIndex in
    splice_insert newData (to_integer toIndex) movedItem.

(** [data.forEach((item, index) => { map[String(item.id)] = index; })] *)
Fixpoint build_positions (data : list T) (index : Z) (map : TPositions)
  : TPositions :=
  match data with
  | [] => map
  | item :: rest =>
      build_positions rest (index + 1) (Obj.set map (item_key item) index)
  end.

(** The effect run when the [data] prop is supplied: the ref and the
    position table are re-derived from [data]. *)
Definition syncData (data : list T) (st : State) : State :=
  mkState (map Some data)
    (set_positions (build_positions data 0 []) (shared st))
    (hook st).

(** [getCurrentData()] *)
Definition getCurrentData (st : State) : Order := currentOrderRef st.

(** The state after the first render with [data]. *)
Definition mount (data : list T) : State :=
  syncData data
    (mkState (map Some data) (mkShared None (-1) [] [] 0 stop 0 0)
       AutoScroll.initial).

(** The props [renderDraggableItem] passes to the item rendered at
    [index]: [onDragEnd] is [handleDragEnd], [onDragStart] is not passed,
    and [listLength] is [currentOrderRef.current.length] as read while the
    item is rendered.  [st] is the state of the list at that render: the
    data effect of the same commit has not run yet, so the items rendered
    for a [data] of another length still carry the length of the previous
    order. *)
Definition item_props (st : State) (item : T) (index : Z)
  : DraggableItem.Props :=
  DraggableItem.mkProps (item_key item) index
    (Z.of_nat (List.length (currentOrderRef st))) false true.

(** One scheduled call executed on the JS thread. *)
Definition run_call (c : RNCall) (w : State * DraggableItem.State)
  : State * DraggableItem.State :=
  let '(st, it) := w in
  match c with
  | CallSetIsDragging b =>
      (st,
       DraggableItem.mkState b (DraggableItem.translateY it)
         (DraggableItem.isDraggingShared it)
         (DraggableItem.targetPosition it)
         (DraggableItem.initialScrollY it)
         (DraggableItem.initialIndex it)
         (DraggableItem.initialItemOffset it)
         (DraggableItem.initialLayoutOffset it))
  | CallOnDragStart _ => (st, it)
  | CallOnDragEnd fromIndex toIndex =>
      (mkState (handleDragEnd fromIndex toIndex (currentOrderRef st))
         (shared st) (hook st), it)
  | CallStartAutoScroll direction =>
      (mkState (currentOrderRef st) (shared st)
         (AutoScroll.startAutoScroll direction (hook st)), it)
  | CallStopAutoScroll =>
      (mkState (currentOrderRef st) (shared st)
         (AutoScroll.stopAutoScroll (hook st)), it)
  end.

Definition run_calls (cs : list RNCall) (w : State * DraggableItem.State)
  : State * DraggableItem.State :=
  fold_left (fun w c => run_call c w) cs w.

(** A gesture handler of one item run against the list, followed by the
    calls it scheduled. *)
Definition dispatch
    (handler : SharedValues -> DraggableItem.State -> DraggableItem.Result)
    (w : State * DraggableItem.State) : State * DraggableItem.State :=
  let '(st, it) := w in
  let '(sh', it', calls) := handler (shared st) it in
  run_calls calls (mkState (currentOrderRef st) sh' (hook st), it').

(** The events of one item's pan gesture. *)
Inductive Gesture :=
| GestureStart
| GestureUpdate (translationY : Q)
| GestureEnd.

Definition gesture (p : DraggableItem.Props) (g : Gesture)
    (w : State * DraggableItem.State) : State * DraggableItem.State :=
  match g with
  | GestureStart => dispatch (DraggableItem.onStart p) w
  | GestureUpdate translationY =>
      dispatch (DraggableItem.onUpdate p translationY) w
  | GestureEnd => dispatch (DraggableItem.onEnd p) w
  end.

Definition gestures (p : DraggableItem.Props) (gs : list Gesture)
    (w : State * DraggableItem.State) : State * DraggableItem.State :=
  fold_left (fun w g => gesture p g w) gs w.

(** [onContainerLayout], [onContentSizeChange] and the scroll handler. *)
Definition onContainerLayout (height : Q) (st : State) : State :=
  let sh := shared st in
  mkState (currentOrderRef st)
    (mkShared (draggableItemKey sh) (draggedItemPosition sh) (positions sh)
       (itemHeights sh) height (autoScrollDirection sh) (scrollY sh)
       (contentHeight sh))
    (hook st).

Definition onContentSizeChange (height : Q) (st : State) : State :=
  let sh := shared st in
  mkState (currentOrderRef st)
    (mkShared (draggableItemKey sh) (draggedItemPosition sh) (positions sh)
       (itemHeights sh) (containerHeight sh) (autoScrollDirection sh)
       (scrollY sh) height)
    (hook st).

Definition onScroll (contentOffsetY : Q) (st : State) : State :=
  mkState (currentOrderRef st) (set_scrollY contentOffsetY (shared st))
    (hook st).

(** The per-item layout report reaching the height table. *)
Definition layout (itemKey : string) (height : Q) (st : State) : State :=
  mkState (currentOrderRef st)
    (set_itemHeights (onLayout itemKey height (itemHeights (shared st)))
       (shared st))
    (hook st).

End WithItem.

End DraggableList.

(** ** [DraggableItem]: the reaction of the items that are not dragged *)

Module Reaction.

(** What the reaction does to [translateY]: nothing, or a spring toward a
    target; the target is [None] when the product is taken with an
    [undefined] height (NaN). *)
Inductive Animation :=
| Unchanged
| withSpring (target : option Q).

(** The value the first worklet of [useAnimatedReaction] returns. *)
Record Prepared := mkPrepared {
  targetPosition : option Z;
  isDragging : bool;
  activeKey : option string;
  currentIndex : Z
}.

Definition prepare (itemKey : string) (index : Z) (sh : SharedValues)
  : Prepared :=
  mkPrepared (Obj.get (positions sh) itemKey)
    (match draggableItemKey sh with Some _ => true | None => false end)
    (draggableItemKey sh) index.

(** [current.activeKey === itemKey] *)
Definition is_active (current : Prepared) (itemKey : string) : bool :=
  match activeKey current with
  | Some k => String.eqb k itemKey
  | None => false
  end.

(** [current.activeKey] used as a condition. *)
Definition active_truthy (current : Prepared) : bool :=
  match activeKey current with
  | Some k => truthy k
  | None => false
  end.

(** The second worklet of [useAnimatedReaction]. *)
Definition react (itemKey : string) (sh : SharedValues) (current : Prepared)
  : Animation :=
  if is_active current itemKey && isDragging current then Unchanged
  else
    match targetPosition current with
    | Some currentTargetPos =>
        if isDragging current && active_truthy current
           && negb (currentTargetPos =? currentIndex current)
        then
          withSpring
            (match Obj.get (itemHeights sh) itemKey with
             | Some height =>
                 Some (inject_Z (currentTargetPos - currentIndex current)
                       * height)%Q
             | None => None
             end)
        else if isDragging current
                && (currentTargetPos =? currentIndex current)
        then withSpring (Some 0%Q)
        else Unchanged
    | None => Unchanged
    end.

(** The reaction of the item rendered at [index] to the shared values. *)
Definition reaction (itemKey : string) (index : Z) (sh : SharedValues)
  : Animation :=
  react itemKey sh (prepare itemKey index sh).

End Reaction.

(** ** The list with its timer: gestures and timer firings interleaved *)

Module Engine.

Section WithItem.
Context {T : Type}.

(** What happens to a mounted list while one item is handled: an event of
    the item's pan gesture, or the JS runtime firing an interval timer. *)
Inductive Event :=
| EvGesture (g : DraggableList.Gesture)
| EvFire (handle : nat).

(** The interval callback run against the list's shared values and hook. *)
Definition fire (autoScrollSpeed : Q) (handle : nat)
    (w : DraggableList.State (T := T) * DraggableItem.State)
  : DraggableList.State (T := T) * DraggableItem.State :=
  let st := fst w in
  let r :=
    AutoScroll.fire autoScrollSpeed handle
      (DraggableList.shared st, DraggableList.hook st) in
  (DraggableList.mkState (DraggableList.currentOrderRef st) (fst r) (snd r),
   snd w).

Definition step (autoScrollSpeed : Q) (p : DraggableItem.Props) (e : Event)
    (w : DraggableList.State (T := T) * DraggableItem.State)
  : DraggableList.State (T := T) * DraggableItem.State :=
  match e with
  | EvGesture g => DraggableList.gesture p g w
  | EvFire handle => fire autoScrollSpeed handle w
  end.

Definition run (autoScrollSpeed : Q) (p : DraggableItem.Props)
    (es : list Event)
    (w : DraggableList.State (T := T) * DraggableItem.State)
  : DraggableList.State (T := T) * DraggableItem.State :=
  fold_left (fun w e => step autoScrollSpeed p e w) es w.

End WithItem.

End Engine.

(** ** Specification predicates *)

(** The slots [0 .. n-1]. *)
Definition slots (n : nat) : list Z := map Z.of_nat (seq 0 n).

(** A position table is a bijection from its identities onto [0, N-1]: the
    keys are distinct and the slots they hold are exactly [0 .. N-1], each
    once. *)
Definition permutation_table (ps : TPositions) : Prop :=
  NoDup (Obj.keys ps) /\
  Permutation (Obj.values ps) (slots (List.length ps)).

(** One swap resolution: the dragged item, which holds slot [S], is moved to
    a target slot [T] of the table by the worklet of [positions.modify]. *)
Inductive resolution (ps : TPositions) : TPositions -> Prop :=
| resolution_intro (dragged : string) (S T : Z) :
    Obj.get ps dragged = Some S ->
    0 <= T < Z.of_nat (List.length ps) ->
    resolution ps (Resolver.modify_positions ps dragged T).

(** The slot an item that holds slot [p] is given when the item at [S] moves
    to [T]. *)
Definition reassign (S T p : Z) : Z :=
  if p =? S then T else Resolver.shift_neighbour S T p.

(** The running height accumulated over [items]. *)
Fixpoint sum_heights (items : list Resolver.SortedItem) : Q :=
  match items with
  | [] => 0%Q
  | item :: rest => (Resolver.height item + sum_heights rest)%Q
  end.

(** The vertical center of [item] when the items [pre] lie above it. *)
Definition center_of (pre : list Resolver.SortedItem)
    (item : Resolver.SortedItem) : Q :=
  (sum_heights pre + Resolver.height item / 2)%Q.

(** No item of [items] has its center beyond [y]. *)
Definition none_exceeds (y : Q) (items : list Resolver.SortedItem) : Prop :=
  forall pre item post,
    items = pre ++ item :: post -> (center_of pre item <= y)%Q.

Definition nonneg_heights (items : list Resolver.SortedItem) : Prop :=
  Forall (fun item => (0 <= Resolver.height item)%Q) items.

(** Every stored height is positive, as [onLayout] leaves the table. *)
Definition measured_positive (heights : THeights) : Prop :=
  forall k h, Obj.get heights k = Some h -> (0 < h)%Q.

Definition sorted_by_slot {num}
    (items : list (Resolver.SortedItem (num := num))) : Prop :=
  Sorted.StronglySorted
    (fun a b => Resolver.index a <= Resolver.index b) items.

(** [runningY] once the scan, started with [runningY], has passed
    [items]. *)
Fixpoint running_height {num} {A : Num.Arithmetic num} (runningY : num)
    (items : list Resolver.SortedItem) : num :=
  match items with
  | [] => runningY
  | item :: rest =>
      running_height (Num.add runningY (Resolver.height item)) rest
  end.

(** The center the scan computes for [item] when the items [pre] come
    before it: the running height over [pre] plus half the item's height,
    in the arithmetic of the scan. *)
Definition computed_center {num} {A : Num.Arithmetic num}
    (pre : list Resolver.SortedItem) (item : Resolver.SortedItem) : num :=
  Resolver.itemCenterY (running_height Num.zero pre) item.

(** The scan passes all of [items]: the offset is below none of the
    centers computed for them. *)
Definition passes {num} {A : Num.Arithmetic num} (y : num)
    (items : list Resolver.SortedItem) : Prop :=
  forall pre item post,
    items = pre ++ item :: post ->
    Num.ltb y (computed_center pre item) = false.

(** [passes], computed along the list. *)
Fixpoint passes_from {num} {A : Num.Arithmetic num} (y runningY : num)
    (items : list Resolver.SortedItem) : bool :=
  match items with
  | [] => true
  | item :: rest =>
      negb (Num.ltb y (Resolver.itemCenterY runningY item))
      && passes_from y (Num.add runningY (Resolver.height item)) rest
  end.

(** The position table without the entry of [k]. *)
Definition without_key (k : string) (ps : TPositions) : TPositions :=
  filter (fun e => negb (String.eqb (fst e) k)) ps.

(** What the statements on ties and on unmeasured items use of the
    arithmetic, with [same] the equality of numbers: adding zero and halving
    zero change nothing, sums and comparisons do not tell equal numbers
    apart, and a number is not below a number it is equal to. *)
Record Lawful {num} (A : Num.Arithmetic num) (same : num -> num -> Prop)
  : Prop := {
  same_refl : forall x, same x x;
  same_trans : forall x y z, same x y -> same y z -> same x z;
  add_same : forall x x' y y',
    same x x' -> same y y' -> same (Num.add x y) (Num.add x' y');
  ltb_same : forall y c c', same c c' -> Num.ltb y c = Num.ltb y c';
  add_zero : forall x, same (Num.add x Num.zero) x;
  half_zero : same (Num.half Num.zero) Num.zero;
  eqb_not_ltb : forall x y, Num.eqb x y = true -> Num.ltb x y = false
}.

(** The scroll offset lies in [0, maxScroll]. *)
Definition in_bounds (sh : SharedValues) : Prop :=
  (0 <= scrollY sh <= AutoScroll.maxScroll sh)%Q.

(** What a step may change in the shared values: the extents are kept and
    the offset stays inside the bounds they give. *)
Definition scroll_frame (sh0 sh : SharedValues) : Prop :=
  contentHeight sh = contentHeight sh0 /\
  containerHeight sh = containerHeight sh0 /\
  in_bounds sh.

(** The timer [handle], scrolling in [direction], is the one alive. *)
Definition running (hk : AutoScroll.Hook) (handle : nat)
    (direction : TAutoScrollDirection) : Prop :=
  AutoScroll.scrollIntervalRef hk = Some handle /\
  AutoScroll.intervals hk = [(handle, direction)].

(** The coordinator has stopped itself. *)
Definition stopped (st : SharedValues * AutoScroll.Hook) : Prop :=
  AutoScroll.scrollIntervalRef (snd st) = None /\
  AutoScroll.intervals (snd st) = [] /\
  autoScrollDirection (fst st) = stop.

(** How far the offset is from the boundary it scrolls toward. *)
Definition distance (direction : TAutoScrollDirection) (sh : SharedValues)
  : Q :=
  match direction with
  | up => scrollY sh
  | _ => (AutoScroll.maxScroll sh - scrollY sh)%Q
  end.

(** The distance [n] unclamped ticks cover. *)
Fixpoint travel (speed : Q) (n : nat) : Q :=
  match n with
  | O => 0%Q
  | S n' => (travel speed n' + speed)%Q
  end.

(** At most one interval timer is alive, and it is the one the ref holds. *)
Definition single_timer (hk : AutoScroll.Hook) : Prop :=
  AutoScroll.intervals hk = [] \/
  exists handle direction,
    AutoScroll.intervals hk = [(handle, direction)] /\
    AutoScroll.scrollIntervalRef hk = Some handle.

(** The timer and the announced direction agree: no timer is alive while
    [autoScrollDirection] is [stop]; otherwise exactly one is, held by the
    ref and scrolling in the announced direction. *)
Definition timer_agrees (sh : SharedValues) (hk : AutoScroll.Hook) : Prop :=
  match autoScrollDirection sh with
  | stop => AutoScroll.intervals hk = []
  | direction =>
      exists handle,
        AutoScroll.intervals hk = [(handle, direction)] /\
        AutoScroll.scrollIntervalRef hk = Some handle
  end.

(** What one scheduled call does to the hook. *)
Definition hook_after_call (hk : AutoScroll.Hook) (c : RNCall)
  : AutoScroll.Hook :=
  match c with
  | CallStartAutoScroll direction => AutoScroll.startAutoScroll direction hk
  | CallStopAutoScroll => AutoScroll.stopAutoScroll hk
  | _ => hk
  end.

(** The index of the last occurrence of [k] in [keys]. *)
Fixpoint last_index (k : string) (keys : list string) : option nat :=
  match keys with
  | [] => None
  | k' :: rest =>
      match last_index k rest with
      | Some j => Some (S j)
      | None => if String.eqb k' k then Some O else None
      end
  end.

(** The logical order and the position table agree: the order is as long
    as the table and its [i]-th entry is an item that the table puts in slot
    [i]. *)
Definition order_matches_table {T} (item_key : T -> string)
    (order : list (option T)) (ps : TPositions) : Prop :=
  List.length order = List.length ps /\
  forall i, (i < List.length order)%nat ->
    exists item,
      nth_error order i = Some (Some item) /\
      Obj.get ps (item_key item) = Some (Z.of_nat i).

(** One complete drag of the item with props [p]: the start, the updates
    and the end of its gesture, with the item's own state [it]. *)
Definition complete_drag {T} (st : DraggableList.State (T := T))
    (drag : DraggableItem.Props * list Q * DraggableItem.State)
  : DraggableList.State (T := T) :=
  fst (DraggableList.gestures (fst (fst drag))
         (DraggableList.GestureStart
            :: map DraggableList.GestureUpdate (snd (fst drag))
            ++ [DraggableList.GestureEnd])
         (st, snd drag)).

(** A drag of [item], rendered at [index], with the props the list passes
    to it, and a sequence of such drags. *)
Definition drag_item {T} (item_key : T -> string)
    (st : DraggableList.State (T := T))
    (d : T * Z * list Q * DraggableItem.State)
  : DraggableList.State (T := T) :=
  complete_drag st
    (DraggableList.item_props item_key st (fst (fst (fst d)))
       (snd (fst (fst d))),
     snd (fst d), snd d).

Definition complete_drags {T} (item_key : T -> string)
    (ds : list (T * Z * list Q * DraggableItem.State))
    (st : DraggableList.State (T := T)) : DraggableList.State (T := T) :=
  fold_left (drag_item item_key) ds st.

(** The height table after a sequence of layout reports. *)
Definition layout_reports (reports : list (string * Q)) (hs : THeights)
  : THeights :=
  fold_left (fun t r => onLayout (fst r) (snd r) t) reports hs.

(** What the gesture handlers maintain: the table is a permutation table
    and the active key, when there is one, has an entry in it. *)
Definition engine_invariant (sh : SharedValues) : Prop :=
  permutation_table (positions sh) /\
  forall d, draggableItemKey sh = Some d -> In d (Obj.keys (positions sh)).

(** The splice of the logical order in the specification's words: the
    moved item is taken out of its origin index and inserted at its
    destination index. *)
Definition remove_at {A} (i : nat) (l : list A) : list A :=
  firstn i l ++ skipn (S i) l.

Definition insert_at {A} (i : nat) (x : A) (l : list A) : list A :=
  firstn i l ++ x :: skipn i l.

Definition move_item {A} (origin destination : nat) (l : list A) : list A :=
  match nth_error l origin with
  | Some x => insert_at destination x (remove_at origin l)
  | None => l
  end.

Definition is_drag_end (c : RNCall) : bool :=
  match c with
  | CallOnDragEnd _ _ => true
  | _ => false
  end.

(** ** Concrete tables used in the examples *)

(** Five items in slots 0-4, each 60px tall. *)
Definition five_slots : TPositions :=
  [("a"%string, 0); ("b"%string, 1); ("c"%string, 2); ("d"%string, 3);
   ("e"%string, 4)].

Definition sixty : THeights :=
  [("a"%string, 60%Q); ("b"%string, 60%Q); ("c"%string, 60%Q);
   ("d"%string, 60%Q); ("e"%string, 60%Q)].

(** The same heights as numbers of the code. *)
Definition sixty_px : Obj.t Double.t :=
  [("a"%string, Double.of_Z 60); ("b"%string, Double.of_Z 60);
   ("c"%string, Double.of_Z 60); ("d"%string, Double.of_Z 60);
   ("e"%string, Double.of_Z 60)].

(** Items of 60.3px; the one in slot 4, ["e"], has not been measured. *)
Definition e_unmeasured : Obj.t Double.t :=
  [("a"%string, Double.decimal 603 10); ("b"%string, Double.decimal 603 10);
   ("c"%string, Double.decimal 603 10); ("d"%string, Double.decimal 603 10)].

(** [60.3 + 60.3 / 2] as the code computes it: the center of the second
    of two items of 60.3px.  It is 90.44999999999999, the binary64 number
    next below 90.45. *)
Definition tie_offset : Double.t :=
  Double.add (Double.decimal 603 10)
    (Double.div (Double.decimal 603 10) (Double.of_Z 2)).

(** [60.3 + 60.3 + 60.3] as the code computes it: the running height after
    three items of 60.3px.  It is 180.89999999999998, the binary64 number
    next below 180.9. *)
Definition running_offset : Double.t :=
  Double.add (Double.add (Double.add Double.zero (Double.decimal 603 10))
                (Double.decimal 603 10))
    (Double.decimal 603 10).

(** Four items; the one in slot 2, ["z"], has not been measured. *)
Definition four_slots : TPositions :=
  [("a"%string, 0); ("b"%string, 1); ("z"%string, 2); ("c"%string, 3)].

Definition z_unmeasured : Obj.t Double.t :=
  [("a"%string, Double.of_Z 60); ("b"%string, Double.of_Z 60);
   ("c"%string, Double.of_Z 60)].

(** The same list without ["z"]. *)
Definition three_slots : TPositions :=
  [("a"%string, 0); ("b"%string, 1); ("c"%string, 2)].

(** Content of 1000px in a container of 400px, scrolled to the top, the
    timer just started downwards. *)
Definition scroll_example : SharedValues * AutoScroll.Hook :=
  (mkShared None (-1) [] [] 400 down 0 1000,
   AutoScroll.startAutoScroll down AutoScroll.initial).

(** The list [A, B, C] mounted in a container of 600px, every item measured
    at 60px, and the item component of [A]. *)
Definition abc_list : DraggableList.State (T := string) :=
  DraggableList.onContainerLayout 600
    (DraggableList.layout "C" 60
       (DraggableList.layout "B" 60
          (DraggableList.layout "A" 60
             (DraggableList.mount (fun item => item)
                ["A"%string; "B"%string; "C"%string])))).

Definition abc_props : DraggableItem.Props :=
  DraggableList.item_props (fun item => item) abc_list "A"%string 0.

Definition abc : DraggableList.State (T := string) * DraggableItem.State :=
  (abc_list, DraggableItem.initial abc_props).

(** Two drags of the list [A; B; C]: [A] down along two offsets, then [C]
    up. *)
Definition abc_drags : list (string * Z * list Q * DraggableItem.State) :=
  [("A"%string, 0, [70%Q; 130%Q], DraggableItem.initial abc_props);
   ("C"%string, 2, [(-200)%Q], DraggableItem.initial abc_props)].

(** The list [A; B; C] after [A] was dragged down along two offsets. *)
Definition abc_dragged : DraggableList.State (T := string) :=
  fst (DraggableList.gestures abc_props
         (DraggableList.GestureStart
            :: map DraggableList.GestureUpdate [70%Q; 130%Q]
            ++ [DraggableList.GestureEnd]) abc).

(** The same list with [A] not measured yet. *)
Definition abc_unmeasured
  : DraggableList.State (T := string) * DraggableItem.State :=
  (DraggableList.onContainerLayout 600
     (DraggableList.layout "C" 60
        (DraggableList.layout "B" 60
           (DraggableList.mount (fun item => item)
              ["A"%string; "B"%string; "C"%string]))),
   DraggableItem.initial abc_props).

(** The props of [B], rendered at index 1 of that list. *)
Definition bc_props : DraggableItem.Props :=
  DraggableList.item_props (fun item => item) (fst abc_unmeasured)
    "B"%string 1.

(** * Facts *)

(** The operations of [Num.exact] shown as the operations of [Q]. *)
Ltac exact_arith :=
  cbn [Num.zero Num.add Num.half Num.ltb Num.eqb Num.or_zero Num.exact] in *.

(** ** Objects *)

Lemma get_In {V} (o : Obj.t V) k v : Obj.get o k = Some v -> In (k, v) o.
Proof.
  induction o as [|[k' v'] o IH]; simpl; [discriminate|].
  destruct (String.eqb_spec k' k) as [->|Hne].
  - intros [= ->]. now left.
  - intros H. right. now apply IH.
Qed.

Lemma get_In_keys {V} (o : Obj.t V) k v :
  Obj.get o k = Some v -> In k (Obj.keys o).
Proof.
  intros H. apply get_In in H. unfold Obj.keys.
  change k with (fst (k, v)). now apply in_map.
Qed.

Lemma In_keys_get {V} (o : Obj.t V) k :
  In k (Obj.keys o) -> exists v, Obj.get o k = Some v.
Proof.
  induction o as [|[k' v'] o IH]; simpl; [tauto|].
  intros [->|Hin].
  - rewrite String.eqb_refl. eauto.
  - destruct (String.eqb k' k); eauto.
Qed.

Lemma get_not_In {V} (o : Obj.t V) k :
  ~ In k (Obj.keys o) -> Obj.get o k = None.
Proof.
  induction o as [|[k' v'] o IH]; simpl; [reflexivity|].
  intros Hn. destruct (String.eqb_spec k' k) as [->|Hne]; [tauto|].
  apply IH. tauto.
Qed.

Lemma NoDup_get_In {V} (o : Obj.t V) k v :
  NoDup (Obj.keys o) -> In (k, v) o -> Obj.get o k = Some v.
Proof.
  induction o as [|[k' v'] o IH]; simpl; [tauto|].
  intros Hnd [[= -> ->]|Hin].
  - now rewrite String.eqb_refl.
  - inversion Hnd as [|? ? Hk Hnd']; subst.
    destruct (String.eqb_spec k' k) as [->|Hne].
    + exfalso. apply Hk. unfold Obj.keys.
      change k with (fst (k, v)). now apply in_map.
    + now apply IH.
Qed.

Lemma set_keys_present {V} (o : Obj.t V) k v :
  In k (Obj.keys o) -> Obj.keys (Obj.set o k v) = Obj.keys o.
Proof.
  induction o as [|[k' v'] o IH]; simpl; [tauto|].
  intros Hin. destruct (String.eqb_spec k' k) as [->|Hne]; [reflexivity|].
  simpl. f_equal. apply IH. destruct Hin; congruence.
Qed.

Lemma get_set_same {V} (o : Obj.t V) k v : Obj.get (Obj.set o k v) k = Some v.
Proof.
  induction o as [|[k' v'] o IH]; simpl.
  - now rewrite String.eqb_refl.
  - destruct (String.eqb_spec k' k) as [->|Hne]; simpl.
    + now rewrite String.eqb_refl.
    + destruct (String.eqb_spec k' k); [congruence|exact IH].
Qed.

(** ** Slots *)

Lemma In_slots n x : In x (slots n) <-> 0 <= x < Z.of_nat n.
Proof.
  unfold slots. rewrite in_map_iff. split.
  - intros [i [<- Hi]]. apply in_seq in Hi. lia.
  - intros H. exists (Z.to_nat x). split; [lia|]. apply in_seq. lia.
Qed.

Lemma NoDup_slots n : NoDup (slots n).
Proof.
  unfold slots. apply Finite.Injective_map_NoDup.
  - intros a b. lia.
  - apply seq_NoDup.
Qed.

Lemma length_slots n : List.length (slots n) = n.
Proof. unfold slots. now rewrite length_map, length_seq. Qed.

Lemma length_values {V} (o : Obj.t V) :
  List.length (Obj.values o) = List.length o.
Proof. apply length_map. Qed.

Lemma permutation_table_range (ps : TPositions) k p :
  permutation_table ps -> In (k, p) ps -> 0 <= p < Z.of_nat (List.length ps).
Proof.
  intros [_ Hperm] Hin. apply In_slots.
  eapply Permutation_in; [exact Hperm|].
  unfold Obj.values. change p with (snd (k, p)). now apply in_map.
Qed.

Lemma NoDup_values_unique_key (ps : TPositions) k1 k2 p :
  NoDup (Obj.values ps) -> In (k1, p) ps -> In (k2, p) ps ->
  NoDup (Obj.keys ps) -> k1 = k2.
Proof.
  induction ps as [|[k v] ps IH]; simpl; [tauto|].
  intros Hv H1 H2 Hk.
  inversion Hv as [|? ? Hnv Hv']; subst.
  inversion Hk as [|? ? Hnk Hk']; subst.
  assert (Hval : forall k', In (k', p) ps -> In p (Obj.values ps)).
  { intros k' Hin. unfold Obj.values. change p with (snd (k', p)).
    now apply in_map. }
  destruct H1 as [E1|H1]; destruct H2 as [E2|H2].
  - congruence.
  - inversion E1; subst. exfalso. apply Hnv. eauto.
  - inversion E2; subst. exfalso. apply Hnv. eauto.
  - now apply IH.
Qed.

(** ** The reassignment is a rotation of the slots between [S] and [T] *)

Ltac z_cases :=
  rewrite ?Z.gtb_ltb, ?Z.geb_leb in *;
  repeat match goal with
    | |- context [?a =? ?b] => destruct (Z.eqb_spec a b)
    | |- context [?a <? ?b] => destruct (Z.ltb_spec a b)
    | |- context [?a <=? ?b] => destruct (Z.leb_spec a b)
    | H : context [?a =? ?b] |- _ => destruct (Z.eqb_spec a b)
    | H : context [?a <? ?b] |- _ => destruct (Z.ltb_spec a b)
    | H : context [?a <=? ?b] |- _ => destruct (Z.leb_spec a b)
    end;
  simpl in *.

Lemma shift_neighbour_cases S T p :
  (S < p <= T /\ Resolver.shift_neighbour S T p = p - 1) \/
  (T <= p < S /\ Resolver.shift_neighbour S T p = p + 1) \/
  (~ S < p <= T /\ ~ T <= p < S /\ Resolver.shift_neighbour S T p = p).
Proof. unfold Resolver.shift_neighbour. z_cases; lia. Qed.

Lemma reassign_range S T n p :
  0 <= S < n -> 0 <= T < n -> 0 <= p < n -> 0 <= reassign S T p < n.
Proof.
  intros HS HT Hp. unfold reassign.
  pose proof (shift_neighbour_cases S T p).
  destruct (Z.eqb_spec p S); lia.
Qed.

Lemma reassign_injective S T p q :
  reassign S T p = reassign S T q -> p = q.
Proof.
  unfold reassign.
  pose proof (shift_neighbour_cases S T p).
  pose proof (shift_neighbour_cases S T q).
  destruct (Z.eqb_spec p S), (Z.eqb_spec q S); lia.
Qed.

Lemma modify_tail_reassign (d : string) (S T : Z) (ps : TPositions) :
  (forall k p, In (k, p) ps -> k <> d /\ p <> S) ->
  map (fun '(k, itemPos) =>
         if String.eqb k d then (k, itemPos)
         else (k, Resolver.shift_neighbour S T itemPos)) ps
  = map (fun e => (fst e, reassign S T (snd e))) ps.
Proof.
  induction ps as [|[k p] ps IH]; simpl; [reflexivity|].
  intros H. destruct (H k p (or_introl eq_refl)) as [Hk Hp].
  destruct (String.eqb_spec k d); [contradiction|].
  unfold reassign at 1. destruct (Z.eqb_spec p S); [contradiction|].
  f_equal. apply IH. intros k' p' Hin. apply H. now right.
Qed.

Lemma modify_positions_reassign (ps : TPositions) d S T :
  NoDup (Obj.keys ps) -> NoDup (Obj.values ps) ->
  Obj.get ps d = Some S ->
  Resolver.modify_positions ps d T
  = map (fun e => (fst e, reassign S T (snd e))) ps.
Proof.
  intros Hk Hv Hget. unfold Resolver.modify_positions. rewrite Hget.
  assert (Huniq : forall k p, In (k, p) ps -> p = S -> k = d).
  { intros k p Hin ->. apply get_In in Hget.
    eapply NoDup_values_unique_key; eauto. }
  clear Hv. induction ps as [|[k p] ps IH]; simpl in *; [discriminate|].
  inversion Hk as [|? ? Hnk Hk']; subst.
  destruct (String.eqb_spec k d) as [->|Hne].
  - injection Hget as ->. simpl. rewrite String.eqb_refl.
    unfold reassign at 1. rewrite Z.eqb_refl. f_equal.
    apply modify_tail_reassign. intros k' p' Hin. split.
    + intros ->. apply Hnk. unfold Obj.keys.
      change d with (fst (d, p')). now apply in_map.
    + intros ->. apply Hnk. rewrite <- (Huniq k' S (or_intror Hin) eq_refl).
      unfold Obj.keys. change k' with (fst (k', S)). now apply in_map.
  - simpl. destruct (String.eqb_spec k d); [contradiction|].
    unfold reassign at 1. destruct (Z.eqb_spec p S) as [->|Hp].
    + exfalso. apply Hne. apply (Huniq k S); auto.
    + f_equal. apply IH; auto. intros k' p' Hin. apply Huniq. now right.
Qed.

Lemma modify_positions_permutation (ps : TPositions) d S T :
  permutation_table ps ->
  Obj.get ps d = Some S ->
  0 <= T < Z.of_nat (List.length ps) ->
  permutation_table (Resolver.modify_positions ps d T).
Proof.
  intros Hpt Hget HT. pose proof Hpt as [Hk Hperm].
  assert (Hv : NoDup (Obj.values ps)).
  { eapply Permutation_NoDup; [symmetry; exact Hperm|apply NoDup_slots]. }
  assert (HS : 0 <= S < Z.of_nat (List.length ps)).
  { eapply permutation_table_range; eauto using get_In. }
  rewrite (modify_positions_reassign ps d S T Hk Hv Hget).
  set (f := fun e : string * Z => (fst e, reassign S T (snd e))).
  assert (Hkeys : Obj.keys (map f ps) = Obj.keys ps).
  { unfold Obj.keys. rewrite map_map. reflexivity. }
  assert (Hvals : Obj.values (map f ps) = map (reassign S T) (Obj.values ps)).
  { unfold Obj.values. now rewrite !map_map. }
  split.
  - now rewrite Hkeys.
  - rewrite Hvals, length_map.
    apply NoDup_Permutation_bis.
    + apply Finite.Injective_map_NoDup; [|exact Hv].
      intros p q. apply reassign_injective.
    + rewrite length_slots, length_map, length_values. lia.
    + intros x Hx. apply in_map_iff in Hx as [p [<- Hp]].
      apply In_slots. apply reassign_range; auto.
      apply In_slots. eapply Permutation_in; eauto.
Qed.

(** ** The resolved slot lies inside the table *)

Lemma scan_bounds {num} {A : Num.Arithmetic num}
    (items : list Resolver.SortedItem) (y r : num) n :
  n <= Resolver.scan items y r n <= n + Z.of_nat (List.length items).
Proof.
  revert r n. induction items as [|item items IH]; intros r n; simpl; [lia|].
  destruct (Num.ltb y (Resolver.itemCenterY r item)); [lia|].
  specialize (IH (Num.add r (Resolver.height item)) (n + 1)). lia.
Qed.

Lemma length_insert_by_index {num} (x : Resolver.SortedItem (num := num)) l :
  List.length (Resolver.insert_by_index x l) = S (List.length l).
Proof.
  induction l as [|y l IH]; simpl; [reflexivity|].
  destruct (Resolver.index x <=? Resolver.index y); simpl; congruence.
Qed.

Lemma length_sort_by_index {num}
    (l : list (Resolver.SortedItem (num := num))) :
  List.length (Resolver.sort_by_index l) = List.length l.
Proof.
  induction l as [|x l IH]; simpl; [reflexivity|].
  now rewrite length_insert_by_index, IH.
Qed.

Lemma length_collect_items_absent {num} {A : Num.Arithmetic num}
    (ps : TPositions) (hs : Obj.t num) d :
  ~ In d (Obj.keys ps) ->
  List.length (Resolver.collect_items ps hs d) = List.length ps.
Proof.
  induction ps as [|[k p] ps IH]; simpl; [reflexivity|].
  intros Hn. destruct (String.eqb_spec k d) as [->|Hne]; [tauto|].
  simpl. f_equal. apply IH. tauto.
Qed.

Lemma length_collect_items {num} {A : Num.Arithmetic num}
    (ps : TPositions) (hs : Obj.t num) d :
  NoDup (Obj.keys ps) -> In d (Obj.keys ps) ->
  S (List.length (Resolver.collect_items ps hs d)) = List.length ps.
Proof.
  induction ps as [|[k p] ps IH]; simpl; [tauto|].
  intros Hnd Hin. inversion Hnd as [|? ? Hnk Hnd']; subst.
  destruct (String.eqb_spec k d) as [->|Hne].
  - f_equal. now apply length_collect_items_absent.
  - simpl. f_equal. apply IH; auto. destruct Hin; congruence.
Qed.

Lemma resolve_position_range {num} {A : Num.Arithmetic num}
    (ps : TPositions) (hs : Obj.t num) d listLength (y : num) :
  NoDup (Obj.keys ps) -> In d (Obj.keys ps) ->
  0 <= Resolver.resolve_position ps hs d listLength y
    < Z.of_nat (List.length ps).
Proof.
  intros Hnd Hin. unfold Resolver.resolve_position, Resolver.clamp_position.
  pose proof (scan_bounds (Resolver.sortedItems ps hs d) y Num.zero 0) as Hb.
  unfold Resolver.sortedItems in *. rewrite length_sort_by_index in Hb.
  pose proof (length_collect_items ps hs d Hnd Hin). lia.
Qed.

(** Every step of the code's own resolver is a [resolution] (or leaves the
    table as it is). *)
Lemma swap_step_resolution {num} {A : Num.Arithmetic num}
    (ps : TPositions) (hs : Obj.t num) d listLength (y : num) :
  NoDup (Obj.keys ps) -> In d (Obj.keys ps) ->
  Resolver.swap_step ps hs d listLength y = ps \/
  resolution ps (Resolver.swap_step ps hs d listLength y).
Proof.
  intros Hnd Hin. unfold Resolver.swap_step.
  destruct (Resolver.position_differs _ _); [right|now left].
  destruct (In_keys_get ps d Hin) as [S HS].
  eapply resolution_intro; eauto.
  now apply resolve_position_range.
Qed.

Lemma resolution_permutation (ps ps' : TPositions) :
  permutation_table ps -> resolution ps ps' -> permutation_table ps'.
Proof.
  intros Hpt Hstep. destruct Hstep as [d S T HS HT].
  eapply modify_positions_permutation; eauto.
Qed.

Lemma swap_step_permutation {num} {A : Num.Arithmetic num}
    (ps : TPositions) (hs : Obj.t num) d listLength (y : num) :
  permutation_table ps -> In d (Obj.keys ps) ->
  permutation_table (Resolver.swap_step ps hs d listLength y).
Proof.
  intros Hpt Hin.
  destruct (swap_step_resolution ps hs d listLength y (proj1 Hpt) Hin)
    as [->|Hres]; [exact Hpt|].
  eapply resolution_permutation; eauto.
Qed.

(** The table [onUpdate] leaves behind is the table it found, or the result
    of one [swap_step] for the active item. *)
Lemma onUpdate_positions p translationY sh it :
  positions (fst (fst (DraggableItem.onUpdate p translationY sh it)))
    = positions sh \/
  exists d y,
    draggableItemKey sh = Some d /\
    positions (fst (fst (DraggableItem.onUpdate p translationY sh it)))
    = Resolver.swap_step (positions sh) (itemHeights sh) d
        (DraggableItem.listLength p) y.
Proof.
  unfold DraggableItem.onUpdate.
  destruct (draggableItemKey sh) as [d|]; [|now left].
  destruct (negb (truthy d) || height_is_zero (itemHeights sh) d);
    [now left|].
  destruct (DraggableItem.edge_check _ _ _ _) as [direction calls].
  right. eexists d, _. split; [reflexivity|]. reflexivity.
Qed.

Lemma onUpdate_permutation p translationY sh it :
  permutation_table (positions sh) ->
  (forall d, draggableItemKey sh = Some d -> In d (Obj.keys (positions sh))) ->
  permutation_table
    (positions (fst (fst (DraggableItem.onUpdate p translationY sh it)))).
Proof.
  intros Hpt Hin.
  destruct (onUpdate_positions p translationY sh it) as [->|[d [y [Hd ->]]]];
    [exact Hpt|].
  apply swap_step_permutation; auto.
Qed.

(** ** The scan in exact arithmetic *)

Lemma half_eq (h : Q) : (h / 2 == h * (1 # 2))%Q.
Proof. unfold Qdiv. reflexivity. Qed.

Lemma scan_Qeq items y r r' n :
  (r == r')%Q -> Resolver.scan items y r n = Resolver.scan items y r' n.
Proof.
  revert r r' n. induction items as [|item items IH]; intros r r' n Hr;
    simpl; [reflexivity|].
  unfold Resolver.itemCenterY. exact_arith.
  destruct (Qlt_le_dec y (r + Resolver.height item / 2)),
           (Qlt_le_dec y (r' + Resolver.height item / 2)).
  - reflexivity.
  - exfalso. lra.
  - exfalso. lra.
  - apply IH. lra.
Qed.

Lemma scan_shift {num} {A : Num.Arithmetic num}
    (items : list Resolver.SortedItem) (y r : num) n m :
  Resolver.scan items y r (n + m) = Resolver.scan items y r n + m.
Proof.
  revert r n. induction items as [|item items IH]; intros r n; simpl;
    [reflexivity|].
  destruct (Num.ltb y (Resolver.itemCenterY r item)); [reflexivity|].
  replace (n + m + 1) with (n + 1 + m) by lia. apply IH.
Qed.

(** Items whose centers are all at or below the offset are all passed. *)
Lemma scan_app_passed pre rest y r n :
  (forall pre1 x pre2,
      pre = pre1 ++ x :: pre2 ->
      (r + sum_heights pre1 + Resolver.height x / 2 <= y)%Q) ->
  Resolver.scan (pre ++ rest) y r n
  = Resolver.scan rest y (r + sum_heights pre)%Q
      (n + Z.of_nat (List.length pre)).
Proof.
  revert r n. induction pre as [|a pre IH]; intros r n H.
  - simpl. rewrite Z.add_0_r. apply scan_Qeq. lra.
  - simpl app. cbn [Resolver.scan]. unfold Resolver.itemCenterY. exact_arith.
    pose proof (H [] a pre eq_refl) as Ha. simpl in Ha.
    destruct (Qlt_le_dec y (r + Resolver.height a / 2)); [exfalso; lra|].
    rewrite IH.
    + replace (n + 1 + Z.of_nat (List.length pre))
        with (n + Z.of_nat (List.length (a :: pre)))
        by (simpl List.length; lia).
      apply scan_Qeq. simpl. lra.
    + intros pre1 x pre2 ->.
      specialize (H (a :: pre1) x pre2 eq_refl). simpl in H. lra.
Qed.

Lemma scan_first_exceeding pre item post y :
  none_exceeds y pre ->
  (y < center_of pre item)%Q ->
  Resolver.scan (pre ++ item :: post) y 0%Q 0 = Z.of_nat (List.length pre).
Proof.
  intros Hpre Hlt. rewrite scan_app_passed.
  - cbn [Resolver.scan]. unfold Resolver.itemCenterY, center_of in *.
    exact_arith.
    destruct (Qlt_le_dec y (0 + sum_heights pre + Resolver.height item / 2));
      [lia|exfalso; lra].
  - intros pre1 x pre2 E. specialize (Hpre pre1 x pre2 E).
    unfold center_of in Hpre. lra.
Qed.

Lemma scan_none_exceeding items y :
  none_exceeds y items ->
  Resolver.scan items y 0%Q 0 = Z.of_nat (List.length items).
Proof.
  intros H. rewrite <- (app_nil_r items) at 1. rewrite scan_app_passed.
  - reflexivity.
  - intros pre1 x pre2 E. specialize (H pre1 x pre2 E).
    unfold center_of in H. lra.
Qed.

(** With non-negative heights the centers never decrease down the list. *)
Lemma sum_heights_nonneg items :
  nonneg_heights items -> (0 <= sum_heights items)%Q.
Proof.
  induction 1 as [|item items Hh _ IH]; simpl; lra.
Qed.

Lemma sum_heights_app l1 l2 :
  (sum_heights (l1 ++ l2) == sum_heights l1 + sum_heights l2)%Q.
Proof.
  induction l1 as [|a l1 IH]; simpl; [lra|]. rewrite IH. lra.
Qed.

Lemma nonneg_none_exceeds pre y :
  nonneg_heights pre -> (sum_heights pre <= y)%Q -> none_exceeds y pre.
Proof.
  intros Hnn Hy pre1 x pre2 ->. unfold center_of.
  apply Forall_app in Hnn as [Hn1 Hn2].
  inversion Hn2 as [|? ? Hx Hn3]; subst.
  pose proof (sum_heights_nonneg _ Hn3).
  rewrite sum_heights_app in Hy. simpl in Hy.
  rewrite half_eq. lra.
Qed.

(** ** The sort *)

Lemma insert_by_index_perm {num} (x : Resolver.SortedItem (num := num)) l :
  Permutation (Resolver.insert_by_index x l) (x :: l).
Proof.
  induction l as [|y l IH]; simpl; [reflexivity|].
  destruct (Resolver.index x <=? Resolver.index y); [reflexivity|].
  rewrite IH. apply perm_swap.
Qed.

Lemma sort_by_index_perm {num}
    (l : list (Resolver.SortedItem (num := num))) :
  Permutation (Resolver.sort_by_index l) l.
Proof.
  induction l as [|x l IH]; simpl; [reflexivity|].
  rewrite insert_by_index_perm. now constructor.
Qed.

Lemma insert_by_index_sorted {num}
    (x : Resolver.SortedItem (num := num)) l :
  sorted_by_slot l -> sorted_by_slot (Resolver.insert_by_index x l).
Proof.
  unfold sorted_by_slot. induction 1 as [|y l Hs IH Hy]; simpl.
  - repeat constructor.
  - destruct (Z.leb_spec (Resolver.index x) (Resolver.index y)).
    + constructor; [now constructor|]. constructor; [lia|].
      eapply Forall_impl; [|exact Hy]. simpl. intros; lia.
    + constructor; [exact IH|].
      eapply Permutation_Forall; [symmetry; apply insert_by_index_perm|].
      constructor; [lia|exact Hy].
Qed.

Lemma sort_by_index_sorted {num}
    (l : list (Resolver.SortedItem (num := num))) :
  sorted_by_slot (Resolver.sort_by_index l).
Proof.
  induction l as [|x l IH]; simpl; [constructor|].
  now apply insert_by_index_sorted.
Qed.

(** An item goes in front of a list whose items all have its slot or a
    higher one. *)
Lemma insert_by_index_front {num}
    (x : Resolver.SortedItem (num := num)) l :
  Forall (fun y => Resolver.index x <= Resolver.index y) l ->
  Resolver.insert_by_index x l = x :: l.
Proof.
  intros H. destruct H as [|y l Hy _]; simpl; [reflexivity|].
  destruct (Z.leb_spec (Resolver.index x) (Resolver.index y));
    [reflexivity|lia].
Qed.

(** The sort commutes with dropping items: what is left of the sorted list
    is the sorted list of what is left. *)
Lemma filter_insert_by_index {num}
    (f : Resolver.SortedItem (num := num) -> bool) x l :
  sorted_by_slot l ->
  filter f (Resolver.insert_by_index x l)
  = if f x then Resolver.insert_by_index x (filter f l) else filter f l.
Proof.
  unfold sorted_by_slot. induction 1 as [|y l Hs IH Hy].
  - simpl. destruct (f x); reflexivity.
  - cbn [Resolver.insert_by_index].
    destruct (Z.leb_spec (Resolver.index x) (Resolver.index y)) as [Hle|Hgt].
    + cbn [filter]. destruct (f x); [|reflexivity].
      rewrite insert_by_index_front; [reflexivity|].
      destruct (f y).
      * constructor; [exact Hle|].
        apply Forall_forall. intros z Hz. apply filter_In in Hz as [Hz _].
        rewrite Forall_forall in Hy. specialize (Hy z Hz). lia.
      * apply Forall_forall. intros z Hz. apply filter_In in Hz as [Hz _].
        rewrite Forall_forall in Hy. specialize (Hy z Hz). lia.
    + cbn [filter]. rewrite IH. destruct (f y), (f x); try reflexivity.
      cbn [Resolver.insert_by_index].
      destruct (Z.leb_spec (Resolver.index x) (Resolver.index y));
        [lia|reflexivity].
Qed.

Lemma filter_sort_by_index {num}
    (f : Resolver.SortedItem (num := num) -> bool) l :
  filter f (Resolver.sort_by_index l) = Resolver.sort_by_index (filter f l).
Proof.
  induction l as [|x l IH]; [reflexivity|].
  cbn [Resolver.sort_by_index fold_right].
  rewrite filter_insert_by_index by apply sort_by_index_sorted.
  fold (Resolver.sort_by_index l). rewrite IH.
  cbn [filter]. destruct (f x); reflexivity.
Qed.

(** The sort is stable: the items of one slot come out in the order they
    went in. *)
Lemma sort_by_index_stable {num}
    (l : list (Resolver.SortedItem (num := num))) (slot : Z) :
  filter (fun x => Resolver.index x =? slot) (Resolver.sort_by_index l)
  = filter (fun x => Resolver.index x =? slot) l.
Proof.
  rewrite filter_sort_by_index.
  assert (H : Forall (fun x => Resolver.index x = slot)
                (filter (fun x : Resolver.SortedItem (num := num) =>
                           Resolver.index x =? slot) l)).
  { apply Forall_forall. intros x Hx. apply filter_In in Hx as [_ Hx].
    now apply Z.eqb_eq. }
  induction H as [|x l' Hx Hl IH]; [reflexivity|].
  cbn [Resolver.sort_by_index fold_right].
  fold (Resolver.sort_by_index l'). rewrite IH.
  apply insert_by_index_front.
  eapply Forall_impl; [|exact Hl]. simpl. intros; lia.
Qed.

(** The items collected are the entries of the table other than the dragged
    one, each with its slot and the height read from the height table. *)
Lemma collect_items_spec {num} {A : Num.Arithmetic num}
    (ps : TPositions) (hs : Obj.t num) d :
  Resolver.collect_items ps hs d
  = map (fun e => Resolver.mkSortedItem (fst e) (snd e)
                    (height_or_zero hs (fst e)))
        (filter (fun e => negb (String.eqb (fst e) d)) ps).
Proof.
  induction ps as [|[k p] ps IH]; simpl; [reflexivity|].
  destruct (String.eqb k d); simpl; now rewrite IH.
Qed.

Lemma clamp_position_range listLength newPos :
  1 <= listLength ->
  0 <= Resolver.clamp_position listLength newPos <= listLength - 1.
Proof. unfold Resolver.clamp_position. lia. Qed.

Lemma measured_positive_nonneg (ps : TPositions) (hs : THeights) d :
  measured_positive hs -> nonneg_heights (Resolver.sortedItems ps hs d).
Proof.
  intros Hm. unfold nonneg_heights, Resolver.sortedItems.
  eapply Permutation_Forall; [symmetry; apply sort_by_index_perm|].
  rewrite collect_items_spec. apply Forall_map, Forall_forall.
  intros e _. simpl. unfold height_or_zero. exact_arith.
  destruct (Obj.get hs (fst e)) as [h|] eqn:E; [|lra].
  apply Qlt_le_weak. eapply Hm; eauto.
Qed.

(** ** The scan in any arithmetic *)

Lemma running_height_app {num} {A : Num.Arithmetic num} (r : num)
    (l1 l2 : list Resolver.SortedItem) :
  running_height r (l1 ++ l2) = running_height (running_height r l1) l2.
Proof.
  revert r. induction l1 as [|a l1 IH]; intros r; simpl; [reflexivity|].
  apply IH.
Qed.

Lemma passes_from_spec {num} {A : Num.Arithmetic num} (y r : num)
    (items : list Resolver.SortedItem) :
  passes_from y r items = true <->
  forall pre item post,
    items = pre ++ item :: post ->
    Num.ltb y (Resolver.itemCenterY (running_height r pre) item) = false.
Proof.
  revert r. induction items as [|a items IH]; intros r; simpl.
  - split; [|reflexivity]. intros _ pre item post E.
    destruct pre; discriminate.
  - rewrite andb_true_iff, negb_true_iff, IH. split.
    + intros [Ha H] pre item post E. destruct pre as [|b pre]; simpl in *.
      * injection E as <- <-. exact Ha.
      * injection E as <- ->. eapply H; reflexivity.
    + intros H. split.
      * apply (H [] a items eq_refl).
      * intros pre item post ->. apply (H (a :: pre) item post eq_refl).
Qed.

Lemma passes_from_zero {num} {A : Num.Arithmetic num} (y : num)
    (items : list Resolver.SortedItem) :
  passes_from y Num.zero items = true <-> passes y items.
Proof. apply passes_from_spec. Qed.

(** Items the scan passes are counted and their heights accumulated. *)
Lemma scan_passed {num} {A : Num.Arithmetic num}
    (pre rest : list Resolver.SortedItem) (y r : num) n :
  passes_from y r pre = true ->
  Resolver.scan (pre ++ rest) y r n
  = Resolver.scan rest y (running_height r pre)
      (n + Z.of_nat (List.length pre)).
Proof.
  revert r n. induction pre as [|a pre IH]; intros r n H.
  - simpl. now rewrite Z.add_0_r.
  - cbn [passes_from] in H. apply andb_true_iff in H as [Ha H].
    apply negb_true_iff in Ha.
    cbn [app Resolver.scan running_height]. rewrite Ha, IH by exact H.
    f_equal. cbn [List.length]. lia.
Qed.

(** When the scan stops among [pre], what follows [pre] plays no role. *)
Lemma scan_stopped {num} {A : Num.Arithmetic num}
    (pre rest : list Resolver.SortedItem) (y r : num) n :
  passes_from y r pre = false ->
  Resolver.scan (pre ++ rest) y r n = Resolver.scan pre y r n /\
  Resolver.scan pre y r n < n + Z.of_nat (List.length pre).
Proof.
  revert r n. induction pre as [|a pre IH]; intros r n H; [discriminate|].
  cbn [passes_from] in H. cbn [app Resolver.scan List.length].
  destruct (Num.ltb y (Resolver.itemCenterY r a)); cbn [negb andb] in H.
  - split; [reflexivity|lia].
  - destruct (IH _ (n + 1) H) as [H1 H2]. split; [exact H1|lia].
Qed.

(** The scan never stops later than at an item whose computed center
    exceeds the offset. *)
Lemma scan_le_center {num} {A : Num.Arithmetic num}
    (pre : list Resolver.SortedItem) item post (y r : num) n :
  Num.ltb y (Resolver.itemCenterY (running_height r pre) item) = true ->
  Resolver.scan (pre ++ item :: post) y r n
    <= n + Z.of_nat (List.length pre).
Proof.
  intros Hlt. destruct (passes_from y r pre) eqn:E.
  - rewrite scan_passed by exact E. cbn [Resolver.scan]. rewrite Hlt. lia.
  - destruct (scan_stopped pre (item :: post) y r n E) as [-> H]. lia.
Qed.

(** The scan does not tell equal running heights apart. *)
Lemma scan_same {num} {A : Num.Arithmetic num} (same : num -> num -> Prop)
    (L : Lawful A same) (items : list Resolver.SortedItem) (y r r' : num) n :
  same r r' -> Resolver.scan items y r n = Resolver.scan items y r' n.
Proof.
  revert r r' n. induction items as [|a items IH]; intros r r' n H;
    cbn [Resolver.scan]; [reflexivity|].
  unfold Resolver.itemCenterY.
  rewrite (ltb_same _ _ L y (Num.add r (Num.half (Resolver.height a)))
             (Num.add r' (Num.half (Resolver.height a))))
    by (apply (add_same _ _ L); [exact H|apply (same_refl _ _ L)]).
  destruct (Num.ltb y _); [reflexivity|].
  apply IH. apply (add_same _ _ L); [exact H|apply (same_refl _ _ L)].
Qed.

(** ** The arithmetic of the code and the exact one are lawful *)

Lemma double_same_refl (x : Double.t) : Double.same x x.
Proof. destruct x; simpl; auto. Qed.

Lemma binary64_lawful : Lawful Num.binary64 Double.same.
Proof.
  constructor.
  - exact double_same_refl.
  - intros x y z Hxy Hyz.
    destruct x, y; simpl in Hxy; try discriminate Hxy;
      destruct z; simpl in Hyz; try discriminate Hyz; simpl; auto;
      congruence.
  - intros x x' y y' Hx Hy. cbn [Num.add Num.binary64].
    destruct x as [sx|sx| |sx mx ex], x' as [sx'|sx'| |sx' mx' ex'];
      simpl in Hx; try discriminate Hx;
      try (inversion Hx; subst; clear Hx);
      destruct y as [sy|sy| |sy my ey], y' as [sy'|sy'| |sy' my' ey'];
      simpl in Hy; try discriminate Hy;
      try (inversion Hy; subst; clear Hy);
      try apply double_same_refl;
      repeat match goal with s : bool |- _ => destruct s end;
      simpl; auto.
  - intros y c c' H. cbn [Num.ltb Num.binary64].
    destruct c, c'; simpl in H; try discriminate H;
      try (injection H as -> -> ->); try (injection H as ->);
      reflexivity.
  - intros x. cbn [Num.add Num.zero Num.binary64].
    destruct x as [s|s| |s m e]; try destruct s; simpl; auto.
  - vm_compute. exact I.
  - intros x y H. cbn [Num.eqb Num.ltb Num.binary64] in *.
    unfold Double.eqb, Double.ltb, SFeqb, SFltb in *.
    destruct (SFcompare x y) as [[]|]; congruence.
Qed.

Lemma exact_lawful : Lawful Num.exact Qeq.
Proof.
  constructor; exact_arith.
  - intros x. reflexivity.
  - intros x y z H1 H2. now rewrite H1.
  - intros x x' y y' Hx Hy. now rewrite Hx, Hy.
  - intros y c c' H.
    destruct (Qlt_le_dec y c), (Qlt_le_dec y c'); try reflexivity;
      exfalso; lra.
  - intros x. lra.
  - rewrite half_eq. lra.
  - intros x y H. apply Qeq_bool_eq in H.
    destruct (Qlt_le_dec x y); [exfalso; lra|reflexivity].
Qed.

(** ** The sorted items of a table without one of its entries *)

Lemma collect_items_without {num} {A : Num.Arithmetic num}
    (ps : TPositions) (hs : Obj.t num) d z :
  Resolver.collect_items (without_key z ps) hs d
  = filter (fun it => negb (String.eqb (Resolver.key it) z))
      (Resolver.collect_items ps hs d).
Proof.
  unfold without_key.
  induction ps as [|[k p] ps IH]; [reflexivity|].
  cbn [filter fst Resolver.collect_items].
  destruct (String.eqb k z) eqn:Ez, (String.eqb k d) eqn:Ed;
    cbn [negb filter Resolver.collect_items Resolver.key];
    rewrite ?Ed, ?Ez; cbn [negb]; rewrite IH; reflexivity.
Qed.

Lemma sortedItems_without {num} {A : Num.Arithmetic num}
    (ps : TPositions) (hs : Obj.t num) d z :
  Resolver.sortedItems (without_key z ps) hs d
  = filter (fun it => negb (String.eqb (Resolver.key it) z))
      (Resolver.sortedItems ps hs d).
Proof.
  unfold Resolver.sortedItems.
  now rewrite filter_sort_by_index, collect_items_without.
Qed.

Lemma collect_items_keys {num} {A : Num.Arithmetic num}
    (ps : TPositions) (hs : Obj.t num) d :
  NoDup (Obj.keys ps) ->
  NoDup (map Resolver.key (Resolver.collect_items ps hs d)).
Proof.
  unfold Obj.keys. induction ps as [|[k p] ps IH]; intros Hnd;
    cbn [Resolver.collect_items map]; [constructor|].
  inversion Hnd as [|? ? Hk Hnd']; subst.
  destruct (String.eqb k d); [now apply IH|].
  cbn [map Resolver.key]. constructor; [|now apply IH].
  intros Hin. apply Hk. rewrite collect_items_spec, map_map in Hin.
  cbn [Resolver.key] in Hin. apply in_map_iff in Hin as [e [<- He]].
  apply filter_In in He as [He _]. now apply in_map.
Qed.

Lemma sortedItems_keys {num} {A : Num.Arithmetic num}
    (ps : TPositions) (hs : Obj.t num) d :
  NoDup (Obj.keys ps) ->
  NoDup (map Resolver.key (Resolver.sortedItems ps hs d)).
Proof.
  intros Hnd. unfold Resolver.sortedItems.
  eapply Permutation_NoDup;
    [symmetry; apply Permutation_map, sort_by_index_perm|].
  now apply collect_items_keys.
Qed.

(** Taking the entry of an item out of the table takes the item out of the
    sorted list and leaves the others where they were. *)
Lemma sortedItems_split_without {num} {A : Num.Arithmetic num}
    (ps : TPositions) (hs : Obj.t num) d pre item post :
  NoDup (Obj.keys ps) ->
  Resolver.sortedItems ps hs d = pre ++ item :: post ->
  Resolver.sortedItems (without_key (Resolver.key item) ps) hs d
  = pre ++ post.
Proof.
  intros Hnd E. pose proof (sortedItems_keys ps hs d Hnd) as Hk.
  rewrite sortedItems_without, E, filter_app. cbn [filter].
  rewrite String.eqb_refl. cbn [negb].
  rewrite E, map_app in Hk. cbn [map] in Hk.
  pose proof (NoDup_remove_2 _ _ _ Hk) as Hnot.
  assert (Hkeep : forall l : list (Resolver.SortedItem (num := num)),
            (forall x, In x l -> Resolver.key x <> Resolver.key item) ->
            filter (fun it => negb (String.eqb (Resolver.key it)
                                      (Resolver.key item))) l = l).
  { intros l Hne. apply forallb_filter_id, forallb_forall.
    intros x Hx. apply negb_true_iff, String.eqb_neq. now apply Hne. }
  rewrite !Hkeep; [reflexivity| |];
    intros x Hx Heq; apply Hnot, in_or_app;
    [right|left]; rewrite <- Heq; now apply in_map.
Qed.

(** ** The height table *)

Lemma get_set_other {V} (o : Obj.t V) k k' v :
  k <> k' -> Obj.get (Obj.set o k v) k' = Obj.get o k'.
Proof.
  intros Hne. induction o as [|[k0 v0] o IH]; simpl.
  - destruct (String.eqb_spec k k'); [contradiction|reflexivity].
  - destruct (String.eqb_spec k0 k) as [->|Hk]; simpl.
    + destruct (String.eqb_spec k k'); [contradiction|reflexivity].
    + now rewrite IH.
Qed.

Lemma onLayout_measured_positive k h hs :
  measured_positive hs -> measured_positive (onLayout k h hs).
Proof.
  intros Hm k' h'. unfold onLayout.
  destruct (Qlt_le_dec 0 h) as [Hpos|_]; [|apply Hm].
  destruct (String.eqb_spec k k') as [<-|Hne].
  - rewrite get_set_same. now intros [= <-].
  - rewrite get_set_other by assumption. apply Hm.
Qed.

Lemma measured_positive_Forall (hs : THeights) :
  Forall (fun e => (0 < snd e)%Q) hs -> measured_positive hs.
Proof.
  intros H k h Hget. apply get_In in Hget.
  rewrite Forall_forall in H. apply (H (k, h) Hget).
Qed.

(** An unmeasured item reads as height 0, and is not caught by the
    [=== 0] test. *)
Lemma unmeasured_reads_zero {num} {A : Num.Arithmetic num}
    (hs : Obj.t num) k :
  Obj.get hs k = None ->
  height_or_zero hs k = Num.zero /\ height_is_zero hs k = false.
Proof.
  intros H. unfold height_or_zero, height_is_zero. now rewrite H.
Qed.

(** With measured heights only, the [=== 0] test never holds. *)
Lemma measured_positive_never_zero hs k :
  measured_positive hs -> height_is_zero hs k = false.
Proof.
  intros Hm. unfold height_is_zero. exact_arith.
  destruct (Obj.get hs k) as [h|] eqn:E; [|reflexivity].
  specialize (Hm k h E).
  destruct (Qeq_bool h 0) eqn:Eb; [|reflexivity].
  apply Qeq_bool_eq in Eb. lra.
Qed.

(** ** The auto-scroll coordinator *)

Lemma maxScroll_nonneg sh : (0 <= AutoScroll.maxScroll sh)%Q.
Proof. unfold AutoScroll.maxScroll. apply Q.le_max_l. Qed.

Lemma newScroll_bounds speed direction sh :
  (0 <= speed)%Q -> in_bounds sh ->
  (0 <= AutoScroll.newScroll speed direction sh <= AutoScroll.maxScroll sh)%Q.
Proof.
  intros Hs [Hlo Hhi]. pose proof (maxScroll_nonneg sh) as Hm.
  unfold AutoScroll.newScroll.
  assert (Hdown :
    (0 <= Qmin (AutoScroll.maxScroll sh) (scrollY sh + speed)
       <= AutoScroll.maxScroll sh)%Q).
  { destruct (Q.min_spec (AutoScroll.maxScroll sh) (scrollY sh + speed))
      as [[? E]|[? E]]; rewrite E; lra. }
  destruct direction; try exact Hdown.
  destruct (Q.max_spec 0 (scrollY sh - speed)) as [[? E]|[? E]];
    rewrite E; lra.
Qed.

Lemma maxScroll_frame sh0 sh :
  scroll_frame sh0 sh -> AutoScroll.maxScroll sh = AutoScroll.maxScroll sh0.
Proof.
  intros [Hc [Hk _]]. unfold AutoScroll.maxScroll. now rewrite Hc, Hk.
Qed.

Lemma interval_callback_frame speed direction sh0 st :
  (0 <= speed)%Q -> scroll_frame sh0 (fst st) ->
  scroll_frame sh0 (fst (AutoScroll.interval_callback speed direction st)).
Proof.
  intros Hs [Hc [Hk Hb]]. destruct st as [sh hk]. simpl in *.
  destruct (Qeq_bool _ _).
  - simpl. repeat split; auto; apply Hb.
  - simpl. repeat split; auto;
      apply (newScroll_bounds speed direction sh Hs Hb).
Qed.

Lemma step_frame speed op sh0 st :
  (0 <= speed)%Q -> scroll_frame sh0 (fst st) ->
  scroll_frame sh0 (fst (AutoScroll.step speed op st)).
Proof.
  intros Hs Hf. destruct op; simpl; auto.
  unfold AutoScroll.fire.
  destruct (AutoScroll.find_interval _ _); auto.
  now apply interval_callback_frame.
Qed.

Lemma run_frame speed ops sh0 st :
  (0 <= speed)%Q -> scroll_frame sh0 (fst st) ->
  scroll_frame sh0 (fst (AutoScroll.run speed ops st)).
Proof.
  intros Hs. revert st. unfold AutoScroll.run.
  induction ops as [|op ops IH]; intros st Hf; simpl; [exact Hf|].
  apply IH. now apply step_frame.
Qed.

Lemma ticks_frame speed n sh0 st :
  (0 <= speed)%Q -> scroll_frame sh0 (fst st) ->
  scroll_frame sh0 (fst (AutoScroll.ticks speed n st)).
Proof.
  intros Hs. revert st. induction n as [|n IH]; intros st Hf; simpl;
    [exact Hf|].
  apply IH. destruct (AutoScroll.scrollIntervalRef (snd st)); auto.
  apply (step_frame speed (AutoScroll.OpFire n0) sh0 st Hs Hf).
Qed.

Lemma find_interval_cleared handle live :
  AutoScroll.find_interval handle (AutoScroll.clearInterval handle live)
  = None.
Proof.
  induction live as [|[h d] live IH]; simpl; [reflexivity|].
  destruct (Nat.eqb_spec h handle); simpl; [exact IH|].
  destruct (Nat.eqb_spec h handle); [contradiction|exact IH].
Qed.

(** A tick that cannot move stops the coordinator. *)
Lemma interval_callback_stops speed direction st :
  (AutoScroll.newScroll speed direction (fst st) == scrollY (fst st))%Q ->
  let st' := AutoScroll.interval_callback speed direction st in
  AutoScroll.scrollIntervalRef (snd st') = None /\
  (forall handle,
      AutoScroll.scrollIntervalRef (snd st) = Some handle ->
      AutoScroll.find_interval handle (AutoScroll.intervals (snd st'))
      = None) /\
  autoScrollDirection (fst st') = stop /\
  scrollY (fst st') = scrollY (fst st).
Proof.
  intros Heq. destruct st as [sh hk]. simpl in *.
  rewrite (Qeq_eq_bool _ _ Heq). simpl. repeat split.
  intros handle ->. apply find_interval_cleared.
Qed.

(** ** The coordinator stops itself *)

Lemma travel_mult speed n :
  (travel speed n == inject_Z (Z.of_nat n) * speed)%Q.
Proof.
  induction n as [|n IH].
  - simpl. ring.
  - cbn [travel]. rewrite IH, Nat2Z.inj_succ. unfold Z.succ.
    rewrite inject_Z_plus. ring.
Qed.

Lemma travel_nonneg speed n : (0 <= speed)%Q -> (0 <= travel speed n)%Q.
Proof. intros Hs. induction n as [|n IH]; simpl; lra. Qed.

Lemma travel_reaches speed d :
  (0 < speed)%Q -> exists n, (d <= travel speed n)%Q.
Proof.
  intros Hs. destruct (Qarchimedean (d / speed)) as [p Hp].
  exists (Pos.to_nat p). rewrite travel_mult, positive_nat_Z.
  apply Qlt_le_weak.
  apply (Qmult_lt_r _ _ speed Hs) in Hp.
  assert (E : (d / speed * speed == d)%Q).
  { rewrite Qmult_comm. apply Qmult_div_r. lra. }
  rewrite E in Hp. exact Hp.
Qed.

Lemma ticks_running speed n sh hk handle direction :
  running hk handle direction ->
  AutoScroll.ticks speed (S n) (sh, hk)
  = AutoScroll.ticks speed n
      (AutoScroll.interval_callback speed direction (sh, hk)).
Proof.
  intros [Href Hlive]. cbn [AutoScroll.ticks snd]. rewrite Href.
  unfold AutoScroll.fire. cbn [snd]. rewrite Hlive. simpl.
  now rewrite Nat.eqb_refl.
Qed.

Lemma interval_callback_stopped speed direction sh hk handle :
  running hk handle direction ->
  Qeq_bool (AutoScroll.newScroll speed direction sh) (scrollY sh) = true ->
  stopped (AutoScroll.interval_callback speed direction (sh, hk)).
Proof.
  intros [Href Hlive] Heq. unfold stopped. simpl. rewrite Heq. simpl.
  rewrite Href, Hlive. simpl. now rewrite Nat.eqb_refl.
Qed.

(** A tick that moves gets closer to the boundary by the speed, or reaches
    it. *)
Lemma newScroll_progress speed direction sh b :
  (0 < speed)%Q -> in_bounds sh ->
  (distance direction sh <= b + speed)%Q -> (0 <= b)%Q ->
  (distance direction
     (AutoScroll.scrollToOffset (AutoScroll.newScroll speed direction sh) sh)
   <= b)%Q.
Proof.
  intros Hs [Hlo Hhi] Hd Hb.
  assert (Hm : AutoScroll.maxScroll
                 (AutoScroll.scrollToOffset
                    (AutoScroll.newScroll speed direction sh) sh)
               = AutoScroll.maxScroll sh) by reflexivity.
  assert (Hdown :
    (AutoScroll.maxScroll sh - scrollY sh <= b + speed ->
     AutoScroll.maxScroll sh
       - Qmin (AutoScroll.maxScroll sh) (scrollY sh + speed) <= b)%Q).
  { intros H.
    destruct (Q.min_spec (AutoScroll.maxScroll sh) (scrollY sh + speed))
      as [[? E]|[? E]]; rewrite E; lra. }
  destruct direction; simpl in *; rewrite ?Hm; try (apply Hdown; exact Hd).
  destruct (Q.max_spec 0 (scrollY sh - speed)) as [[? E]|[? E]];
    rewrite E; lra.
Qed.

(** At the boundary a tick cannot move. *)
Lemma newScroll_at_boundary speed direction sh :
  (0 < speed)%Q -> in_bounds sh -> (distance direction sh <= 0)%Q ->
  Qeq_bool (AutoScroll.newScroll speed direction sh) (scrollY sh) = true.
Proof.
  intros Hs [Hlo Hhi] Hd. apply Qeq_eq_bool.
  assert (Hdown :
    (AutoScroll.maxScroll sh - scrollY sh <= 0 ->
     Qmin (AutoScroll.maxScroll sh) (scrollY sh + speed) == scrollY sh)%Q).
  { intros H.
    destruct (Q.min_spec (AutoScroll.maxScroll sh) (scrollY sh + speed))
      as [[? E]|[? E]]; rewrite E; lra. }
  destruct direction; simpl in *; try (apply Hdown; exact Hd).
  destruct (Q.max_spec 0 (scrollY sh - speed)) as [[? E]|[? E]];
    rewrite E; lra.
Qed.

Lemma ticks_stop_within speed direction handle hk n :
  (0 < speed)%Q -> running hk handle direction ->
  forall sh,
    in_bounds sh -> (distance direction sh <= travel speed n)%Q ->
    exists m, stopped (AutoScroll.ticks speed m (sh, hk)).
Proof.
  intros Hs Hrun. induction n as [|n IH]; intros sh Hb Hd.
  - exists 1%nat. rewrite (ticks_running speed 0 sh hk handle direction Hrun).
    cbn [AutoScroll.ticks]. eapply interval_callback_stopped; eauto.
    now apply newScroll_at_boundary.
  - destruct (Qeq_bool (AutoScroll.newScroll speed direction sh) (scrollY sh))
      eqn:Heq.
    + exists 1%nat.
      rewrite (ticks_running speed 0 sh hk handle direction Hrun).
      cbn [AutoScroll.ticks]. eapply interval_callback_stopped; eauto.
    + destruct (IH (AutoScroll.scrollToOffset
                      (AutoScroll.newScroll speed direction sh) sh))
        as [m Hm].
      * split; apply (newScroll_bounds speed direction sh); auto; lra.
      * apply newScroll_progress; auto.
        apply travel_nonneg. lra.
      * exists (S m).
        rewrite (ticks_running speed m sh hk handle direction Hrun).
        simpl. rewrite Heq. exact Hm.
Qed.

(** Whatever the positive speed, the running timer stops itself after
    finitely many ticks. *)
Lemma ticks_eventually_stop speed direction handle sh hk :
  (0 < speed)%Q -> in_bounds sh -> running hk handle direction ->
  exists m, stopped (AutoScroll.ticks speed m (sh, hk)).
Proof.
  intros Hs Hb Hrun.
  destruct (travel_reaches speed (distance direction sh) Hs) as [n Hn].
  eapply ticks_stop_within; eauto.
Qed.

(** ** The interval timer *)

Lemma clear_current_single hk :
  single_timer hk -> AutoScroll.clear_current hk = [].
Proof.
  unfold AutoScroll.clear_current.
  intros [E|[handle [direction [E R]]]]; rewrite E.
  - now destruct (AutoScroll.scrollIntervalRef hk).
  - rewrite R. simpl. now rewrite Nat.eqb_refl.
Qed.

Lemma startAutoScroll_single direction hk :
  single_timer hk ->
  AutoScroll.intervals (AutoScroll.startAutoScroll direction hk)
    = [(AutoScroll.nextHandle hk, direction)] /\
  AutoScroll.scrollIntervalRef (AutoScroll.startAutoScroll direction hk)
    = Some (AutoScroll.nextHandle hk).
Proof.
  intros H. unfold AutoScroll.startAutoScroll. simpl.
  now rewrite clear_current_single.
Qed.

Lemma stopAutoScroll_single hk :
  single_timer hk ->
  AutoScroll.intervals (AutoScroll.stopAutoScroll hk) = [] /\
  AutoScroll.scrollIntervalRef (AutoScroll.stopAutoScroll hk) = None.
Proof.
  intros H. pose proof (clear_current_single hk H) as Hc.
  unfold AutoScroll.stopAutoScroll, AutoScroll.clear_current in *.
  destruct (AutoScroll.scrollIntervalRef hk) eqn:R; simpl; auto.
Qed.

Lemma unmount_single hk :
  single_timer hk -> AutoScroll.intervals (AutoScroll.unmount hk) = [].
Proof. intros H. simpl. now apply clear_current_single. Qed.

Lemma interval_callback_single speed direction st :
  single_timer (snd st) ->
  single_timer (snd (AutoScroll.interval_callback speed direction st)).
Proof.
  intros H. destruct st as [sh hk]. simpl in *.
  destruct (Qeq_bool _ _); simpl; [|exact H].
  left. simpl. apply (clear_current_single hk H).
Qed.

Lemma step_single speed op st :
  single_timer (snd st) -> single_timer (snd (AutoScroll.step speed op st)).
Proof.
  intros H. destruct op; simpl.
  - right. destruct (startAutoScroll_single direction (snd st) H) as [E R].
    eauto.
  - left. apply (stopAutoScroll_single (snd st) H).
  - unfold AutoScroll.fire.
    destruct (AutoScroll.find_interval _ _); [|exact H].
    now apply interval_callback_single.
  - left. now apply unmount_single.
Qed.

Lemma run_single speed ops st :
  single_timer (snd st) -> single_timer (snd (AutoScroll.run speed ops st)).
Proof.
  revert st. unfold AutoScroll.run.
  induction ops as [|op ops IH]; intros st H; simpl; [exact H|].
  apply IH. now apply step_single.
Qed.

Lemma single_timer_length hk :
  single_timer hk -> (List.length (AutoScroll.intervals hk) <= 1)%nat.
Proof.
  intros [E|[handle [direction [E _]]]]; rewrite E; simpl; lia.
Qed.

(** ** The logical order *)

Lemma nth_error_decompose {A} (l : list A) i x :
  nth_error l i = Some x ->
  l = firstn i l ++ x :: skipn (S i) l /\ List.length (firstn i l) = i.
Proof.
  revert i. induction l as [|a l IH]; intros [|i] H; simpl in *;
    try discriminate.
  - injection H as ->. auto.
  - destruct (IH i H) as [E L]. split; [now rewrite <- E|now rewrite L].
Qed.

Lemma move_item_same {A} (l : list A) i :
  (i < List.length l)%nat -> move_item i i l = l.
Proof.
  intros Hi. unfold move_item.
  destruct (nth_error l i) as [x|] eqn:E; [|reflexivity].
  destruct (nth_error_decompose l i x E) as [Hl Hlen].
  unfold insert_at, remove_at.
  rewrite firstn_app, skipn_app, Hlen, Nat.sub_diag, firstn_O, skipn_O.
  rewrite firstn_firstn, Nat.min_id.
  rewrite (skipn_all2 (firstn i l)) by lia.
  rewrite app_nil_r, app_nil_l. symmetry. exact Hl.
Qed.

Lemma splice_start_in_range len i :
  0 <= i <= len -> DraggableList.splice_start len i = Z.to_nat i.
Proof.
  intros H. unfold DraggableList.splice_start.
  destruct (Z.ltb_spec i 0); [lia|]. f_equal. lia.
Qed.

Lemma length_remove_at {A} (l : list A) i :
  (i < List.length l)%nat ->
  List.length (remove_at i l) = (List.length l - 1)%nat.
Proof.
  intros H. unfold remove_at.
  rewrite length_app, length_firstn, length_skipn. lia.
Qed.

Lemma splice_remove_in_range {T} (order : DraggableList.Order (T := T)) i :
  0 <= i <= Z.of_nat (List.length order) ->
  DraggableList.splice_remove order i
  = (remove_at (Z.to_nat i) order,
     match nth_error order (Z.to_nat i) with
     | Some movedItem => movedItem
     | None => None
     end).
Proof.
  intros H. unfold DraggableList.splice_remove.
  now rewrite splice_start_in_range.
Qed.

Lemma splice_insert_in_range {T} (order : DraggableList.Order (T := T)) i x :
  0 <= i <= Z.of_nat (List.length order) ->
  DraggableList.splice_insert order i x = insert_at (Z.to_nat i) x order.
Proof.
  intros H. unfold DraggableList.splice_insert.
  now rewrite splice_start_in_range.
Qed.

(** [handleDragEnd] is the splice of the specification. *)
Lemma handleDragEnd_move_item {T} (order : DraggableList.Order (T := T))
    (fromIndex toIndex : Z) :
  0 <= fromIndex < Z.of_nat (List.length order) ->
  0 <= toIndex < Z.of_nat (List.length order) ->
  DraggableList.handleDragEnd fromIndex (Some toIndex) order
  = move_item (Z.to_nat fromIndex) (Z.to_nat toIndex) order.
Proof.
  intros Hf Ht. unfold DraggableList.handleDragEnd.
  cbn [DraggableList.same_index DraggableList.to_integer].
  destruct (Z.eqb_spec fromIndex toIndex) as [->|Hne].
  - symmetry. apply move_item_same. lia.
  - rewrite splice_remove_in_range by lia. unfold move_item.
    destruct (nth_error order (Z.to_nat fromIndex)) as [movedItem|] eqn:E.
    + apply splice_insert_in_range.
      rewrite length_remove_at by lia. lia.
    + apply nth_error_None in E. lia.
Qed.

Lemma handleDragEnd_same {T} (order : DraggableList.Order (T := T)) i :
  DraggableList.handleDragEnd i (Some i) order = order.
Proof. unfold DraggableList.handleDragEnd. simpl. now rewrite Z.eqb_refl. Qed.

(** The moved item ends at its destination and the other items keep their
    relative order. *)
Lemma move_item_spec {A} (l : list A) origin destination :
  (origin < List.length l)%nat -> (destination < List.length l)%nat ->
  nth_error (move_item origin destination l) destination
    = nth_error l origin /\
  remove_at destination (move_item origin destination l)
    = remove_at origin l.
Proof.
  intros Ho Hd. unfold move_item.
  destruct (nth_error l origin) as [x|] eqn:E;
    [|apply nth_error_None in E; lia].
  pose proof (length_remove_at l origin Ho) as Hlen.
  set (r := remove_at origin l) in *.
  assert (Hf : List.length (firstn destination r) = destination).
  { rewrite length_firstn. lia. }
  unfold insert_at. split.
  - rewrite nth_error_app2 by lia. rewrite Hf, Nat.sub_diag. reflexivity.
  - unfold remove_at at 1.
    rewrite firstn_app, skipn_app, Hf, Nat.sub_diag, firstn_O.
    rewrite firstn_firstn, Nat.min_id.
    rewrite (skipn_all2 (firstn destination r)) by lia.
    replace (S destination - destination)%nat with 1%nat by lia.
    cbn [skipn]. rewrite app_nil_r, app_nil_l. apply firstn_skipn.
Qed.

(** Calls other than [onDragEnd] leave the logical order alone. *)
Lemma run_calls_order {T} (calls : list RNCall)
    (w : DraggableList.State (T := T) * DraggableItem.State) :
  forallb (fun c => negb (is_drag_end c)) calls = true ->
  DraggableList.currentOrderRef (fst (DraggableList.run_calls calls w))
  = DraggableList.currentOrderRef (fst w).
Proof.
  revert w. unfold DraggableList.run_calls.
  induction calls as [|c calls IH]; intros w H; simpl in *; [reflexivity|].
  apply andb_prop in H as [Hc Hrest]. rewrite IH by assumption.
  destruct w as [st it]. destruct c; simpl in *; try reflexivity.
  discriminate.
Qed.

Lemma run_calls_shared {T} (calls : list RNCall)
    (w : DraggableList.State (T := T) * DraggableItem.State) :
  DraggableList.shared (fst (DraggableList.run_calls calls w))
  = DraggableList.shared (fst w).
Proof.
  revert w. unfold DraggableList.run_calls.
  induction calls as [|c calls IH]; intros w; simpl; [reflexivity|].
  rewrite IH. destruct w as [st it]. destruct c; reflexivity.
Qed.

Lemma run_calls_initialIndex {T} (calls : list RNCall)
    (w : DraggableList.State (T := T) * DraggableItem.State) :
  DraggableItem.initialIndex (snd (DraggableList.run_calls calls w))
  = DraggableItem.initialIndex (snd w).
Proof.
  revert w. unfold DraggableList.run_calls.
  induction calls as [|c calls IH]; intros w; simpl; [reflexivity|].
  rewrite IH. destruct w as [st it]. destruct c; reflexivity.
Qed.

Lemma edge_check_calls visualY top bottom previous :
  forallb (fun c => negb (is_drag_end c))
    (snd (DraggableItem.edge_check visualY top bottom previous)) = true.
Proof.
  unfold DraggableItem.edge_check.
  destruct (Qlt_le_dec visualY top); simpl.
  - destruct (direction_eqb previous up); reflexivity.
  - destruct (Qlt_le_dec bottom visualY); simpl.
    + destruct (direction_eqb previous down); reflexivity.
    + destruct (direction_eqb previous stop); reflexivity.
Qed.

Lemma onStart_calls p sh it :
  forallb (fun c => negb (is_drag_end c))
    (snd (DraggableItem.onStart p sh it)) = true.
Proof.
  unfold DraggableItem.onStart.
  destruct (height_is_zero _ _); simpl; [reflexivity|].
  destruct (DraggableItem.onDragStart p); reflexivity.
Qed.

Lemma onUpdate_calls p translationY sh it :
  forallb (fun c => negb (is_drag_end c))
    (snd (DraggableItem.onUpdate p translationY sh it)) = true.
Proof.
  unfold DraggableItem.onUpdate.
  destruct (draggableItemKey sh) as [d|]; [|reflexivity].
  destruct (negb (truthy d) || height_is_zero (itemHeights sh) d);
    [reflexivity|].
  match goal with
  | |- context [DraggableItem.edge_check ?v ?t ?b ?d] =>
      pose proof (edge_check_calls v t b d) as H;
      destruct (DraggableItem.edge_check v t b d) as [direction calls]
  end.
  exact H.
Qed.

(** ** Gestures against the list *)

Lemma dispatch_shared {T} handler
    (w : DraggableList.State (T := T) * DraggableItem.State) :
  DraggableList.shared (fst (DraggableList.dispatch handler w))
  = fst (fst (handler (DraggableList.shared (fst w)) (snd w))).
Proof.
  destruct w as [st it]. unfold DraggableList.dispatch. simpl.
  destruct (handler (DraggableList.shared st) it) as [[sh' it'] calls].
  now rewrite run_calls_shared.
Qed.

Lemma dispatch_initialIndex {T} handler
    (w : DraggableList.State (T := T) * DraggableItem.State) :
  DraggableItem.initialIndex (snd (DraggableList.dispatch handler w))
  = DraggableItem.initialIndex
      (snd (fst (handler (DraggableList.shared (fst w)) (snd w)))).
Proof.
  destruct w as [st it]. unfold DraggableList.dispatch. simpl.
  destruct (handler (DraggableList.shared st) it) as [[sh' it'] calls].
  now rewrite run_calls_initialIndex.
Qed.

Lemma dispatch_order {T} handler
    (w : DraggableList.State (T := T) * DraggableItem.State) :
  forallb (fun c => negb (is_drag_end c))
    (snd (handler (DraggableList.shared (fst w)) (snd w))) = true ->
  DraggableList.currentOrderRef (fst (DraggableList.dispatch handler w))
  = DraggableList.currentOrderRef (fst w).
Proof.
  destruct w as [st it]. unfold DraggableList.dispatch. simpl.
  destruct (handler (DraggableList.shared st) it) as [[sh' it'] calls].
  simpl. intros H. now rewrite run_calls_order.
Qed.

Lemma gesture_start_order {T} p
    (w : DraggableList.State (T := T) * DraggableItem.State) :
  DraggableList.getCurrentData
    (fst (DraggableList.gesture p DraggableList.GestureStart w))
  = DraggableList.getCurrentData (fst w).
Proof. apply dispatch_order, onStart_calls. Qed.

Lemma gesture_update_order {T} p translationY
    (w : DraggableList.State (T := T) * DraggableItem.State) :
  DraggableList.getCurrentData
    (fst (DraggableList.gesture p
            (DraggableList.GestureUpdate translationY) w))
  = DraggableList.getCurrentData (fst w).
Proof. apply dispatch_order, onUpdate_calls. Qed.

Lemma onStart_key p sh it :
  draggableItemKey (fst (fst (DraggableItem.onStart p sh it)))
  = Some (DraggableItem.itemKey p).
Proof.
  unfold DraggableItem.onStart. now destruct (height_is_zero _ _).
Qed.

Lemma onUpdate_key p translationY sh it :
  draggableItemKey (fst (fst (DraggableItem.onUpdate p translationY sh it)))
  = draggableItemKey sh.
Proof.
  unfold DraggableItem.onUpdate.
  destruct (draggableItemKey sh) as [d|] eqn:E; [|exact E].
  destruct (negb (truthy d) || height_is_zero (itemHeights sh) d);
    [exact E|].
  destruct (DraggableItem.edge_check _ _ _ _) as [direction calls].
  exact E.
Qed.

Lemma onUpdate_initialIndex p translationY sh it :
  DraggableItem.initialIndex
    (snd (fst (DraggableItem.onUpdate p translationY sh it)))
  = DraggableItem.initialIndex it.
Proof.
  unfold DraggableItem.onUpdate.
  destruct (draggableItemKey sh) as [d|]; [|reflexivity].
  destruct (negb (truthy d) || height_is_zero (itemHeights sh) d);
    [reflexivity|].
  now destruct (DraggableItem.edge_check _ _ _ _) as [direction calls].
Qed.

(** While the gesture is only updated the active key and the logical order
    stay as they are. *)
Lemma gesture_updates_frame {T} p tys
    (w : DraggableList.State (T := T) * DraggableItem.State) :
  draggableItemKey
    (DraggableList.shared
       (fst (DraggableList.gestures p
               (map DraggableList.GestureUpdate tys) w)))
    = draggableItemKey (DraggableList.shared (fst w)) /\
  DraggableList.getCurrentData
    (fst (DraggableList.gestures p (map DraggableList.GestureUpdate tys) w))
    = DraggableList.getCurrentData (fst w).
Proof.
  revert w. unfold DraggableList.gestures.
  induction tys as [|ty tys IH]; intros w; cbn [map fold_left]; [auto|].
  destruct (IH (DraggableList.gesture p (DraggableList.GestureUpdate ty) w))
    as [Hk Ho].
  split.
  - rewrite Hk. cbn [DraggableList.gesture]. rewrite dispatch_shared.
    apply onUpdate_key.
  - rewrite Ho. apply gesture_update_order.
Qed.

(** The outcome of [onEnd] while an item is active. *)
Lemma onEnd_active p sh it k :
  draggableItemKey sh = Some k -> truthy k = true ->
  DraggableItem.onEnd p sh it
  = (set_autoScrollDirection stop sh,
     DraggableItem.mkState (DraggableItem.isDragging it)
       (DraggableItem.translateY it) false
       (DraggableItem.targetPosition it) (DraggableItem.initialScrollY it)
       (DraggableItem.initialIndex it) (DraggableItem.initialItemOffset it)
       (DraggableItem.initialLayoutOffset it),
     CallStopAutoScroll
       :: CallSetIsDragging false
       :: (if DraggableItem.onDragEnd p
           then [CallOnDragEnd (DraggableItem.initialIndex it)
                   (Obj.get (positions sh) k)]
           else [])).
Proof.
  intros Hk Ht. unfold DraggableItem.onEnd. now rewrite Hk, Ht.
Qed.

(** [onEnd] when no drag is active: nothing happens. *)
Lemma onEnd_idle p sh it :
  (forall k, draggableItemKey sh = Some k -> truthy k = false) ->
  DraggableItem.onEnd p sh it = (sh, it, []).
Proof.
  intros H. unfold DraggableItem.onEnd.
  destruct (draggableItemKey sh) as [k|]; [|reflexivity].
  now rewrite (H k eq_refl).
Qed.

Lemma gesture_end_order {T} p
    (w : DraggableList.State (T := T) * DraggableItem.State) k :
  draggableItemKey (DraggableList.shared (fst w)) = Some k ->
  truthy k = true ->
  DraggableItem.onDragEnd p = true ->
  DraggableList.getCurrentData
    (fst (DraggableList.gesture p DraggableList.GestureEnd w))
  = DraggableList.handleDragEnd (DraggableItem.initialIndex (snd w))
      (Obj.get (positions (DraggableList.shared (fst w))) k)
      (DraggableList.getCurrentData (fst w)).
Proof.
  intros Hk Ht Hp. destruct w as [st it]. simpl in *.
  unfold DraggableList.dispatch.
  rewrite (onEnd_active p _ it k Hk Ht), Hp. reflexivity.
Qed.

(** ** Re-deriving the position table from the data *)

Lemma set_absent {V} (o : Obj.t V) k v :
  ~ In k (Obj.keys o) -> Obj.set o k v = o ++ [(k, v)].
Proof.
  induction o as [|[k' v'] o IH]; simpl; [reflexivity|].
  intros Hn. destruct (String.eqb_spec k' k) as [->|Hne]; [tauto|].
  f_equal. apply IH. tauto.
Qed.

Lemma build_positions_distinct {T} (item_key : T -> string) data i
    (m : TPositions) :
  NoDup (map item_key data) ->
  (forall x, In x data -> ~ In (item_key x) (Obj.keys m)) ->
  DraggableList.build_positions item_key data i m
  = m ++ combine (map item_key data)
           (map (fun j => i + Z.of_nat j) (seq 0 (List.length data))).
Proof.
  revert i m. induction data as [|x data IH]; intros i m Hnd Hm.
  - simpl. now rewrite app_nil_r.
  - inversion Hnd as [|? ? Hx Hnd']; subst.
    cbn [DraggableList.build_positions].
    rewrite set_absent by (apply Hm; now left).
    rewrite IH; [|assumption|].
    + rewrite <- app_assoc. cbn [List.length seq map combine app].
      rewrite Z.add_0_r. do 3 f_equal.
      rewrite <- seq_shift, map_map. apply map_ext. intros j. lia.
    + intros x' Hin. unfold Obj.keys. rewrite map_app, in_app_iff.
      intros [H|[H|[]]].
      * apply (Hm x' (or_intror Hin) H).
      * simpl in H. apply Hx. rewrite H. now apply in_map.
Qed.

Lemma build_positions_slots {T} (item_key : T -> string) data :
  NoDup (map item_key data) ->
  DraggableList.build_positions item_key data 0 []
  = combine (map item_key data) (slots (List.length data)).
Proof.
  intros Hnd. rewrite build_positions_distinct; auto.
Qed.

Lemma keys_combine {V} (ks : list string) (vs : list V) :
  List.length ks = List.length vs -> Obj.keys (combine ks vs) = ks.
Proof.
  revert vs. induction ks as [|k ks IH]; intros [|v vs] H; simpl in *;
    try discriminate; [reflexivity|].
  f_equal. apply IH. congruence.
Qed.

Lemma values_combine {V} (ks : list string) (vs : list V) :
  List.length ks = List.length vs -> Obj.values (combine ks vs) = vs.
Proof.
  revert vs. induction ks as [|k ks IH]; intros [|v vs] H; simpl in *;
    try discriminate; [reflexivity|].
  f_equal. apply IH. congruence.
Qed.

(** With distinct identities the table derived from the data is a
    permutation table. *)
Lemma build_positions_permutation {T} (item_key : T -> string) data :
  NoDup (map item_key data) ->
  permutation_table (DraggableList.build_positions item_key data 0 []).
Proof.
  intros Hnd. rewrite build_positions_slots by assumption.
  assert (Hlen : List.length (map item_key data)
                 = List.length (slots (List.length data))).
  { now rewrite length_map, length_slots. }
  split.
  - now rewrite keys_combine.
  - rewrite values_combine by assumption.
    rewrite length_combine, length_map, length_slots, Nat.min_id.
    reflexivity.
Qed.

(** ** The [=== 0] guard and unmeasured items *)

(** An item that was never measured has no entry in the height table, so
    the guard [itemHeights.value[key] === 0] of [onStart] and [onUpdate]
    does not hold for it: dragging A unmeasured still runs the swap. *)
Example unmeasured_dragged_item_still_swaps :
  height_or_zero (itemHeights (DraggableList.shared (fst abc_unmeasured)))
    "A" = 0%Q /\
  positions
    (DraggableList.shared
       (fst (DraggableList.gestures abc_props
               [DraggableList.GestureStart; DraggableList.GestureUpdate 130]
               abc_unmeasured)))
  = [("A"%string, 2); ("B"%string, 0); ("C"%string, 1)].
Proof. split; reflexivity. Qed.

(** In a permutation table every slot is held by exactly one identity. *)
Lemma permutation_table_bijection (ps : TPositions) s :
  permutation_table ps -> 0 <= s < Z.of_nat (List.length ps) ->
  exists k, Obj.get ps k = Some s /\
            forall k', Obj.get ps k' = Some s -> k' = k.
Proof.
  intros [Hk Hperm] Hs.
  assert (Hin : In s (Obj.values ps)).
  { eapply Permutation_in; [symmetry; exact Hperm|]. now apply In_slots. }
  unfold Obj.values in Hin. apply in_map_iff in Hin as [[k p] [E Hin]].
  simpl in E. subst p. exists k. split.
  - now apply NoDup_get_In.
  - intros k' Hget. apply get_In in Hget.
    eapply NoDup_values_unique_key; eauto.
    eapply Permutation_NoDup; [symmetry; exact Hperm|apply NoDup_slots].
Qed.

(** ** Ranks and slots *)

(** Under a permutation table the non-dragged items, sorted, hold the slots
    [0 .. N-1] without the dragged item's slot, in increasing order; so the
    rank of an item among them is its slot when it lies above the dragged
    item, and the slot preceding it when it lies below. *)

Lemma sorted_perm_eq (l1 l2 : list Z) :
  StronglySorted Z.le l1 -> StronglySorted Z.le l2 ->
  Permutation l1 l2 -> l1 = l2.
Proof.
  intros H1. revert l2. induction H1 as [|a l1 Hs1 IH Ha]; intros l2 H2 Hp.
  - apply Permutation_nil in Hp. now subst.
  - destruct H2 as [|b l2 Hs2 Hb].
    + apply Permutation_sym, Permutation_nil in Hp. discriminate.
    + assert (Hab : a = b).
      { assert (Hina : In a (b :: l2))
          by (eapply Permutation_in; [exact Hp|now left]).
        assert (Hinb : In b (a :: l1))
          by (eapply Permutation_in; [symmetry; exact Hp|now left]).
        rewrite Forall_forall in Ha, Hb.
        destruct Hina as [E|Hina]; [now subst|].
        destruct Hinb as [E|Hinb]; [now subst|].
        specialize (Ha b Hinb). specialize (Hb a Hina). lia. }
      subst b. f_equal. apply IH; [exact Hs2|].
      eapply Permutation_cons_inv; exact Hp.
Qed.

Lemma slots_from_sorted a n : StronglySorted Z.le (map Z.of_nat (seq a n)).
Proof.
  revert a. induction n as [|n IH]; intros a; simpl; constructor.
  - apply IH.
  - apply Forall_forall. intros x Hx.
    apply in_map_iff in Hx as [i [<- Hi]]. apply in_seq in Hi. lia.
Qed.

Lemma StronglySorted_app (l1 l2 : list Z) :
  StronglySorted Z.le l1 -> StronglySorted Z.le l2 ->
  (forall x y, In x l1 -> In y l2 -> x <= y) ->
  StronglySorted Z.le (l1 ++ l2).
Proof.
  induction 1 as [|a l1 Hs IH Ha]; intros H2 Hle12; simpl; [exact H2|].
  constructor.
  - apply IH; auto. intros x y Hx Hy. apply Hle12; [now right|exact Hy].
  - apply Forall_app. split; [exact Ha|].
    apply Forall_forall. intros y Hy. apply Hle12; [now left|exact Hy].
Qed.

Lemma values_split_dragged {num} {A : Num.Arithmetic num}
    (ps : TPositions) (hs : Obj.t num) d S :
  NoDup (Obj.keys ps) -> Obj.get ps d = Some S ->
  Permutation (Obj.values ps)
    (S :: map Resolver.index (Resolver.collect_items ps hs d)).
Proof.
  induction ps as [|[k p] ps IH]; simpl; [discriminate|].
  intros Hnd Hget. inversion Hnd as [|? ? Hk Hnd']; subst.
  destruct (String.eqb_spec k d) as [->|Hne].
  - injection Hget as ->. constructor.
    rewrite collect_items_spec, map_map. simpl.
    rewrite forallb_filter_id; [reflexivity|].
    apply forallb_forall. intros [k' p'] Hin. simpl.
    destruct (String.eqb_spec k' d) as [->|]; [|reflexivity].
    exfalso. apply Hk. unfold Obj.keys.
    change d with (fst (d, p')). now apply in_map.
  - simpl. rewrite (IH Hnd' Hget). apply perm_swap.
Qed.

Lemma sorted_by_slot_indices {num}
    (items : list (Resolver.SortedItem (num := num))) :
  sorted_by_slot items -> StronglySorted Z.le (map Resolver.index items).
Proof.
  unfold sorted_by_slot. induction 1 as [|a l Hs IH Ha]; simpl; constructor.
  - exact IH.
  - apply Forall_map. exact Ha.
Qed.

Lemma sorted_indices {num} {A : Num.Arithmetic num}
    (ps : TPositions) (hs : Obj.t num) d slot :
  permutation_table ps -> Obj.get ps d = Some slot ->
  map Resolver.index (Resolver.sortedItems ps hs d)
  = map Z.of_nat (seq 0 (Z.to_nat slot))
    ++ map Z.of_nat
         (seq (S (Z.to_nat slot)) (List.length ps - 1 - Z.to_nat slot)).
Proof.
  intros Hpt Hget. pose proof Hpt as [Hk Hperm].
  assert (Hr : 0 <= slot < Z.of_nat (List.length ps)).
  { eapply permutation_table_range; eauto using get_In. }
  set (s := Z.to_nat slot). set (m := (List.length ps - 1 - s)%nat).
  assert (Hn : List.length ps = (s + S m)%nat) by (subst s m; lia).
  apply sorted_perm_eq.
  - apply sorted_by_slot_indices, sort_by_index_sorted.
  - apply StronglySorted_app; try apply slots_from_sorted.
    intros x y Hx Hy.
    apply in_map_iff in Hx as [i [<- Hi]]. apply in_seq in Hi.
    apply in_map_iff in Hy as [j [<- Hj]]. apply in_seq in Hj. lia.
  - apply Permutation_cons_inv with (a := slot).
    unfold Resolver.sortedItems.
    rewrite (Permutation_map Resolver.index
               (sort_by_index_perm (Resolver.collect_items ps hs d))).
    rewrite <- (values_split_dragged ps hs d slot Hk Hget), Hperm.
    unfold slots. rewrite Hn, seq_app, map_app. cbn [seq map Nat.add].
    replace (Z.of_nat s) with slot by (subst s; lia).
    symmetry. apply Permutation_middle.
Qed.

Lemma rank_slot {num} {A : Num.Arithmetic num}
    (ps : TPositions) (hs : Obj.t num) d slot pre item post :
  permutation_table ps -> Obj.get ps d = Some slot ->
  Resolver.sortedItems ps hs d = pre ++ item :: post ->
  Z.of_nat (List.length pre)
  = if Resolver.index item <? slot then Resolver.index item
    else Resolver.index item - 1.
Proof.
  intros Hpt Hget E.
  pose proof (sorted_indices ps hs d slot Hpt Hget) as H.
  assert (Hr : 0 <= slot < Z.of_nat (List.length ps)).
  { eapply permutation_table_range; eauto using get_In. }
  rewrite E, map_app in H. cbn [map] in H.
  set (s := Z.to_nat slot) in *.
  set (m := (List.length ps - 1 - s)%nat) in *.
  set (r := List.length pre).
  assert (Hlen : (r + 1 + List.length post = s + m)%nat).
  { apply (f_equal (@List.length Z)) in H.
    rewrite !length_app, !length_map, !length_seq in H.
    cbn [List.length] in H. rewrite length_map in H. subst r. lia. }
  assert (Hitem : nth r (map Z.of_nat (seq 0 s)
                         ++ map Z.of_nat (seq (S s) m)) 0
                  = Resolver.index item).
  { rewrite <- H. subst r. rewrite <- (length_map Resolver.index pre).
    apply nth_middle. }
  destruct (Nat.lt_ge_cases r s) as [Hlt|Hge].
  - rewrite app_nth1 in Hitem by (rewrite length_map, length_seq; lia).
    change 0 with (Z.of_nat 0) in Hitem.
    rewrite map_nth, seq_nth in Hitem by lia.
    destruct (Z.ltb_spec (Resolver.index item) slot); subst s; lia.
  - rewrite app_nth2 in Hitem by (rewrite length_map, length_seq; lia).
    rewrite length_map, length_seq in Hitem.
    change 0 with (Z.of_nat 0) in Hitem.
    rewrite map_nth, seq_nth in Hitem by lia.
    destruct (Z.ltb_spec (Resolver.index item) slot); subst s; lia.
Qed.

(** ** The engine keeps a permutation table *)

Lemma modify_positions_keys (ps : TPositions) d T :
  In d (Obj.keys ps) ->
  Obj.keys (Resolver.modify_positions ps d T) = Obj.keys ps.
Proof.
  intros Hin. unfold Resolver.modify_positions.
  rewrite <- (set_keys_present ps d T Hin).
  generalize (Obj.set ps d T). intros l. unfold Obj.keys.
  rewrite map_map. apply map_ext. intros [k p]. simpl.
  destruct (String.eqb k d); [reflexivity|].
  now destruct (Obj.get ps d).
Qed.

Lemma swap_step_keys (ps : TPositions) hs d listLength y :
  In d (Obj.keys ps) ->
  Obj.keys (Resolver.swap_step ps hs d listLength y) = Obj.keys ps.
Proof.
  intros Hin. unfold Resolver.swap_step.
  destruct (Resolver.position_differs _ _); [|reflexivity].
  now apply modify_positions_keys.
Qed.

Lemma onStart_positions p sh it :
  positions (fst (fst (DraggableItem.onStart p sh it))) = positions sh.
Proof.
  unfold DraggableItem.onStart. now destruct (height_is_zero _ _).
Qed.

Lemma onEnd_shared p sh it :
  positions (fst (fst (DraggableItem.onEnd p sh it))) = positions sh /\
  draggableItemKey (fst (fst (DraggableItem.onEnd p sh it)))
    = draggableItemKey sh.
Proof.
  unfold DraggableItem.onEnd.
  destruct (draggableItemKey sh) as [d|] eqn:E; [|now split].
  destruct (negb (truthy d)); simpl; now split.
Qed.

Lemma gesture_invariant {T} p g
    (w : DraggableList.State (T := T) * DraggableItem.State) :
  engine_invariant (DraggableList.shared (fst w)) ->
  In (DraggableItem.itemKey p)
    (Obj.keys (positions (DraggableList.shared (fst w)))) ->
  engine_invariant (DraggableList.shared (fst (DraggableList.gesture p g w)))
  /\ Obj.keys (positions
                 (DraggableList.shared (fst (DraggableList.gesture p g w))))
     = Obj.keys (positions (DraggableList.shared (fst w))).
Proof.
  intros [Hpt Hkey] Hin. unfold engine_invariant.
  destruct g; cbn [DraggableList.gesture]; rewrite dispatch_shared.
  - rewrite onStart_positions. repeat split; try apply Hpt.
    intros d. rewrite onStart_key. now intros [= <-].
  - assert (Hkeys :
      Obj.keys (positions (fst (fst (DraggableItem.onUpdate p translationY
                  (DraggableList.shared (fst w)) (snd w)))))
      = Obj.keys (positions (DraggableList.shared (fst w)))).
    { destruct (onUpdate_positions p translationY
                  (DraggableList.shared (fst w)) (snd w))
        as [->|[d [y [Hd ->]]]]; [reflexivity|].
      apply swap_step_keys. now apply Hkey. }
    split; [split|exact Hkeys].
    + now apply onUpdate_permutation.
    + intros d. rewrite onUpdate_key, Hkeys. apply Hkey.
  - destruct (onEnd_shared p (DraggableList.shared (fst w)) (snd w))
      as [-> ->].
    repeat split; try apply Hpt. exact Hkey.
Qed.

Lemma gestures_invariant {T} p gs
    (w : DraggableList.State (T := T) * DraggableItem.State) :
  engine_invariant (DraggableList.shared (fst w)) ->
  In (DraggableItem.itemKey p)
    (Obj.keys (positions (DraggableList.shared (fst w)))) ->
  engine_invariant
    (DraggableList.shared (fst (DraggableList.gestures p gs w))).
Proof.
  revert w. unfold DraggableList.gestures.
  induction gs as [|g gs IH]; intros w Hinv Hin; cbn [fold_left];
    [exact Hinv|].
  destruct (gesture_invariant p g w Hinv Hin) as [Hinv' Hkeys].
  apply IH; [exact Hinv'|]. now rewrite Hkeys.
Qed.

(** X23.  Every table reached by the gestures of an item of a freshly
    mounted list with distinct identities is a permutation table, whatever
    the gesture events are and in whatever order they arrive (updates or an
    end without a start, a drag left unfinished). *)
Lemma mounted_gestures_permutation {T} (item_key : T -> string)
    (data : list T) (item : T) (idx : Z) (gs : list DraggableList.Gesture) :
  NoDup (map item_key data) -> In item data ->
  let st := DraggableList.mount item_key data in
  let p := DraggableList.item_props item_key st item idx in
  permutation_table
    (positions
       (DraggableList.shared
          (fst (DraggableList.gestures p gs
                  (st, DraggableItem.initial p))))).
Proof.
  intros Hnd Hin st p.
  assert (Hpos : positions (DraggableList.shared st)
                 = combine (map item_key data) (slots (List.length data))).
  { apply build_positions_slots. exact Hnd. }
  apply gestures_invariant.
  - split.
    + apply build_positions_permutation. exact Hnd.
    + intros d. discriminate.
  - cbn [fst]. rewrite Hpos, keys_combine.
    + change (DraggableItem.itemKey p) with (item_key item).
      now apply in_map.
    + now rewrite length_map, length_slots.
Qed.

Lemma mounted_gestures_permutation_witness :
  permutation_table
    (positions
       (DraggableList.shared
          (fst (DraggableList.gestures
                  (DraggableList.item_props (fun item : string => item)
                     (DraggableList.mount (fun item : string => item)
                        ["A"%string; "B"%string; "C"%string])
                     "B"%string 1)
                  [DraggableList.GestureUpdate 40%Q;
                   DraggableList.GestureStart;
                   DraggableList.GestureUpdate 70%Q;
                   DraggableList.GestureEnd;
                   DraggableList.GestureUpdate (-90)%Q]
                  (DraggableList.mount (fun item : string => item)
                     ["A"%string; "B"%string; "C"%string],
                   DraggableItem.initial
                     (DraggableList.item_props (fun item : string => item)
                        (DraggableList.mount (fun item : string => item)
                           ["A"%string; "B"%string; "C"%string])
                        "B"%string 1)))))).
Proof.
  apply (mounted_gestures_permutation (fun item : string => item)
           ["A"%string; "B"%string; "C"%string] "B"%string 1
           [DraggableList.GestureUpdate 40%Q;
            DraggableList.GestureStart;
            DraggableList.GestureUpdate 70%Q;
            DraggableList.GestureEnd;
            DraggableList.GestureUpdate (-90)%Q]).
  - repeat constructor; simpl; intuition discriminate.
  - simpl. auto.
Defined.

(** ** Facts used when the claims are instantiated *)

Lemma five_slots_keys : NoDup (Obj.keys five_slots).
Proof.
  repeat constructor; simpl; intuition discriminate.
Qed.

Lemma sixty_measured : measured_positive sixty.
Proof. apply measured_positive_Forall. repeat constructor. Qed.

Lemma clamp_position_id listLength newPos :
  0 <= newPos <= listLength - 1 ->
  Resolver.clamp_position listLength newPos = newPos.
Proof. unfold Resolver.clamp_position. lia. Qed.

Lemma resolve_position_scan (ps : TPositions) hs d y :
  NoDup (Obj.keys ps) -> In d (Obj.keys ps) ->
  Resolver.resolve_position ps hs d (Z.of_nat (List.length ps)) y
  = Resolver.scan (Resolver.sortedItems ps hs d) y 0%Q 0.
Proof.
  intros Hnd Hin. unfold Resolver.resolve_position. exact_arith.
  apply clamp_position_id.
  pose proof (scan_bounds (Resolver.sortedItems ps hs d) y 0%Q 0) as Hb.
  unfold Resolver.sortedItems in *. rewrite length_sort_by_index in Hb.
  pose proof (length_collect_items ps hs d Hnd Hin). lia.
Qed.

(** * The claims *)

(** ** C1 *)

(** C1.  Permutation invariant: a position table that is a bijection onto
    [0, N-1] is again one after any sequence of swap resolutions (the
    dragged item moved from its slot S to a target slot T of the table, the
    items between shifted by one toward S). *)
Theorem permutation_invariant (ps ps' : TPositions) :
  permutation_table ps ->
  clos_refl_trans_1n TPositions resolution ps ps' ->
  permutation_table ps'.
Proof.
  intros Hpt Hsteps. induction Hsteps as [ps|ps mid ps' Hstep _ IH].
  - exact Hpt.
  - apply IH. eapply resolution_permutation; eauto.
Qed.

Lemma permutation_invariant_witness :
  permutation_table
    (Resolver.modify_positions
       (Resolver.modify_positions five_slots "a" 3) "d" 0).
Proof.
  apply (permutation_invariant five_slots).
  - split; [exact five_slots_keys|apply Permutation_refl].
  - eapply Relation_Operators.rt1n_trans.
    + apply (resolution_intro five_slots "a" 0 3); [reflexivity|simpl; lia].
    + eapply Relation_Operators.rt1n_trans;
        [|apply Relation_Operators.rt1n_refl].
      apply (resolution_intro _ "d" 2 0); [reflexivity|simpl; lia].
Defined.

(** ** C2 *)

(** C2.  While an item is active, [onEnd] schedules exactly one
    [onDragEnd (startingSlot, finalSlot)]; after it ran the logical order is
    the previous order with the item of the origin index taken out and
    inserted at the destination index, whereas the start and the updates of
    the gesture leave the logical order as it is.  For [A, B, C] with A
    dragged from slot 0 to slot 2 the call is [onDragEnd (0, 2)] and
    [getCurrentData ()] then returns [B, C, A]. *)
Theorem drag_end_splices_once {T} (p : DraggableItem.Props)
    (w : DraggableList.State (T := T) * DraggableItem.State)
    (k : string) (fromIndex toIndex : Z) :
  draggableItemKey (DraggableList.shared (fst w)) = Some k ->
  truthy k = true ->
  DraggableItem.onDragEnd p = true ->
  DraggableItem.initialIndex (snd w) = fromIndex ->
  Obj.get (positions (DraggableList.shared (fst w))) k = Some toIndex ->
  0 <= fromIndex
    < Z.of_nat (List.length (DraggableList.getCurrentData (fst w))) ->
  0 <= toIndex
    < Z.of_nat (List.length (DraggableList.getCurrentData (fst w))) ->
  snd (DraggableItem.onEnd p (DraggableList.shared (fst w)) (snd w))
    = [CallStopAutoScroll; CallSetIsDragging false;
       CallOnDragEnd fromIndex (Some toIndex)] /\
  DraggableList.getCurrentData
    (fst (DraggableList.gesture p DraggableList.GestureEnd w))
    = move_item (Z.to_nat fromIndex) (Z.to_nat toIndex)
        (DraggableList.getCurrentData (fst w)) /\
  DraggableList.getCurrentData
    (fst (DraggableList.gesture p DraggableList.GestureStart w))
    = DraggableList.getCurrentData (fst w) /\
  (forall translationY,
      DraggableList.getCurrentData
        (fst (DraggableList.gesture p
                (DraggableList.GestureUpdate translationY) w))
      = DraggableList.getCurrentData (fst w)) /\
  (let dragging :=
     DraggableList.gestures abc_props
       [DraggableList.GestureStart; DraggableList.GestureUpdate 130] abc in
   DraggableList.getCurrentData (fst abc)
     = [Some "A"%string; Some "B"%string; Some "C"%string] /\
   positions (DraggableList.shared (fst dragging))
     = [("A"%string, 2); ("B"%string, 0); ("C"%string, 1)] /\
   snd (DraggableItem.onEnd abc_props (DraggableList.shared (fst dragging))
          (snd dragging))
     = [CallStopAutoScroll; CallSetIsDragging false;
        CallOnDragEnd 0 (Some 2)] /\
   DraggableList.getCurrentData
     (fst (DraggableList.gesture abc_props DraggableList.GestureEnd dragging))
     = [Some "B"%string; Some "C"%string; Some "A"%string]).
Proof.
  intros Hk Ht Hp Hfrom Hto Hf Hd.
  split; [|split; [|split; [|split]]].
  - rewrite (onEnd_active p _ (snd w) k Hk Ht), Hp, Hfrom, Hto. reflexivity.
  - rewrite (gesture_end_order p w k Hk Ht Hp), Hfrom, Hto.
    now apply handleDragEnd_move_item.
  - apply gesture_start_order.
  - intros translationY. apply gesture_update_order.
  - vm_compute. repeat split.
Qed.

Lemma drag_end_splices_once_witness :
  DraggableList.getCurrentData
    (fst (DraggableList.gesture abc_props DraggableList.GestureEnd
            (DraggableList.gestures abc_props
               [DraggableList.GestureStart; DraggableList.GestureUpdate 130]
               abc)))
  = move_item 0 2 [Some "A"%string; Some "B"%string; Some "C"%string].
Proof.
  refine (proj1 (proj2
    (drag_end_splices_once abc_props
       (DraggableList.gestures abc_props
          [DraggableList.GestureStart; DraggableList.GestureUpdate 130] abc)
       "A"%string 0 2 _ _ _ _ _ _ _))).
  - reflexivity.
  - reflexivity.
  - reflexivity.
  - reflexivity.
  - reflexivity.
  - vm_compute. split; [discriminate|reflexivity].
  - vm_compute. split; [discriminate|reflexivity].
Defined.

(** ** C3 *)

(** C3, as the code has it.  The scan breaks on [currentAbsoluteY <
    itemCenterY], so an offset exactly equal to the center computed for an
    item the scan reaches counts that item as passed: the resolved slot is
    then beyond the item's rank, whereas for every offset below that center
    it is at most that rank.  The center is the one the scan computes, in
    the arithmetic of the scan, and [listLength] is the size of the
    table. *)
Theorem tie_counts_as_passed {num} {A : Num.Arithmetic num}
    (same : num -> num -> Prop) (ps : TPositions) (hs : Obj.t num)
    (d : string) (pre : list Resolver.SortedItem)
    (item : Resolver.SortedItem) (post : list Resolver.SortedItem)
    (y y' : num) :
  Lawful A same ->
  NoDup (Obj.keys ps) -> In d (Obj.keys ps) ->
  Resolver.sortedItems ps hs d = pre ++ item :: post ->
  passes y pre ->
  Num.eqb y (computed_center pre item) = true ->
  Num.ltb y' (computed_center pre item) = true ->
  Resolver.resolve_position ps hs d (Z.of_nat (List.length ps)) y'
    <= Z.of_nat (List.length pre)
    < Resolver.resolve_position ps hs d (Z.of_nat (List.length ps)) y.
Proof.
  intros L Hnd Hin E Hpre Hy Hy'.
  assert (Hlen : Z.of_nat (List.length pre) + 1
                 + Z.of_nat (List.length post) + 1
                 = Z.of_nat (List.length ps)).
  { pose proof (length_collect_items ps hs d Hnd Hin) as Hc.
    rewrite <- (length_sort_by_index (Resolver.collect_items ps hs d)) in Hc.
    fold (Resolver.sortedItems ps hs d) in Hc.
    rewrite E, length_app in Hc. cbn [List.length] in Hc. lia. }
  unfold Resolver.resolve_position, Resolver.clamp_position. rewrite E.
  split.
  - pose proof (scan_le_center pre item post y' Num.zero 0 Hy') as Hle.
    pose proof (scan_bounds (pre ++ item :: post) y' Num.zero 0). lia.
  - apply passes_from_zero in Hpre.
    rewrite (scan_passed pre (item :: post) y Num.zero 0 Hpre).
    cbn [Resolver.scan].
    apply (eqb_not_ltb _ _ L) in Hy. unfold computed_center in Hy.
    rewrite Hy.
    pose proof (scan_bounds post y
                  (Num.add (running_height Num.zero pre)
                     (Resolver.height item))
                  (0 + Z.of_nat (List.length pre) + 1)).
    lia.
Qed.

Lemma tie_counts_as_passed_witness :
  Resolver.resolve_position five_slots e_unmeasured "a"
    (Z.of_nat (List.length five_slots)) (Double.of_Z 90)
    <= Z.of_nat (List.length [Resolver.mkSortedItem "b" 1
                                (Double.decimal 603 10)])
    < Resolver.resolve_position five_slots e_unmeasured "a"
        (Z.of_nat (List.length five_slots)) tie_offset.
Proof.
  apply (tie_counts_as_passed Double.same five_slots e_unmeasured "a"
           [Resolver.mkSortedItem "b" 1 (Double.decimal 603 10)]
           (Resolver.mkSortedItem "c" 2 (Double.decimal 603 10))
           [Resolver.mkSortedItem "d" 3 (Double.decimal 603 10);
            Resolver.mkSortedItem "e" 4 Double.zero]).
  - exact binary64_lawful.
  - exact five_slots_keys.
  - simpl. tauto.
  - vm_compute. reflexivity.
  - apply passes_from_zero. vm_compute. reflexivity.
  - vm_compute. reflexivity.
  - vm_compute. reflexivity.
Defined.

(** The claim of C3 fails where it is stated: with five items of 60px and
    the item of slot 0 dragged, the center computed for the first other
    item is 30; at offset 30 the resolver answers slot 1, at offset 29
    slot 0. *)
Lemma tie_not_lower_slot :
  Num.eqb (Double.of_Z 30)
    (computed_center [] (Resolver.mkSortedItem "b" 1 (Double.of_Z 60)))
  = true /\
  Resolver.resolve_position five_slots sixty_px "a" 5 (Double.of_Z 30) = 1 /\
  Resolver.resolve_position five_slots sixty_px "a" 5 (Double.of_Z 29) = 0 /\
  Resolver.resolve_position five_slots sixty_px "a" 5 (Double.of_Z 30)
    <> Resolver.resolve_position five_slots sixty_px "a" 5 (Double.of_Z 29).
Proof.
  split; [|split; [|split]]; vm_compute; try reflexivity; discriminate.
Qed.

(** ** C4 *)

(** C4, as the code has it.  When a drag ends with an item active, [onEnd]
    clears the item's own dragging flags ([isDraggingShared], and
    [isDragging] through the scheduled [setIsDragging (false)]), sets the
    auto-scroll direction to stop and has the timer stopped, and schedules
    exactly one [onDragEnd (startingSlot, finalSlot)] whatever the two slots
    are; the shared [draggableItemKey] keeps naming the item. *)
Theorem onEnd_ends_drag {T} (p : DraggableItem.Props)
    (w : DraggableList.State (T := T) * DraggableItem.State) (k : string) :
  draggableItemKey (DraggableList.shared (fst w)) = Some k ->
  truthy k = true ->
  DraggableItem.onDragEnd p = true ->
  single_timer (DraggableList.hook (fst w)) ->
  let w' := DraggableList.gesture p DraggableList.GestureEnd w in
  snd (DraggableItem.onEnd p (DraggableList.shared (fst w)) (snd w))
    = [CallStopAutoScroll; CallSetIsDragging false;
       CallOnDragEnd (DraggableItem.initialIndex (snd w))
         (Obj.get (positions (DraggableList.shared (fst w))) k)] /\
  DraggableItem.isDraggingShared (snd w') = false /\
  DraggableItem.isDragging (snd w') = false /\
  autoScrollDirection (DraggableList.shared (fst w')) = stop /\
  AutoScroll.intervals (DraggableList.hook (fst w')) = [] /\
  AutoScroll.scrollIntervalRef (DraggableList.hook (fst w')) = None /\
  draggableItemKey (DraggableList.shared (fst w')) = Some k.
Proof.
  intros Hk Ht Hp Hs w'. subst w'. destruct w as [st it]. simpl in *.
  unfold DraggableList.dispatch.
  rewrite (onEnd_active p _ it k Hk Ht), Hp.
  destruct (stopAutoScroll_single _ Hs) as [Hi Hr].
  cbn. repeat split; assumption.
Qed.

Lemma onEnd_ends_drag_witness :
  DraggableItem.isDraggingShared
    (snd (DraggableList.gesture abc_props DraggableList.GestureEnd
            (DraggableList.gestures abc_props
               [DraggableList.GestureStart; DraggableList.GestureUpdate 130]
               abc))) = false.
Proof.
  refine (proj1 (proj2
    (onEnd_ends_drag abc_props
       (DraggableList.gestures abc_props
          [DraggableList.GestureStart; DraggableList.GestureUpdate 130] abc)
       "A"%string _ _ _ _))).
  - reflexivity.
  - reflexivity.
  - reflexivity.
  - left. reflexivity.
Defined.

(** The claim of C4 fails where it is stated: after the complete drag of A
    in [A, B, C] (start, one update, end) the shared [draggableItemKey]
    still names A. *)
Lemma active_key_survives_drag_end :
  draggableItemKey
    (DraggableList.shared
       (fst (DraggableList.gestures abc_props
               [DraggableList.GestureStart;
                DraggableList.GestureUpdate 130;
                DraggableList.GestureEnd] abc)))
  = Some "A"%string /\
  draggableItemKey
    (DraggableList.shared
       (fst (DraggableList.gestures abc_props
               [DraggableList.GestureStart;
                DraggableList.GestureUpdate 130;
                DraggableList.GestureEnd] abc)))
  <> None.
Proof. split; [reflexivity|discriminate]. Qed.

(** ** C5 *)

(** C5.  With a non-negative speed and a scroll offset that starts inside
    [0, max (0, contentHeight - containerHeight)], the offset stays inside
    these bounds after any number of ticks (and any interleaving of
    start / stop calls); a tick whose new offset equals the current one
    clears the timer, nulls the ref and sets the direction to stop (no
    timer is left when the ref held the only one), and with a positive
    speed the running timer reaches such a tick after finitely many.  With
    a content of 1000 and a container of 400 the bound is 600; at 8 per
    tick the offset is 600 after 75 ticks and the 76th tick stops the
    timer. *)
Theorem auto_scroll_stays_in_bounds (speed : Q)
    (st : SharedValues * AutoScroll.Hook) :
  (0 <= speed)%Q ->
  in_bounds (fst st) ->
  (forall n,
      (0 <= scrollY (fst (AutoScroll.ticks speed n st))
         <= AutoScroll.maxScroll (fst st))%Q) /\
  (forall ops,
      (0 <= scrollY (fst (AutoScroll.run speed ops st))
         <= AutoScroll.maxScroll (fst st))%Q) /\
  (forall direction,
      (AutoScroll.newScroll speed direction (fst st) == scrollY (fst st))%Q ->
      let st' := AutoScroll.interval_callback speed direction st in
      AutoScroll.scrollIntervalRef (snd st') = None /\
      (forall handle,
          AutoScroll.scrollIntervalRef (snd st) = Some handle ->
          AutoScroll.find_interval handle (AutoScroll.intervals (snd st'))
          = None) /\
      autoScrollDirection (fst st') = stop /\
      scrollY (fst st') = scrollY (fst st) /\
      (single_timer (snd st) -> AutoScroll.intervals (snd st') = [])) /\
  ((0 < speed)%Q ->
   forall handle direction,
     running (snd st) handle direction ->
     exists m, stopped (AutoScroll.ticks speed m st)) /\
  ((AutoScroll.maxScroll (fst scroll_example) == 600)%Q /\
   scrollY (fst (AutoScroll.ticks 8 75 scroll_example)) = 600%Q /\
   AutoScroll.intervals (snd (AutoScroll.ticks 8 75 scroll_example))
     = [(1%nat, down)] /\
   AutoScroll.ticks 8 76 scroll_example
   = (mkShared None (-1) [] [] 400 stop 600 1000,
      AutoScroll.mkHook None [] 2)).
Proof.
  intros Hs Hb.
  assert (Hf : scroll_frame (fst st) (fst st)) by (repeat split; apply Hb).
  split; [|split; [|split; [|split]]].
  - intros n. pose proof (ticks_frame speed n (fst st) st Hs Hf) as H.
    rewrite <- (maxScroll_frame _ _ H). apply H.
  - intros ops. pose proof (run_frame speed ops (fst st) st Hs Hf) as H.
    rewrite <- (maxScroll_frame _ _ H). apply H.
  - intros direction Heq.
    destruct (interval_callback_stops speed direction st Heq)
      as [Href [Hlive [Hdir Hy]]].
    repeat split; try assumption.
    intros Hsingle.
    destruct (interval_callback_single speed direction st Hsingle)
      as [E|[handle [d [_ R]]]]; [exact E|].
    rewrite Href in R. discriminate.
  - intros Hpos handle direction Hrun. destruct st as [sh hk].
    now apply (ticks_eventually_stop speed direction handle sh hk).
  - split; [|split; [|split]]; vm_compute; reflexivity.
Qed.

Lemma auto_scroll_stays_in_bounds_witness :
  (0 <= scrollY (fst (AutoScroll.ticks 8 80 scroll_example))
     <= AutoScroll.maxScroll (fst scroll_example))%Q.
Proof.
  refine (proj1 (auto_scroll_stays_in_bounds 8 scroll_example _ _) 80%nat).
  - vm_compute. discriminate.
  - split; vm_compute; discriminate.
Defined.

(** ** C6 *)

(** C6, as the code has it.  The swap resolver scans the non-dragged items
    sorted by slot ([sortedItems] is sorted, holds exactly the collected
    entries, those of one slot in the order collected), accumulates the
    running height, and resolves to the rank of the first item whose
    computed center exceeds the dragged offset, that is the number of
    non-dragged items before it (to the number of items when no center
    does), clamped to [0, listLength - 1].  Under a permutation table that
    rank is the item's slot when the item lies above the dragged one, and
    the slot preceding it when it lies below.  With five items of 60px and
    the item of slot 0 dragged to offset 190 the target is 3. *)
Theorem swap_resolver_target {num} {A : Num.Arithmetic num}
    (ps : TPositions) (hs : Obj.t num) (d : string) (listLength : Z)
    (y : num) :
  let items := Resolver.sortedItems ps hs d in
  (sorted_by_slot items /\
   Permutation items (Resolver.collect_items ps hs d) /\
   forall slot,
     filter (fun x => Resolver.index x =? slot) items
     = filter (fun x => Resolver.index x =? slot)
         (Resolver.collect_items ps hs d)) /\
  (forall pre item post,
      items = pre ++ item :: post ->
      passes y pre ->
      Num.ltb y (computed_center pre item) = true ->
      Resolver.resolve_position ps hs d listLength y
      = Resolver.clamp_position listLength (Z.of_nat (List.length pre))) /\
  (passes y items ->
   Resolver.resolve_position ps hs d listLength y
   = Resolver.clamp_position listLength (Z.of_nat (List.length items))) /\
  (1 <= listLength ->
   0 <= Resolver.resolve_position ps hs d listLength y <= listLength - 1) /\
  (forall slot pre item post,
      permutation_table ps -> Obj.get ps d = Some slot ->
      items = pre ++ item :: post ->
      Z.of_nat (List.length pre)
      = if Resolver.index item <? slot then Resolver.index item
        else Resolver.index item - 1) /\
  Resolver.resolve_position five_slots sixty_px "a" 5 (Double.of_Z 190) = 3.
Proof.
  intros items. split; [|split; [|split; [|split; [|split]]]].
  - split; [apply sort_by_index_sorted|].
    split; [apply sort_by_index_perm|].
    intros slot. apply sort_by_index_stable.
  - intros pre item post E Hpre Hlt. unfold Resolver.resolve_position.
    fold items. rewrite E. apply passes_from_zero in Hpre.
    rewrite (scan_passed pre (item :: post) y Num.zero 0 Hpre).
    cbn [Resolver.scan]. unfold computed_center in Hlt. rewrite Hlt.
    reflexivity.
  - intros Hall. unfold Resolver.resolve_position. fold items.
    apply passes_from_zero in Hall.
    rewrite <- (app_nil_r items) at 1.
    rewrite (scan_passed items [] y Num.zero 0 Hall). reflexivity.
  - intros Hlen. now apply clamp_position_range.
  - intros slot pre item post Hpt Hget E.
    now apply (rank_slot ps hs d slot pre item post).
  - vm_compute. reflexivity.
Qed.

Lemma swap_resolver_target_witness :
  Resolver.resolve_position five_slots sixty_px "a" 5 (Double.of_Z 190)
  = Resolver.clamp_position 5
      (Z.of_nat
         (List.length
            [Resolver.mkSortedItem "b" 1 (Double.of_Z 60);
             Resolver.mkSortedItem "c" 2 (Double.of_Z 60);
             Resolver.mkSortedItem "d" 3 (Double.of_Z 60)])).
Proof.
  apply (proj1 (proj2 (swap_resolver_target five_slots sixty_px "a" 5
                         (Double.of_Z 190)))
           [Resolver.mkSortedItem "b" 1 (Double.of_Z 60);
            Resolver.mkSortedItem "c" 2 (Double.of_Z 60);
            Resolver.mkSortedItem "d" 3 (Double.of_Z 60)]
           (Resolver.mkSortedItem "e" 4 (Double.of_Z 60)) []).
  - vm_compute. reflexivity.
  - apply passes_from_zero. vm_compute. reflexivity.
  - vm_compute. reflexivity.
Defined.

(** The claim of C6 fails where it is stated, on its own example: with five
    items of 60px and the item of slot 0 dragged to offset 190, the first
    item whose center exceeds the offset is ["e"] (center 210), which holds
    slot 4; slot 4 is inside [0, 4], so the claim's target is 4, and the
    resolver answers 3, the number of items before ["e"]. *)
Lemma target_is_rank_not_slot :
  Resolver.sortedItems five_slots sixty_px "a"
  = [Resolver.mkSortedItem "b" 1 (Double.of_Z 60);
     Resolver.mkSortedItem "c" 2 (Double.of_Z 60);
     Resolver.mkSortedItem "d" 3 (Double.of_Z 60)]
    ++ Resolver.mkSortedItem "e" 4 (Double.of_Z 60) :: [] /\
  passes (Double.of_Z 190)
    [Resolver.mkSortedItem "b" 1 (Double.of_Z 60);
     Resolver.mkSortedItem "c" 2 (Double.of_Z 60);
     Resolver.mkSortedItem "d" 3 (Double.of_Z 60)] /\
  Num.ltb (Double.of_Z 190)
    (computed_center
       [Resolver.mkSortedItem "b" 1 (Double.of_Z 60);
        Resolver.mkSortedItem "c" 2 (Double.of_Z 60);
        Resolver.mkSortedItem "d" 3 (Double.of_Z 60)]
       (Resolver.mkSortedItem "e" 4 (Double.of_Z 60))) = true /\
  Resolver.clamp_position 5
    (Resolver.index (Resolver.mkSortedItem "e" 4 (Double.of_Z 60))) = 4 /\
  Resolver.resolve_position five_slots sixty_px "a" 5 (Double.of_Z 190) = 3.
Proof.
  split; [vm_compute; reflexivity|].
  split; [apply passes_from_zero; vm_compute; reflexivity|].
  split; [vm_compute; reflexivity|].
  split; vm_compute; reflexivity.
Qed.

(** ** C7 *)

(** C7, as the code has it.  An unmeasured item reads as height 0 and
    nothing is raised (all functions involved are total); a non-dragged
    item of height 0 adds nothing to the running height and still counts
    for one slot.  When the scan reaches it, the scan stops at it while the
    offset is below the running height accumulated before it, and from that
    height on the resolved slot is one more than the one resolved on the
    table without the item; when the scan stops before it, the two are
    equal.  The running height is the one the scan computes, and
    [listLength] is the size of each table. *)
Theorem unmeasured_item_counts_one_slot {num} {A : Num.Arithmetic num}
    (same : num -> num -> Prop) (ps : TPositions) (hs : Obj.t num)
    (d k : string) (idx : Z) (pre post : list Resolver.SortedItem)
    (y : num) :
  Lawful A same ->
  NoDup (Obj.keys ps) -> In d (Obj.keys ps) ->
  Obj.get hs k = None ->
  let z := Resolver.mkSortedItem k idx (height_or_zero hs k) in
  Resolver.sortedItems ps hs d = pre ++ z :: post ->
  let N := Z.of_nat (List.length ps) in
  let without :=
    Resolver.resolve_position (without_key k ps) hs d (N - 1) y in
  height_or_zero hs k = Num.zero /\
  same (running_height Num.zero (pre ++ [z])) (running_height Num.zero pre) /\
  (passes y pre ->
   Num.ltb y (running_height Num.zero pre) = true ->
   Resolver.resolve_position ps hs d N y = Z.of_nat (List.length pre)) /\
  (passes y pre ->
   Num.ltb y (running_height Num.zero pre) = false ->
   Resolver.resolve_position ps hs d N y = without + 1) /\
  (~ passes y pre -> Resolver.resolve_position ps hs d N y = without).
Proof.
  intros L Hnd Hin Hget z E N without.
  destruct (unmeasured_reads_zero hs k Hget) as [Hz _].
  set (r := running_height Num.zero pre).
  assert (Hlen : Z.of_nat (List.length pre) + 1
                 + Z.of_nat (List.length post) + 1 = N).
  { pose proof (length_collect_items ps hs d Hnd Hin) as Hc.
    rewrite <- (length_sort_by_index (Resolver.collect_items ps hs d)) in Hc.
    fold (Resolver.sortedItems ps hs d) in Hc.
    rewrite E, length_app in Hc. cbn [List.length] in Hc. subst N. lia. }
  assert (Hwithout : Resolver.sortedItems (without_key k ps) hs d
                     = pre ++ post).
  { apply (sortedItems_split_without ps hs d pre z post Hnd E). }
  assert (Hrz : same (Num.add r (Resolver.height z)) r).
  { subst z. cbn [Resolver.height]. rewrite Hz. apply (add_zero _ _ L). }
  assert (Hcz : Num.ltb y (Resolver.itemCenterY r z) = Num.ltb y r).
  { apply (ltb_same _ _ L). unfold Resolver.itemCenterY.
    subst z. cbn [Resolver.height]. rewrite Hz.
    apply (same_trans _ _ L) with (y := Num.add r Num.zero).
    - apply (add_same _ _ L); [apply (same_refl _ _ L)|].
      apply (half_zero _ _ L).
    - apply (add_zero _ _ L). }
  split; [exact Hz|]. split.
  { rewrite running_height_app. cbn [running_height]. exact Hrz. }
  unfold without, Resolver.resolve_position, Resolver.clamp_position.
  rewrite E, Hwithout.
  split; [|split].
  - intros Hpre Hlt. apply passes_from_zero in Hpre.
    rewrite (scan_passed pre (z :: post) y Num.zero 0 Hpre).
    cbn [Resolver.scan]. fold r. rewrite Hcz, Hlt. lia.
  - intros Hpre Hge. apply passes_from_zero in Hpre.
    rewrite (scan_passed pre (z :: post) y Num.zero 0 Hpre).
    rewrite (scan_passed pre post y Num.zero 0 Hpre).
    cbn [Resolver.scan]. fold r. rewrite Hcz, Hge.
    rewrite (scan_same same L post y (Num.add r (Resolver.height z)) r)
      by exact Hrz.
    rewrite scan_shift.
    pose proof (scan_bounds post y r (0 + Z.of_nat (List.length pre))).
    lia.
  - intros Hnot.
    assert (Hstop : passes_from y Num.zero pre = false).
    { destruct (passes_from y Num.zero pre) eqn:Ep; [|reflexivity].
      exfalso. apply Hnot. now apply passes_from_zero. }
    destruct (scan_stopped pre (z :: post) y Num.zero 0 Hstop) as [-> Hlt].
    destruct (scan_stopped pre post y Num.zero 0 Hstop) as [-> _].
    pose proof (scan_bounds pre y Num.zero 0). lia.
Qed.

Lemma unmeasured_item_counts_one_slot_witness :
  Resolver.resolve_position five_slots e_unmeasured "a"
    (Z.of_nat (List.length five_slots)) running_offset
  = Resolver.resolve_position (without_key "e" five_slots) e_unmeasured "a"
      (Z.of_nat (List.length five_slots) - 1) running_offset
    + 1.
Proof.
  apply (proj1 (proj2 (proj2 (proj2
           (unmeasured_item_counts_one_slot Double.same five_slots
              e_unmeasured "a" "e" 4
              [Resolver.mkSortedItem "b" 1 (Double.decimal 603 10);
               Resolver.mkSortedItem "c" 2 (Double.decimal 603 10);
               Resolver.mkSortedItem "d" 3 (Double.decimal 603 10)]
              [] running_offset binary64_lawful five_slots_keys
              (or_introl eq_refl) eq_refl eq_refl))))).
  - apply passes_from_zero. vm_compute. reflexivity.
  - vm_compute. reflexivity.
Defined.

(** The claim of C7 fails where it is stated: ["z"] is unmeasured (height
    0) and sits in slot 2 under a 60px item.  Dragging the item of slot 0
    from offset 59 to offset 60 moves the resolved slot from 1 to 2, the
    step commits it and ["z"] is displaced to slot 1; without ["z"] in the
    list the same offset resolves to slot 1. *)
Lemma zero_height_item_is_swapped :
  height_or_zero z_unmeasured "z" = Double.zero /\
  Resolver.resolve_position four_slots z_unmeasured "a" 4 (Double.of_Z 59)
  = 1 /\
  Resolver.resolve_position four_slots z_unmeasured "a" 4 (Double.of_Z 60)
  = 2 /\
  Resolver.resolve_position three_slots z_unmeasured "a" 3 (Double.of_Z 60)
  = 1 /\
  Resolver.swap_step four_slots z_unmeasured "a" 4 (Double.of_Z 60)
  = [("a"%string, 2); ("b"%string, 0); ("z"%string, 1); ("c"%string, 3)].
Proof.
  split; [reflexivity|]. repeat split; vm_compute; reflexivity.
Qed.

(** ** C8 *)

(** C8.  A drag whose final slot is its starting slot leaves the logical
    order as it was: after the start, any updates and the end of the
    gesture, [getCurrentData ()] returns the sequence it returned before. *)
Theorem noop_drag_keeps_order {T} (p : DraggableItem.Props) (tys : list Q)
    (w : DraggableList.State (T := T) * DraggableItem.State) :
  Obj.get
    (positions
       (DraggableList.shared
          (fst (DraggableList.gestures p
                  (DraggableList.GestureStart
                     :: map DraggableList.GestureUpdate tys) w))))
    (DraggableItem.itemKey p)
  = Some
      (DraggableItem.initialIndex
         (snd (DraggableList.gestures p
                 (DraggableList.GestureStart
                    :: map DraggableList.GestureUpdate tys) w))) ->
  DraggableList.getCurrentData
    (fst (DraggableList.gestures p
            (DraggableList.GestureStart
               :: map DraggableList.GestureUpdate tys
               ++ [DraggableList.GestureEnd]) w))
  = DraggableList.getCurrentData (fst w).
Proof.
  intros Hsame.
  change (DraggableList.GestureStart
            :: map DraggableList.GestureUpdate tys
            ++ [DraggableList.GestureEnd])
    with ((DraggableList.GestureStart
             :: map DraggableList.GestureUpdate tys)
          ++ [DraggableList.GestureEnd]).
  unfold DraggableList.gestures in *. rewrite fold_left_app.
  set (dragging :=
         fold_left (fun w g => DraggableList.gesture p g w)
           (DraggableList.GestureStart
              :: map DraggableList.GestureUpdate tys) w) in *.
  assert (Hframe :
    draggableItemKey (DraggableList.shared (fst dragging))
      = Some (DraggableItem.itemKey p) /\
    DraggableList.getCurrentData (fst dragging)
      = DraggableList.getCurrentData (fst w)).
  { subst dragging. cbn [fold_left].
    destruct (gesture_updates_frame p tys
                (DraggableList.gesture p DraggableList.GestureStart w))
      as [Hk Ho].
    unfold DraggableList.gestures in Hk, Ho. rewrite Hk, Ho. split.
    - cbn [DraggableList.gesture]. rewrite dispatch_shared.
      apply onStart_key.
    - apply gesture_start_order. }
  destruct Hframe as [Hk Ho]. rewrite <- Ho. cbn [fold_left].
  destruct (truthy (DraggableItem.itemKey p)) eqn:Ht.
  - destruct (DraggableItem.onDragEnd p) eqn:Hp.
    + rewrite (gesture_end_order p dragging _ Hk Ht Hp), Hsame.
      apply handleDragEnd_same.
    + apply dispatch_order.
      rewrite (onEnd_active p _ (snd dragging) _ Hk Ht), Hp. reflexivity.
  - apply dispatch_order. rewrite onEnd_idle; [reflexivity|].
    intros k' E. rewrite Hk in E. now injection E as <-.
Qed.

Lemma noop_drag_keeps_order_witness :
  DraggableList.getCurrentData
    (fst (DraggableList.gestures abc_props
            (DraggableList.GestureStart
               :: map DraggableList.GestureUpdate [10%Q; 20%Q]
               ++ [DraggableList.GestureEnd]) abc))
  = DraggableList.getCurrentData (fst abc).
Proof.
  apply (noop_drag_keeps_order abc_props [10%Q; 20%Q] abc).
  reflexivity.
Defined.

(** ** C9 *)

(** C9.  Supplying the same sequence again re-derives the same state: the
    logical order is the sequence, the position table is the same table
    (with distinct identities, each identity mapped to its index in the
    sequence), and nothing else moves. *)
Theorem rederivation_idempotent {T} (item_key : T -> string)
    (data : list T) (st : DraggableList.State) :
  let once := DraggableList.syncData item_key data st in
  let twice := DraggableList.syncData item_key data once in
  twice = once /\
  DraggableList.getCurrentData twice = DraggableList.getCurrentData once /\
  positions (DraggableList.shared twice)
    = positions (DraggableList.shared once) /\
  DraggableList.getCurrentData once = map Some data /\
  (NoDup (map item_key data) ->
   positions (DraggableList.shared once)
   = combine (map item_key data) (slots (List.length data))).
Proof.
  intros once twice. repeat split.
  intros Hnd. apply build_positions_slots. exact Hnd.
Qed.

Lemma rederivation_idempotent_witness :
  positions
    (DraggableList.shared
       (DraggableList.syncData (fun item : string => item)
          ["A"%string; "B"%string; "C"%string] abc_list))
  = combine ["A"%string; "B"%string; "C"%string] (slots 3).
Proof.
  apply (proj2 (proj2 (proj2 (proj2
           (rederivation_idempotent (fun item : string => item)
              ["A"%string; "B"%string; "C"%string] abc_list))))).
  repeat constructor; simpl; intuition discriminate.
Defined.

(** ** C10 *)

(** C10.  From the hook's initial state, after any sequence of
    [startAutoScroll] / [stopAutoScroll] calls, timer firings and unmount
    cleanups, at most one interval timer is alive and it is the one held by
    the ref; a further [startAutoScroll] leaves exactly the new timer,
    [stopAutoScroll] leaves none and nulls the ref, and the unmount cleanup
    leaves none. *)
Theorem at_most_one_interval_timer (speed : Q) (ops : list AutoScroll.Op)
    (sh : SharedValues) :
  let hk := snd (AutoScroll.run speed ops (sh, AutoScroll.initial)) in
  single_timer hk /\
  (List.length (AutoScroll.intervals hk) <= 1)%nat /\
  (forall direction,
      AutoScroll.intervals (AutoScroll.startAutoScroll direction hk)
        = [(AutoScroll.nextHandle hk, direction)] /\
      AutoScroll.scrollIntervalRef (AutoScroll.startAutoScroll direction hk)
        = Some (AutoScroll.nextHandle hk)) /\
  (AutoScroll.intervals (AutoScroll.stopAutoScroll hk) = [] /\
   AutoScroll.scrollIntervalRef (AutoScroll.stopAutoScroll hk) = None) /\
  AutoScroll.intervals (AutoScroll.unmount hk) = [].
Proof.
  intros hk.
  assert (H : single_timer hk).
  { apply run_single. now left. }
  split; [exact H|]. split; [now apply single_timer_length|].
  split; [intros direction; now apply startAutoScroll_single|].
  split; [now apply stopAutoScroll_single|now apply unmount_single].
Qed.

(** * Further properties of the code *)

(** ** The resolver: monotone, in range, path independent *)

Lemma scan_monotone items y y' r n :
  (y <= y')%Q -> Resolver.scan items y r n <= Resolver.scan items y' r n.
Proof.
  intros Hy. revert r n. induction items as [|item items IH]; intros r n;
    simpl; [lia|].
  destruct (Qlt_le_dec y (Resolver.itemCenterY r item)) as [Hlt|Hge],
           (Qlt_le_dec y' (Resolver.itemCenterY r item)) as [Hlt'|Hge'].
  - lia.
  - pose proof (scan_bounds items y' (r + Resolver.height item)%Q (n + 1)).
    lia.
  - exfalso. lra.
  - apply IH.
Qed.

(** X1.  Swap monotonicity: dragging further down never resolves to an
    earlier slot, whatever the heights and the table. *)
Theorem resolve_position_monotone (ps : TPositions) (hs : THeights)
    (d : string) (listLength : Z) (y y' : Q) :
  (y <= y')%Q ->
  Resolver.resolve_position ps hs d listLength y
    <= Resolver.resolve_position ps hs d listLength y'.
Proof.
  intros Hy. unfold Resolver.resolve_position, Resolver.clamp_position.
  exact_arith.
  pose proof (scan_monotone (Resolver.sortedItems ps hs d) y y' 0%Q 0 Hy).
  lia.
Qed.

Lemma resolve_position_monotone_witness :
  Resolver.resolve_position five_slots sixty "a" 5 100
    <= Resolver.resolve_position five_slots sixty "a" 5 190.
Proof.
  apply (resolve_position_monotone five_slots sixty "a" 5 100 190).
  vm_compute. discriminate.
Defined.

(** X2.  When the dragged key is in the table the resolved slot is a slot of
    the table whatever [listLength] is: a [listLength] of at most 1 pins it
    to slot 0, and one of at least the table's size does not clamp at
    all. *)
Theorem resolved_slot_in_table (ps : TPositions) (hs : THeights)
    (d : string) (listLength : Z) (y : Q) :
  NoDup (Obj.keys ps) -> In d (Obj.keys ps) ->
  0 <= Resolver.resolve_position ps hs d listLength y
    <= Z.of_nat (List.length ps) - 1 /\
  (listLength <= 1 -> Resolver.resolve_position ps hs d listLength y = 0) /\
  (Z.of_nat (List.length ps) <= listLength ->
   Resolver.resolve_position ps hs d listLength y
   = Resolver.scan (Resolver.sortedItems ps hs d) y 0%Q 0).
Proof.
  intros Hnd Hin.
  pose proof (resolve_position_range ps hs d listLength y Hnd Hin) as Hr.
  pose proof (scan_bounds (Resolver.sortedItems ps hs d) y 0%Q 0) as Hb.
  unfold Resolver.sortedItems in Hb. rewrite length_sort_by_index in Hb.
  pose proof (length_collect_items ps hs d Hnd Hin) as Hl.
  unfold Resolver.resolve_position, Resolver.clamp_position,
    Resolver.sortedItems in *. exact_arith.
  repeat split; intros; lia.
Qed.

Lemma resolved_slot_in_table_witness :
  0 <= Resolver.resolve_position five_slots sixty "a" 0 190
    <= Z.of_nat (List.length five_slots) - 1 /\
  (0 <= 1 -> Resolver.resolve_position five_slots sixty "a" 0 190 = 0) /\
  (Z.of_nat (List.length five_slots) <= 0 ->
   Resolver.resolve_position five_slots sixty "a" 0 190
   = Resolver.scan (Resolver.sortedItems five_slots sixty "a") 190 0%Q 0).
Proof.
  apply (resolved_slot_in_table five_slots sixty "a" 0 190).
  - exact five_slots_keys.
  - simpl. tauto.
Defined.

Lemma get_map_values (ps : TPositions) (f : Z -> Z) k :
  Obj.get (map (fun e => (fst e, f (snd e))) ps) k
  = option_map f (Obj.get ps k).
Proof.
  induction ps as [|[k' p] ps IH]; simpl; [reflexivity|].
  destruct (String.eqb k' k); [reflexivity|exact IH].
Qed.

Lemma permutation_table_NoDup_values (ps : TPositions) :
  permutation_table ps -> NoDup (Obj.values ps).
Proof.
  intros [_ Hperm].
  eapply Permutation_NoDup; [symmetry; exact Hperm|apply NoDup_slots].
Qed.

Lemma reassign_compose S T1 T2 p :
  reassign T1 T2 (reassign S T1 p) = reassign S T2 p.
Proof.
  unfold reassign.
  pose proof (shift_neighbour_cases S T1 p).
  pose proof (shift_neighbour_cases S T2 p).
  pose proof (shift_neighbour_cases T1 T2 (Resolver.shift_neighbour S T1 p)).
  pose proof (shift_neighbour_cases T1 T2 T1).
  destruct (Z.eqb_spec p S); [subst; rewrite Z.eqb_refl|].
  - destruct (Z.eqb_spec T1 T1); lia.
  - destruct (Z.eqb_spec (Resolver.shift_neighbour S T1 p) T1); lia.
Qed.

Lemma reassign_same S p : reassign S S p = p.
Proof.
  unfold reassign. pose proof (shift_neighbour_cases S S p).
  destruct (Z.eqb_spec p S); lia.
Qed.

Lemma modify_positions_values (ps : TPositions) d S T :
  NoDup (Obj.keys ps) -> NoDup (Obj.values ps) -> Obj.get ps d = Some S ->
  NoDup (Obj.keys (Resolver.modify_positions ps d T)) /\
  NoDup (Obj.values (Resolver.modify_positions ps d T)) /\
  Obj.get (Resolver.modify_positions ps d T) d = Some T.
Proof.
  intros Hk Hv Hget.
  rewrite (modify_positions_reassign ps d S T Hk Hv Hget).
  repeat split.
  - unfold Obj.keys. rewrite map_map. exact Hk.
  - unfold Obj.values. rewrite map_map.
    change (map (fun x => reassign S T (snd x)) ps)
      with (map (fun x => reassign S T ((fun e : string * Z => snd e) x)) ps).
    rewrite <- (map_map (fun e : string * Z => snd e) (reassign S T)).
    apply Finite.Injective_map_NoDup; [|exact Hv].
    intros p q. apply reassign_injective.
  - rewrite get_map_values, Hget. simpl. unfold reassign.
    now rewrite Z.eqb_refl.
Qed.

Lemma modify_positions_compose (ps : TPositions) d S T1 T2 :
  NoDup (Obj.keys ps) -> NoDup (Obj.values ps) -> Obj.get ps d = Some S ->
  Resolver.modify_positions (Resolver.modify_positions ps d T1) d T2
  = Resolver.modify_positions ps d T2.
Proof.
  intros Hk Hv Hget.
  destruct (modify_positions_values ps d S T1 Hk Hv Hget) as [Hk1 [Hv1 Hg1]].
  rewrite (modify_positions_reassign _ d T1 T2 Hk1 Hv1 Hg1).
  rewrite (modify_positions_reassign ps d S T1 Hk Hv Hget).
  rewrite (modify_positions_reassign ps d S T2 Hk Hv Hget).
  rewrite map_map. apply map_ext. intros [k p]. simpl.
  now rewrite reassign_compose.
Qed.

Lemma modify_positions_same (ps : TPositions) d S :
  NoDup (Obj.keys ps) -> NoDup (Obj.values ps) -> Obj.get ps d = Some S ->
  Resolver.modify_positions ps d S = ps.
Proof.
  intros Hk Hv Hget.
  rewrite (modify_positions_reassign ps d S S Hk Hv Hget).
  rewrite <- (map_id ps) at 2. apply map_ext. intros [k p]. simpl.
  now rewrite reassign_same.
Qed.

(** The table after any number of swap steps for the same dragged item is
    the starting table with that item moved to the slot it holds now. *)
Lemma swap_steps_direct (d : string)
    (steps : list (THeights * Z * Q)) (ps : TPositions) S :
  NoDup (Obj.keys ps) -> NoDup (Obj.values ps) -> Obj.get ps d = Some S ->
  let ps' :=
    fold_left (fun t s => Resolver.swap_step t (fst (fst s)) d
                            (snd (fst s)) (snd s)) steps ps in
  exists T, Obj.get ps' d = Some T /\ ps' = Resolver.modify_positions ps d T.
Proof.
  intros Hk Hv Hget. cbv zeta.
  assert (Hgen : forall steps cur T,
    Obj.get cur d = Some T -> cur = Resolver.modify_positions ps d T ->
    exists T',
      Obj.get (fold_left (fun t s => Resolver.swap_step t (fst (fst s)) d
                            (snd (fst s)) (snd s)) steps cur) d = Some T' /\
      fold_left (fun t s => Resolver.swap_step t (fst (fst s)) d
                   (snd (fst s)) (snd s)) steps cur
      = Resolver.modify_positions ps d T').
  { clear steps. induction steps as [|[[hs L] y] steps IH]; intros cur T Hc E.
    - exists T. now split.
    - cbn [fold_left fst snd]. unfold Resolver.swap_step at 2 4.
      destruct (Resolver.position_differs _ _); [|now apply (IH cur T)].
      set (T' := Resolver.resolve_position cur hs d L y).
      apply (IH _ T').
      + rewrite E.
        apply (modify_positions_values _ d T T');
          apply (modify_positions_values ps d S T Hk Hv Hget).
      + rewrite E. now apply (modify_positions_compose ps d S T T'). }
  apply (Hgen steps ps S Hget).
  symmetry. now apply modify_positions_same.
Qed.

(** X3.  Path independence of a drag: two successive resolutions of the same
    dragged item give the table of the direct resolution to the last target,
    a resolution back to the starting slot restores the table, and after any
    number of swap steps of one drag the table is the starting table with
    the dragged item moved to the slot it holds now. *)
Theorem drag_table_path_independent (ps : TPositions) (d : string)
    (S T1 T2 : Z) (steps : list (THeights * Z * Q)) :
  permutation_table ps -> Obj.get ps d = Some S ->
  Resolver.modify_positions (Resolver.modify_positions ps d T1) d T2
    = Resolver.modify_positions ps d T2 /\
  Resolver.modify_positions (Resolver.modify_positions ps d T1) d S = ps /\
  (let ps' :=
     fold_left (fun t s => Resolver.swap_step t (fst (fst s)) d
                             (snd (fst s)) (snd s)) steps ps in
   exists T,
     Obj.get ps' d = Some T /\ ps' = Resolver.modify_positions ps d T).
Proof.
  intros Hpt Hget. pose proof Hpt as [Hk _].
  pose proof (permutation_table_NoDup_values ps Hpt) as Hv.
  split; [|split].
  - now apply (modify_positions_compose ps d S).
  - rewrite (modify_positions_compose ps d S T1 S Hk Hv Hget).
    now apply modify_positions_same.
  - now apply (swap_steps_direct d steps ps S).
Qed.

Lemma five_slots_permutation : permutation_table five_slots.
Proof. split; [exact five_slots_keys|apply Permutation_refl]. Qed.

Lemma drag_table_path_independent_witness :
  Resolver.modify_positions (Resolver.modify_positions five_slots "a" 3) "a" 0
  = five_slots.
Proof.
  apply (proj1 (proj2 (drag_table_path_independent five_slots "a" 0 3 1 []
                         five_slots_permutation eq_refl))).
Defined.

(** X4.  What one resolution does to the table: the dragged item holds the
    target slot [T]; an item whose slot lies between the dragged item's old
    slot [S] (excluded) and [T] (included) moves by one toward [S]; every
    other item keeps its slot. *)
Theorem resolution_moves_by_one (ps : TPositions) (d k : string)
    (S T p : Z) :
  permutation_table ps -> Obj.get ps d = Some S -> Obj.get ps k = Some p ->
  Obj.get (Resolver.modify_positions ps d T) d = Some T /\
  (k <> d ->
   Obj.get (Resolver.modify_positions ps d T) k
   = Some (if (S <? p) && (p <=? T) then p - 1
           else if (T <=? p) && (p <? S) then p + 1
           else p)).
Proof.
  intros Hpt Hget Hk. pose proof Hpt as [Hkeys _].
  pose proof (permutation_table_NoDup_values ps Hpt) as Hv.
  split.
  - apply (modify_positions_values ps d S T Hkeys Hv Hget).
  - intros Hne.
    rewrite (modify_positions_reassign ps d S T Hkeys Hv Hget).
    rewrite get_map_values, Hk. simpl. f_equal. unfold reassign.
    destruct (Z.eqb_spec p S) as [->|Hp].
    + exfalso. apply Hne.
      eapply NoDup_values_unique_key; eauto using get_In.
    + pose proof (shift_neighbour_cases S T p). z_cases; lia.
Qed.

Lemma resolution_moves_by_one_witness :
  Obj.get (Resolver.modify_positions five_slots "a" 3) "a" = Some 3 /\
  ("c"%string <> "a"%string ->
   Obj.get (Resolver.modify_positions five_slots "a" 3) "c"
   = Some (if (0 <? 2) && (2 <=? 3) then 2 - 1
           else if (3 <=? 2) && (2 <? 0) then 2 + 1
           else 2)).
Proof.
  apply (resolution_moves_by_one five_slots "a" "c" 0 3 2
           five_slots_permutation eq_refl eq_refl).
Defined.

(** ** [handleDragEnd]: what the two splices keep and where they clamp *)

Lemma remove_at_perm {A} (l : list A) i x :
  nth_error l i = Some x -> Permutation (x :: remove_at i l) l.
Proof.
  intros H. destruct (nth_error_decompose l i x H) as [E _].
  rewrite E at 2. unfold remove_at. apply Permutation_middle.
Qed.

Lemma insert_at_perm {A} (l : list A) i x :
  Permutation (insert_at i x l) (x :: l).
Proof.
  unfold insert_at. rewrite <- (firstn_skipn i l) at 3.
  symmetry. apply Permutation_middle.
Qed.

Lemma splice_insert_perm {T} (order : DraggableList.Order (T := T)) t x :
  Permutation (DraggableList.splice_insert order t x) (x :: order).
Proof. unfold DraggableList.splice_insert. apply insert_at_perm. Qed.

(** X5.  With the origin index inside the array [handleDragEnd] only
    rearranges: whatever the destination is (out of range, negative or
    [undefined] included) the result holds the same items, each as often as
    before, and has the same length. *)
Theorem handleDragEnd_keeps_items {T}
    (order : DraggableList.Order (T := T)) (fromIndex : Z)
    (toIndex : option Z) :
  0 <= fromIndex < Z.of_nat (List.length order) ->
  Permutation (DraggableList.handleDragEnd fromIndex toIndex order) order /\
  List.length (DraggableList.handleDragEnd fromIndex toIndex order)
    = List.length order.
Proof.
  intros Hf.
  assert (Hp : Permutation
                 (DraggableList.handleDragEnd fromIndex toIndex order) order).
  { unfold DraggableList.handleDragEnd.
    destruct (DraggableList.same_index fromIndex toIndex); [reflexivity|].
    rewrite splice_remove_in_range by lia.
    destruct (nth_error order (Z.to_nat fromIndex)) as [x|] eqn:E.
    - rewrite splice_insert_perm. now apply remove_at_perm.
    - apply nth_error_None in E. lia. }
  split; [exact Hp|]. now apply Permutation_length.
Qed.

Lemma handleDragEnd_keeps_items_witness :
  Permutation
    (DraggableList.handleDragEnd 0 (Some 7)
       [Some "A"%string; Some "B"%string; Some "C"%string])
    [Some "A"%string; Some "B"%string; Some "C"%string] /\
  List.length
    (DraggableList.handleDragEnd 0 (Some 7)
       [Some "A"%string; Some "B"%string; Some "C"%string])
  = List.length [Some "A"%string; Some "B"%string; Some "C"%string].
Proof.
  apply (handleDragEnd_keeps_items
           [Some "A"%string; Some "B"%string; Some "C"%string] 0 (Some 7)).
  simpl. lia.
Defined.

Lemma remove_at_nth_unique {A} (l1 l2 : list A) i :
  (i < List.length l1)%nat -> (i < List.length l2)%nat ->
  nth_error l1 i = nth_error l2 i ->
  remove_at i l1 = remove_at i l2 ->
  l1 = l2.
Proof.
  intros H1 H2 Hn Hr.
  destruct (nth_error l1 i) as [x|] eqn:E1;
    [|apply nth_error_None in E1; lia].
  symmetry in Hn.
  destruct (nth_error_decompose l1 i x E1) as [D1 L1].
  destruct (nth_error_decompose l2 i x Hn) as [D2 L2].
  unfold remove_at in Hr.
  assert (Hf : firstn i l1 = firstn i l2).
  { apply (f_equal (firstn i)) in Hr.
    rewrite !firstn_app, L1, L2, Nat.sub_diag, !firstn_O, !app_nil_r in Hr.
    now rewrite !firstn_firstn, Nat.min_id in Hr. }
  assert (Hs : skipn (S i) l1 = skipn (S i) l2).
  { rewrite Hf in Hr. now apply app_inv_head in Hr. }
  rewrite D1, D2, Hf, Hs. reflexivity.
Qed.

Lemma length_move_item {A} (l : list A) origin destination :
  List.length (move_item origin destination l) = List.length l.
Proof.
  unfold move_item. destruct (nth_error l origin) as [x|] eqn:E;
    [|reflexivity].
  apply Permutation_length. rewrite insert_at_perm.
  now apply remove_at_perm.
Qed.

Lemma move_item_back {A} (l : list A) a b :
  (a < List.length l)%nat -> (b < List.length l)%nat ->
  move_item b a (move_item a b l) = l.
Proof.
  intros Ha Hb.
  destruct (move_item_spec l a b Ha Hb) as [Hn Hr].
  pose proof (length_move_item l a b) as Hlen.
  destruct (move_item_spec (move_item a b l) b a) as [Hn' Hr']; try lia.
  apply (remove_at_nth_unique _ _ a).
  - rewrite length_move_item. lia.
  - exact Ha.
  - now rewrite Hn', Hn.
  - now rewrite Hr', Hr.
Qed.

(** X6.  Round trip: moving an item from one index to another and then back
    gives the order one started from. *)
Theorem handleDragEnd_back {T} (order : DraggableList.Order (T := T))
    (a b : Z) :
  0 <= a < Z.of_nat (List.length order) ->
  0 <= b < Z.of_nat (List.length order) ->
  DraggableList.handleDragEnd b (Some a)
    (DraggableList.handleDragEnd a (Some b) order)
  = order.
Proof.
  intros Ha Hb.
  rewrite (handleDragEnd_move_item order a b Ha Hb).
  rewrite handleDragEnd_move_item by (rewrite length_move_item; lia).
  apply move_item_back; lia.
Qed.

Lemma handleDragEnd_back_witness :
  DraggableList.handleDragEnd 2 (Some 0)
    (DraggableList.handleDragEnd 0 (Some 2)
       [Some "A"%string; Some "B"%string; Some "C"%string])
  = [Some "A"%string; Some "B"%string; Some "C"%string].
Proof.
  apply (handleDragEnd_back
           [Some "A"%string; Some "B"%string; Some "C"%string] 0 2);
    simpl; lia.
Defined.

(** X7.  An origin index at or beyond the end of the array removes nothing:
    [movedItem] is [undefined] and is inserted all the same, so the order
    grows by one [undefined] entry (placed where the destination, clamped,
    says). *)
Theorem handleDragEnd_origin_out_of_range {T}
    (order : DraggableList.Order (T := T)) (fromIndex : Z)
    (toIndex : option Z) :
  Z.of_nat (List.length order) <= fromIndex ->
  toIndex <> Some fromIndex ->
  DraggableList.handleDragEnd fromIndex toIndex order
    = DraggableList.splice_insert order (DraggableList.to_integer toIndex)
        None /\
  List.length (DraggableList.handleDragEnd fromIndex toIndex order)
    = S (List.length order) /\
  In None (DraggableList.handleDragEnd fromIndex toIndex order).
Proof.
  intros Hf Hne.
  assert (E : DraggableList.handleDragEnd fromIndex toIndex order
              = DraggableList.splice_insert order
                  (DraggableList.to_integer toIndex) None).
  { unfold DraggableList.handleDragEnd.
    assert (Hs : DraggableList.same_index fromIndex toIndex = false).
    { destruct toIndex as [t|]; simpl; [|reflexivity].
      destruct (Z.eqb_spec fromIndex t); [|reflexivity].
      subst. now contradiction Hne. }
    rewrite Hs. unfold DraggableList.splice_remove.
    assert (Hst : DraggableList.splice_start
                    (Z.of_nat (List.length order)) fromIndex
                  = List.length order).
    { unfold DraggableList.splice_start.
      destruct (Z.ltb_spec fromIndex 0); lia. }
    rewrite Hst, firstn_all, skipn_all2 by lia.
    rewrite (proj2 (nth_error_None order (List.length order)))
      by lia.
    now rewrite app_nil_r. }
  rewrite E. repeat split.
  - apply (Permutation_length
             (splice_insert_perm order (DraggableList.to_integer toIndex)
                None)).
  - eapply Permutation_in; [symmetry; apply splice_insert_perm|now left].
Qed.

Lemma handleDragEnd_origin_out_of_range_witness :
  DraggableList.handleDragEnd 3 (Some 1)
    [Some "A"%string; Some "B"%string; Some "C"%string]
  = DraggableList.splice_insert
      [Some "A"%string; Some "B"%string; Some "C"%string]
      (DraggableList.to_integer (Some 1)) None /\
  List.length
    (DraggableList.handleDragEnd 3 (Some 1)
       [Some "A"%string; Some "B"%string; Some "C"%string])
  = 4%nat /\
  In None
    (DraggableList.handleDragEnd 3 (Some 1)
       [Some "A"%string; Some "B"%string; Some "C"%string]).
Proof.
  apply (handleDragEnd_origin_out_of_range
           [Some "A"%string; Some "B"%string; Some "C"%string] 3 (Some 1)).
  - simpl. lia.
  - discriminate.
Defined.

(** X8.  Where the destination is clamped: an [undefined] final position
    puts the moved item first, and a destination at or beyond the last index
    puts it last. *)
Theorem handleDragEnd_destination_clamped {T}
    (order : DraggableList.Order (T := T)) (fromIndex : Z)
    (movedItem : option T) :
  0 <= fromIndex < Z.of_nat (List.length order) ->
  nth_error order (Z.to_nat fromIndex) = Some movedItem ->
  DraggableList.handleDragEnd fromIndex None order
    = movedItem :: remove_at (Z.to_nat fromIndex) order /\
  (forall toIndex,
      Z.of_nat (List.length order) - 1 <= toIndex ->
      DraggableList.handleDragEnd fromIndex (Some toIndex) order
      = remove_at (Z.to_nat fromIndex) order ++ [movedItem]).
Proof.
  intros Hf Hn.
  pose proof (length_remove_at order (Z.to_nat fromIndex)) as Hlen.
  split.
  - unfold DraggableList.handleDragEnd. cbn [DraggableList.same_index].
    rewrite splice_remove_in_range, Hn by lia.
    rewrite splice_insert_in_range by (simpl; lia). reflexivity.
  - intros toIndex Ht. unfold DraggableList.handleDragEnd.
    cbn [DraggableList.same_index DraggableList.to_integer].
    destruct (Z.eqb_spec fromIndex toIndex) as [->|Hne].
    + destruct (nth_error_decompose order (Z.to_nat toIndex) movedItem Hn)
        as [E L].
      rewrite E at 1. unfold remove_at.
      rewrite (skipn_all2 order) by lia. now rewrite app_nil_r.
    + rewrite splice_remove_in_range, Hn by lia.
      unfold DraggableList.splice_insert.
      assert (Hs : DraggableList.splice_start
                     (Z.of_nat
                        (List.length (remove_at (Z.to_nat fromIndex) order)))
                     toIndex
                   = List.length (remove_at (Z.to_nat fromIndex) order)).
      { unfold DraggableList.splice_start.
        destruct (Z.ltb_spec toIndex 0); [lia|]. rewrite Hlen by lia. lia. }
      rewrite Hs, firstn_all, skipn_all2 by lia. reflexivity.
Qed.

Lemma handleDragEnd_destination_clamped_witness :
  DraggableList.handleDragEnd 1 None
    [Some "A"%string; Some "B"%string; Some "C"%string]
  = Some "B"%string
      :: remove_at (Z.to_nat 1)
           [Some "A"%string; Some "B"%string; Some "C"%string].
Proof.
  apply (proj1 (handleDragEnd_destination_clamped
                  [Some "A"%string; Some "B"%string; Some "C"%string] 1
                  (Some "B"%string)
                  ltac:(simpl; lia) eq_refl)).
Defined.

(** ** The auto-scroll tick and the edge zones *)

(** X9.  One tick moves the offset by at most the speed and never the wrong
    way: an up timer only lowers it, a down timer only raises it. *)
Theorem tick_moves_toward (speed : Q) (direction : TAutoScrollDirection)
    (st : SharedValues * AutoScroll.Hook) :
  (0 <= speed)%Q -> in_bounds (fst st) ->
  let before := scrollY (fst st) in
  let after :=
    scrollY (fst (AutoScroll.interval_callback speed direction st)) in
  match direction with
  | up => (before - speed <= after <= before)%Q
  | _ => (before <= after <= before + speed)%Q
  end.
Proof.
  intros Hs [Hlo Hhi]. destruct st as [sh hk]. simpl in *.
  assert (Hdown :
    (scrollY sh <= Qmin (AutoScroll.maxScroll sh) (scrollY sh + speed)
       <= scrollY sh + speed)%Q).
  { destruct (Q.min_spec (AutoScroll.maxScroll sh) (scrollY sh + speed))
      as [[? E]|[? E]]; rewrite E; lra. }
  assert (Hup :
    (scrollY sh - speed <= Qmax 0 (scrollY sh - speed) <= scrollY sh)%Q).
  { destruct (Q.max_spec 0 (scrollY sh - speed)) as [[? E]|[? E]];
      rewrite E; lra. }
  destruct direction; simpl;
    match goal with
    | |- context [Qeq_bool ?a ?b] => destruct (Qeq_bool a b)
    end; simpl; try assumption; lra.
Qed.

Lemma tick_moves_toward_witness :
  (scrollY (fst scroll_example)
     <= scrollY (fst (AutoScroll.interval_callback 8 down scroll_example))
     <= scrollY (fst scroll_example) + 8)%Q.
Proof.
  apply (tick_moves_toward 8 down scroll_example).
  - vm_compute. discriminate.
  - split; vm_compute; discriminate.
Defined.

(** X10.  An offset that lies beyond the scrollable extent (the content
    shrank) is pulled back to [maxScroll] by the first down tick, and a
    negative offset to 0 by the first up tick, in one jump. *)
Theorem tick_snaps_back (speed : Q) (st : SharedValues * AutoScroll.Hook) :
  (0 <= speed)%Q ->
  ((AutoScroll.maxScroll (fst st) < scrollY (fst st))%Q ->
   (scrollY (fst (AutoScroll.interval_callback speed down st))
      == AutoScroll.maxScroll (fst st))%Q) /\
  ((scrollY (fst st) < 0)%Q ->
   (scrollY (fst (AutoScroll.interval_callback speed up st)) == 0)%Q).
Proof.
  intros Hs. destruct st as [sh hk]. simpl. split; intros Hout.
  - destruct (Q.min_spec (AutoScroll.maxScroll sh) (scrollY sh + speed))
      as [[? E]|[? E]]; [|lra].
    destruct (Qeq_bool _ _) eqn:Eb; simpl.
    + apply Qeq_bool_eq in Eb. rewrite E in Eb. lra.
    + exact E.
  - destruct (Q.max_spec 0 (scrollY sh - speed)) as [[? E]|[? E]]; [lra|].
    destruct (Qeq_bool _ _) eqn:Eb; simpl.
    + apply Qeq_bool_eq in Eb. rewrite E in Eb. lra.
    + exact E.
Qed.

Lemma tick_snaps_back_witness :
  (scrollY
     (fst (AutoScroll.interval_callback 8 down
             (mkShared None (-1) [] [] 400 down 700 1000,
              AutoScroll.initial)))
   == AutoScroll.maxScroll (mkShared None (-1) [] [] 400 down 700 1000))%Q.
Proof.
  apply (proj1 (tick_snaps_back 8
                  (mkShared None (-1) [] [] 400 down 700 1000,
                   AutoScroll.initial)
                  ltac:(vm_compute; discriminate))).
  vm_compute. reflexivity.
Defined.

(** X11.  The edge zones of [onUpdate]: the direction is up when the item's
    viewport position is above the top threshold, down when it is at or
    below the top threshold and beyond the bottom one, stop otherwise (so
    where the two zones overlap, up wins); a call is scheduled only when the
    direction differs from the previous one, and it is the start of the new
    direction or the stop. *)
Theorem edge_check_zones (visualY topThreshold bottomThreshold : Q)
    (previousDirection : TAutoScrollDirection) :
  let r :=
    DraggableItem.edge_check visualY topThreshold bottomThreshold
      previousDirection in
  ((visualY < topThreshold)%Q -> fst r = up) /\
  ((topThreshold <= visualY)%Q -> (bottomThreshold < visualY)%Q ->
   fst r = down) /\
  ((topThreshold <= visualY)%Q -> (visualY <= bottomThreshold)%Q ->
   fst r = stop) /\
  snd r
  = (if direction_eqb (fst r) previousDirection then []
     else match fst r with
          | stop => [CallStopAutoScroll]
          | direction => [CallStartAutoScroll direction]
          end).
Proof.
  unfold DraggableItem.edge_check.
  destruct (Qlt_le_dec visualY topThreshold) as [Ht|Ht];
    [|destruct (Qlt_le_dec bottomThreshold visualY) as [Hb|Hb]];
    destruct previousDirection; simpl; repeat split; intros;
    try reflexivity; exfalso; lra.
Qed.

(** ** The timer follows the announced direction *)

Lemma run_calls_hook {T} (calls : list RNCall)
    (w : DraggableList.State (T := T) * DraggableItem.State) :
  DraggableList.hook (fst (DraggableList.run_calls calls w))
  = fold_left hook_after_call calls (DraggableList.hook (fst w)).
Proof.
  revert w. unfold DraggableList.run_calls.
  induction calls as [|c calls IH]; intros w; simpl; [reflexivity|].
  rewrite IH. destruct w as [st it]. destruct c; reflexivity.
Qed.

Lemma dispatch_hook {T} handler
    (w : DraggableList.State (T := T) * DraggableItem.State) :
  DraggableList.hook (fst (DraggableList.dispatch handler w))
  = fold_left hook_after_call
      (snd (handler (DraggableList.shared (fst w)) (snd w)))
      (DraggableList.hook (fst w)).
Proof.
  destruct w as [st it]. unfold DraggableList.dispatch. simpl.
  destruct (handler (DraggableList.shared st) it) as [[sh' it'] calls].
  now rewrite run_calls_hook.
Qed.

Lemma timer_agrees_single sh hk : timer_agrees sh hk -> single_timer hk.
Proof.
  unfold timer_agrees, single_timer.
  destruct (autoScrollDirection sh); intros H;
    [right|right|left; exact H];
    destruct H as [handle [Hi Hr]]; eauto.
Qed.

Lemma timer_agrees_started sh hk direction :
  single_timer hk -> direction <> stop ->
  autoScrollDirection sh = direction ->
  timer_agrees sh (AutoScroll.startAutoScroll direction hk).
Proof.
  intros Hs Hd E. unfold timer_agrees. rewrite E.
  destruct (startAutoScroll_single direction hk Hs) as [Hi Hr].
  destruct direction; [eauto|eauto|contradiction].
Qed.

Lemma timer_agrees_stopped sh hk :
  single_timer hk -> autoScrollDirection sh = stop ->
  timer_agrees sh (AutoScroll.stopAutoScroll hk).
Proof.
  intros Hs E. unfold timer_agrees. rewrite E.
  apply (stopAutoScroll_single hk Hs).
Qed.

Lemma timer_agrees_same sh sh' hk :
  autoScrollDirection sh' = autoScrollDirection sh ->
  timer_agrees sh hk -> timer_agrees sh' hk.
Proof. unfold timer_agrees. now intros ->. Qed.

Lemma onStart_timer p sh it hk :
  timer_agrees sh hk ->
  timer_agrees (fst (fst (DraggableItem.onStart p sh it)))
    (fold_left hook_after_call (snd (DraggableItem.onStart p sh it)) hk).
Proof.
  intros H. unfold DraggableItem.onStart.
  destruct (height_is_zero _ _); simpl; [exact H|].
  destruct (DraggableItem.onDragStart p); exact H.
Qed.

Lemma onUpdate_timer p translationY sh it hk :
  timer_agrees sh hk ->
  timer_agrees (fst (fst (DraggableItem.onUpdate p translationY sh it)))
    (fold_left hook_after_call
       (snd (DraggableItem.onUpdate p translationY sh it)) hk).
Proof.
  intros H. pose proof (timer_agrees_single sh hk H) as Hs.
  unfold DraggableItem.onUpdate.
  destruct (draggableItemKey sh) as [d|]; [|exact H].
  destruct (negb (truthy d) || height_is_zero (itemHeights sh) d);
    [exact H|].
  unfold DraggableItem.edge_check.
  destruct (Qlt_le_dec _ _);
    [|destruct (Qlt_le_dec _ _)];
    destruct (autoScrollDirection sh) eqn:E; simpl;
    try (apply timer_agrees_started; [exact Hs|discriminate|reflexivity]);
    try (apply timer_agrees_stopped; [exact Hs|reflexivity]);
    (eapply timer_agrees_same; [|exact H]; simpl; now rewrite E).
Qed.

Lemma onEnd_timer p sh it hk :
  timer_agrees sh hk ->
  timer_agrees (fst (fst (DraggableItem.onEnd p sh it)))
    (fold_left hook_after_call (snd (DraggableItem.onEnd p sh it)) hk).
Proof.
  intros H. pose proof (timer_agrees_single sh hk H) as Hs.
  unfold DraggableItem.onEnd.
  destruct (draggableItemKey sh) as [d|]; [|exact H].
  destruct (negb (truthy d)); [exact H|].
  destruct (DraggableItem.onDragEnd p); simpl;
    apply timer_agrees_stopped; auto.
Qed.

Lemma fire_timer speed handle sh hk :
  timer_agrees sh hk ->
  timer_agrees (fst (AutoScroll.fire speed handle (sh, hk)))
    (snd (AutoScroll.fire speed handle (sh, hk))).
Proof.
  intros H. pose proof (timer_agrees_single sh hk H) as Hs.
  unfold AutoScroll.fire. cbn [snd].
  destruct (AutoScroll.find_interval handle (AutoScroll.intervals hk));
    [|exact H].
  simpl. destruct (Qeq_bool _ _); simpl.
  - unfold timer_agrees. simpl. apply (clear_current_single hk Hs).
  - exact H.
Qed.

(** X12.  With the scheduled calls run right after each handler, the timer
    follows the announced direction through any interleaving of gesture
    events and timer firings: while [autoScrollDirection] is [stop] no
    interval timer is alive, and while it is up or down exactly one is, held
    by the ref and scrolling that way. *)
Theorem timer_follows_direction {T} (speed : Q) (p : DraggableItem.Props)
    (es : list (Engine.Event))
    (w : DraggableList.State (T := T) * DraggableItem.State) :
  timer_agrees (DraggableList.shared (fst w)) (DraggableList.hook (fst w)) ->
  timer_agrees
    (DraggableList.shared (fst (Engine.run speed p es w)))
    (DraggableList.hook (fst (Engine.run speed p es w))).
Proof.
  revert w. unfold Engine.run.
  induction es as [|e es IH]; intros w H; cbn [fold_left]; [exact H|].
  apply IH. destruct e as [g|handle]; cbn [Engine.step].
  - destruct g; cbn [DraggableList.gesture];
      rewrite dispatch_shared, dispatch_hook.
    + now apply onStart_timer.
    + now apply onUpdate_timer.
    + now apply onEnd_timer.
  - unfold Engine.fire. cbn [fst DraggableList.shared DraggableList.hook].
    now apply fire_timer.
Qed.

Lemma timer_follows_direction_witness :
  timer_agrees
    (DraggableList.shared
       (fst (Engine.run 8 abc_props
               [Engine.EvGesture DraggableList.GestureStart;
                Engine.EvGesture (DraggableList.GestureUpdate 500);
                Engine.EvFire 1;
                Engine.EvGesture (DraggableList.GestureUpdate 130)] abc)))
    (DraggableList.hook
       (fst (Engine.run 8 abc_props
               [Engine.EvGesture DraggableList.GestureStart;
                Engine.EvGesture (DraggableList.GestureUpdate 500);
                Engine.EvFire 1;
                Engine.EvGesture (DraggableList.GestureUpdate 130)] abc))).
Proof.
  apply (timer_follows_direction 8 abc_props).
  reflexivity.
Defined.

(** ** The height table *)

Lemma layout_reports_positive reports hs :
  measured_positive hs -> measured_positive (layout_reports reports hs).
Proof.
  revert hs. unfold layout_reports.
  induction reports as [|[k h] reports IH]; intros hs H; simpl; [exact H|].
  apply IH. now apply onLayout_measured_positive.
Qed.

(** X13.  Whatever the views report, the height table only ever holds
    positive heights; so the test [itemHeights.value[key] === 0] of
    [onStart] and [onUpdate] never holds, and [onStart] never takes its
    early return: it always marks the item as dragging and schedules
    [setIsDragging (true)]. *)
Theorem height_guard_never_fires (reports : list (string * Q))
    (p : DraggableItem.Props) (sh : SharedValues) (it : DraggableItem.State) :
  let hs := layout_reports reports [] in
  let sh' := set_itemHeights hs sh in
  measured_positive hs /\
  (forall k, height_is_zero hs k = false /\ (0 <= height_or_zero hs k)%Q) /\
  DraggableItem.isDraggingShared
    (snd (fst (DraggableItem.onStart p sh' it))) = true /\
  snd (DraggableItem.onStart p sh' it)
  = CallSetIsDragging true
      :: (if DraggableItem.onDragStart p
          then [CallOnDragStart (DraggableItem.index p)] else []).
Proof.
  intros hs sh'.
  assert (Hm : measured_positive hs).
  { apply layout_reports_positive. intros k h. discriminate. }
  assert (Hz : forall k, height_is_zero hs k = false)
    by (intros k; now apply measured_positive_never_zero).
  split; [exact Hm|]. split.
  - intros k. split; [apply Hz|]. unfold height_or_zero. exact_arith.
    destruct (Obj.get hs k) as [h|] eqn:E; [|lra].
    apply Qlt_le_weak. now apply (Hm k).
  - unfold DraggableItem.onStart. subst sh'. cbn [itemHeights set_itemHeights].
    rewrite Hz. split; reflexivity.
Qed.

(** X14.  A layout report round trip: a positive height is what the table
    reads for that item afterwards, the other items read as before, a report
    of 0 or less changes nothing, and a report repeated is a no-op. *)
Theorem onLayout_read_back (hs : THeights) (k : string) (h : Q) :
  ((0 < h)%Q ->
   height_or_zero (onLayout k h hs) k = h /\
   (forall k', k' <> k ->
      Obj.get (onLayout k h hs) k' = Obj.get hs k') /\
   onLayout k h (onLayout k h hs) = onLayout k h hs) /\
  ((h <= 0)%Q -> onLayout k h hs = hs).
Proof.
  unfold onLayout. destruct (Qlt_le_dec 0 h) as [Hpos|Hle]; split.
  - intros _. unfold height_or_zero. exact_arith. rewrite get_set_same.
    split; [reflexivity|]. split.
    + intros k' Hne. apply get_set_other. congruence.
    + clear. induction hs as [|[k0 v0] hs IH]; simpl.
      * now rewrite String.eqb_refl.
      * destruct (String.eqb_spec k0 k) as [->|Hne]; simpl.
        -- now rewrite String.eqb_refl.
        -- destruct (String.eqb_spec k0 k); [contradiction|].
           now rewrite IH.
  - intros Hle. exfalso. lra.
  - intros Hpos. exfalso. lra.
  - reflexivity.
Qed.

(** ** The position table derived from data with repeated identities *)

Lemma last_index_spec k keys j :
  last_index k keys = Some j ->
  nth_error keys j = Some k /\
  forall j', (j < j')%nat -> nth_error keys j' <> Some k.
Proof.
  revert j. induction keys as [|k' keys IH]; intros j; simpl; [discriminate|].
  destruct (last_index k keys) as [i|] eqn:E.
  - intros [= <-]. destruct (IH i eq_refl) as [Hn Hlast]. split; [exact Hn|].
    intros [|j'] Hj; [lia|]. simpl. apply Hlast. lia.
  - destruct (String.eqb_spec k' k) as [->|Hne]; [|discriminate].
    intros [= <-]. split; [reflexivity|].
    intros [|j'] Hj; [lia|]. simpl. intros Hn.
    assert (Hnone : forall l, last_index k l = None -> ~ In k l).
    { clear. induction l as [|a l IHl]; simpl; [tauto|].
      destruct (last_index k l); [discriminate|].
      destruct (String.eqb_spec a k); [discriminate|].
      intros _ [H|H]; [congruence|]. now apply IHl. }
    apply (Hnone keys E). eapply nth_error_In; eauto.
Qed.

Lemma last_index_none k keys : last_index k keys = None <-> ~ In k keys.
Proof.
  induction keys as [|a l IH]; simpl; [tauto|].
  destruct (last_index k l) as [i|].
  - split; [discriminate|]. intros H. exfalso.
    assert (Hn : ~ In k l) by tauto.
    apply IH in Hn. discriminate.
  - destruct (String.eqb_spec a k) as [->|Hne].
    + split; [discriminate|]. intros H. exfalso. apply H. now left.
    + split; [|reflexivity]. intros _ [H|H]; [congruence|].
      now apply (proj1 IH).
Qed.

Lemma set_keys_NoDup {V} (o : Obj.t V) k v :
  NoDup (Obj.keys o) -> NoDup (Obj.keys (Obj.set o k v)).
Proof.
  intros H. destruct (in_dec string_dec k (Obj.keys o)) as [Hin|Hn].
  - now rewrite set_keys_present.
  - rewrite set_absent by assumption. unfold Obj.keys in *.
    rewrite map_app. simpl. apply NoDup_app; auto.
    + repeat constructor. simpl. tauto.
    + intros x Hx [<-|[]]. contradiction.
Qed.

Lemma build_positions_get {T} (item_key : T -> string) data i
    (m : TPositions) k :
  Obj.get (DraggableList.build_positions item_key data i m) k
  = match last_index k (map item_key data) with
    | Some j => Some (i + Z.of_nat j)
    | None => Obj.get m k
    end.
Proof.
  revert i m. induction data as [|x data IH]; intros i m; simpl;
    [reflexivity|].
  rewrite IH. destruct (last_index k (map item_key data)) as [j|].
  - f_equal. lia.
  - destruct (String.eqb_spec (item_key x) k) as [->|Hne].
    + rewrite get_set_same. f_equal. lia.
    + now rewrite get_set_other.
Qed.

Lemma build_positions_NoDup {T} (item_key : T -> string) data i
    (m : TPositions) :
  NoDup (Obj.keys m) ->
  NoDup (Obj.keys (DraggableList.build_positions item_key data i m)).
Proof.
  revert i m. induction data as [|x data IH]; intros i m H; simpl;
    [exact H|].
  apply IH. now apply set_keys_NoDup.
Qed.

(** X15.  With repeated identities in the data the derived table keeps one
    entry per identity, holding the index of its last occurrence; an
    identity that is not in the data has no entry. *)
Theorem build_positions_last_wins {T} (item_key : T -> string)
    (data : list T) (k : string) :
  let table := DraggableList.build_positions item_key data 0 [] in
  let keys := map item_key data in
  NoDup (Obj.keys table) /\
  Obj.get table k = option_map Z.of_nat (last_index k keys) /\
  (forall j,
      Obj.get table k = Some (Z.of_nat j) ->
      nth_error keys j = Some k /\
      forall j', (j < j')%nat -> nth_error keys j' <> Some k) /\
  (Obj.get table k = None <-> ~ In k keys).
Proof.
  intros table keys.
  assert (Hget : Obj.get table k = option_map Z.of_nat (last_index k keys)).
  { subst table keys. rewrite build_positions_get.
    now destruct (last_index k (map item_key data)). }
  split; [apply build_positions_NoDup; constructor|].
  split; [exact Hget|]. split.
  - intros j Hj. rewrite Hget in Hj.
    destruct (last_index k keys) as [j0|] eqn:E; [|discriminate].
    simpl in Hj. injection Hj as Hj. apply Nat2Z.inj in Hj. subst j0.
    now apply last_index_spec.
  - rewrite Hget, <- last_index_none.
    destruct (last_index k keys); simpl; split; congruence.
Qed.

(** ** Scroll compensation *)




(** ** A drag that has not moved *)

Lemma sum_heights_perm l l' :
  Permutation l l' -> (sum_heights l == sum_heights l')%Q.
Proof.
  induction 1 as [|x l l' _ IH|x y l|l l' l'' _ IH1 _ IH2]; simpl; lra.
Qed.

Lemma filter_perm {A} (f : A -> bool) l l' :
  Permutation l l' -> Permutation (filter f l) (filter f l').
Proof.
  induction 1 as [|x l l' _ IH|x y l|l l' l'' _ IH1 _ IH2]; simpl.
  - constructor.
  - destruct (f x); [now constructor|exact IH].
  - destruct (f x), (f y); try reflexivity. apply perm_swap.
  - now transitivity (filter f l').
Qed.

Lemma filter_none {A} (f : A -> bool) l :
  (forall x, In x l -> f x = false) -> filter f l = [].
Proof.
  induction l as [|a l IH]; intros H; simpl; [reflexivity|].
  rewrite (H a (or_introl eq_refl)). apply IH. intros x Hx. apply H.
  now right.
Qed.

Lemma filter_prefix {A} (f : A -> bool) l n :
  (forall x, In x (firstn n l) -> f x = true) ->
  (forall x, In x (skipn n l) -> f x = false) ->
  filter f l = firstn n l.
Proof.
  intros H1 H2. rewrite <- (firstn_skipn n l) at 1.
  rewrite filter_app, (filter_none f (skipn n l) H2), app_nil_r.
  apply forallb_filter_id. now apply forallb_forall.
Qed.

(** The offset [onStart] records is the height of the items above the
    dragged one. *)
Lemma offset_below_collect (ps l : TPositions) hs d bound acc :
  (forall k p, In (k, p) l -> Obj.get ps k = Some p) ->
  (forall p, In (d, p) l -> ~ p < bound) ->
  (Resolver.offset_below (Obj.keys l) ps hs bound acc
   == acc + sum_heights
              (filter (fun item => Resolver.index item <? bound)
                 (Resolver.collect_items l hs d)))%Q.
Proof.
  revert acc. induction l as [|[k p] l IH]; intros acc Hget Hd; simpl;
    [lra|].
  rewrite (Hget k p (or_introl eq_refl)).
  assert (Hget' : forall k' p', In (k', p') l -> Obj.get ps k' = Some p')
    by (intros; apply Hget; now right).
  assert (Hd' : forall p', In (d, p') l -> ~ p' < bound)
    by (intros; apply Hd; now right).
  destruct (String.eqb_spec k d) as [->|Hne].
  - destruct (Z.ltb_spec p bound) as [Hlt|Hge].
    + exfalso. now apply (Hd p (or_introl eq_refl)).
    + now apply IH.
  - simpl. destruct (Z.ltb_spec p bound); simpl.
    + rewrite IH by assumption. lra.
    + now apply IH.
Qed.

Lemma sorted_prefix_below (ps : TPositions) hs d slot :
  permutation_table ps -> Obj.get ps d = Some slot ->
  filter (fun item => Resolver.index item <? slot)
    (Resolver.sortedItems ps hs d)
  = firstn (Z.to_nat slot) (Resolver.sortedItems ps hs d) /\
  (forall item,
      In item (skipn (Z.to_nat slot) (Resolver.sortedItems ps hs d)) ->
      slot < Resolver.index item) /\
  (Z.to_nat slot <= List.length (Resolver.sortedItems ps hs d))%nat.
Proof.
  intros Hpt Hget.
  pose proof (sorted_indices ps hs d slot Hpt Hget) as Hidx.
  assert (Hr : 0 <= slot < Z.of_nat (List.length ps)).
  { eapply permutation_table_range; eauto using get_In. }
  set (items := Resolver.sortedItems ps hs d) in *.
  set (s := Z.to_nat slot) in *.
  assert (Hlen : (s <= List.length items)%nat).
  { apply (f_equal (@List.length Z)) in Hidx.
    rewrite length_map, length_app, !length_map, !length_seq in Hidx. lia. }
  assert (Hfirst : map Resolver.index (firstn s items)
                   = map Z.of_nat (seq 0 s)).
  { rewrite <- firstn_map, Hidx, firstn_app, length_map, length_seq,
      Nat.sub_diag, firstn_O, app_nil_r.
    apply firstn_all2. rewrite length_map, length_seq. lia. }
  assert (Hskip : map Resolver.index (skipn s items)
                  = map Z.of_nat (seq (S s) (List.length ps - 1 - s))).
  { rewrite <- skipn_map, Hidx, skipn_app, length_map, length_seq,
      Nat.sub_diag, skipn_O.
    rewrite skipn_all2 by (rewrite length_map, length_seq; lia).
    reflexivity. }
  assert (Hbelow : forall item, In item (skipn s items) ->
                                slot < Resolver.index item).
  { intros item Hin. apply (in_map Resolver.index) in Hin.
    rewrite Hskip in Hin. apply in_map_iff in Hin as [j [<- Hj]].
    apply in_seq in Hj. subst s. lia. }
  split; [|split; [exact Hbelow|exact Hlen]].
  apply filter_prefix.
  - intros item Hin. apply (in_map Resolver.index) in Hin.
    rewrite Hfirst in Hin. apply in_map_iff in Hin as [j [<- Hj]].
    apply in_seq in Hj. apply Z.ltb_lt. subst s. lia.
  - intros item Hin. apply Z.ltb_ge. specialize (Hbelow item Hin). lia.
Qed.

Lemma sortedItems_measured (ps : TPositions) hs d item :
  measured_positive hs ->
  (forall k, In k (Obj.keys ps) -> k <> d -> Obj.get hs k <> None) ->
  In item (Resolver.sortedItems ps hs d) ->
  (0 < Resolver.height item)%Q.
Proof.
  intros Hm Hall Hin. unfold Resolver.sortedItems in Hin.
  apply (Permutation_in _ (sort_by_index_perm _)) in Hin.
  rewrite collect_items_spec in Hin.
  apply in_map_iff in Hin as [[k p] [<- Hf]].
  apply filter_In in Hf as [Hps Hk]. simpl in *.
  assert (Hne : k <> d).
  { intros ->. rewrite String.eqb_refl in Hk. discriminate. }
  assert (Hkeys : In k (Obj.keys ps)).
  { unfold Obj.keys. change k with (fst (k, p)). now apply in_map. }
  specialize (Hall k Hkeys Hne). unfold height_or_zero. exact_arith.
  destruct (Obj.get hs k) as [h|] eqn:E; [|contradiction].
  now apply (Hm k).
Qed.

(** At the offset [onStart] records, the resolver answers the dragged
    item's own slot. *)
Lemma resolve_at_rest (ps : TPositions) hs d slot y :
  permutation_table ps -> Obj.get ps d = Some slot ->
  measured_positive hs ->
  (forall k, In k (Obj.keys ps) -> k <> d -> Obj.get hs k <> None) ->
  (y == Resolver.offset_below (Obj.keys ps) ps hs slot 0)%Q ->
  Resolver.resolve_position ps hs d (Z.of_nat (List.length ps)) y = slot.
Proof.
  intros Hpt Hget Hm Hall Hy. pose proof Hpt as [Hk _].
  assert (Hin : In d (Obj.keys ps)) by eauto using get_In_keys.
  assert (Hr : 0 <= slot < Z.of_nat (List.length ps)).
  { eapply permutation_table_range; eauto using get_In. }
  rewrite resolve_position_scan by assumption.
  destruct (sorted_prefix_below ps hs d slot Hpt Hget)
    as [Hfilter [Hbelow Hlen]].
  set (items := Resolver.sortedItems ps hs d) in *.
  set (s := Z.to_nat slot) in *.
  assert (Hsum : (sum_heights (firstn s items) == y)%Q).
  { rewrite Hy, <- Hfilter.
    rewrite (offset_below_collect ps ps hs d slot 0).
    - rewrite Qplus_0_l. apply sum_heights_perm, filter_perm.
      apply sort_by_index_perm.
    - intros k p Hp. now apply NoDup_get_In.
    - intros p Hp. apply (NoDup_get_In ps d p Hk) in Hp.
      rewrite Hget in Hp. injection Hp as <-. lia. }
  assert (Hnn : nonneg_heights (firstn s items)).
  { apply Forall_forall. intros item Hi. apply Qlt_le_weak.
    apply (sortedItems_measured ps hs d item Hm Hall).
    fold items. rewrite <- (firstn_skipn s items). apply in_or_app.
    now left. }
  assert (Hpre : none_exceeds y (firstn s items)).
  { apply nonneg_none_exceeds; [exact Hnn|]. rewrite Hsum. apply Qle_refl. }
  assert (Hl : List.length (firstn s items) = s).
  { rewrite length_firstn. lia. }
  rewrite <- (firstn_skipn s items).
  destruct (skipn s items) as [|item post] eqn:Erest.
  - rewrite app_nil_r in *. rewrite scan_none_exceeding by assumption.
    rewrite Hl. subst s. lia.
  - rewrite scan_first_exceeding; [rewrite Hl; subst s; lia|exact Hpre|].
    unfold center_of. rewrite Hsum.
    assert (Hpos : (0 < Resolver.height item)%Q).
    { apply (sortedItems_measured ps hs d item Hm Hall).
      fold items. rewrite <- (firstn_skipn s items), Erest.
      apply in_or_app. right. now left. }
    rewrite half_eq. lra.
Qed.

Lemma run_calls_offsets {T} (calls : list RNCall)
    (w : DraggableList.State (T := T) * DraggableItem.State) :
  DraggableItem.initialItemOffset (snd (DraggableList.run_calls calls w))
    = DraggableItem.initialItemOffset (snd w) /\
  DraggableItem.initialScrollY (snd (DraggableList.run_calls calls w))
    = DraggableItem.initialScrollY (snd w).
Proof.
  revert w. unfold DraggableList.run_calls.
  induction calls as [|c calls IH]; intros w; simpl; [auto|].
  destruct (IH (DraggableList.run_call c w)) as [-> ->].
  destruct w as [st it]. destruct c; auto.
Qed.

Lemma dispatch_offsets {T} handler
    (w : DraggableList.State (T := T) * DraggableItem.State) :
  DraggableItem.initialItemOffset (snd (DraggableList.dispatch handler w))
    = DraggableItem.initialItemOffset
        (snd (fst (handler (DraggableList.shared (fst w)) (snd w)))) /\
  DraggableItem.initialScrollY (snd (DraggableList.dispatch handler w))
    = DraggableItem.initialScrollY
        (snd (fst (handler (DraggableList.shared (fst w)) (snd w)))).
Proof.
  destruct w as [st it]. unfold DraggableList.dispatch. simpl.
  destruct (handler (DraggableList.shared st) it) as [[sh' it'] calls].
  apply run_calls_offsets.
Qed.

Lemma onUpdate_positions_exact p translationY sh it d :
  draggableItemKey sh = Some d ->
  positions (fst (fst (DraggableItem.onUpdate p translationY sh it)))
  = if negb (truthy d) || height_is_zero (itemHeights sh) d
    then positions sh
    else Resolver.swap_step (positions sh) (itemHeights sh) d
           (DraggableItem.listLength p)
           (DraggableItem.initialItemOffset it
            + (translationY
               + (scrollY sh - DraggableItem.initialScrollY it)))%Q.
Proof.
  intros Hd. unfold DraggableItem.onUpdate. rewrite Hd.
  destruct (negb (truthy d) || height_is_zero (itemHeights sh) d);
    [reflexivity|].
  now destruct (DraggableItem.edge_check _ _ _ _).
Qed.

Lemma onStart_measured p sh it :
  height_is_zero (itemHeights sh) (DraggableItem.itemKey p) = false ->
  let r := fst (DraggableItem.onStart p sh it) in
  itemHeights (fst r) = itemHeights sh /\
  scrollY (fst r) = scrollY sh /\
  DraggableItem.initialScrollY (snd r) = scrollY sh /\
  DraggableItem.initialItemOffset (snd r)
  = Resolver.offset_below (Obj.keys (positions sh)) (positions sh)
      (itemHeights sh)
      (match Obj.get (positions sh) (DraggableItem.itemKey p) with
       | Some pos => pos
       | None => DraggableItem.index p
       end) 0%Q.
Proof.
  intros Hz. unfold DraggableItem.onStart. rewrite Hz. simpl. auto.
Qed.

(** X17.  Starting a drag without moving reorders nothing: on a list whose
    table is a permutation table, whose other items are measured and whose
    [listLength] is the table's size, [onStart] followed by an [onUpdate]
    with no translation (and no scroll in between) leaves the position table
    as it was, because the offset recorded by [onStart] resolves to the
    item's own slot. *)
Theorem untouched_drag_keeps_table {T} (p : DraggableItem.Props)
    (w : DraggableList.State (T := T) * DraggableItem.State) (slot : Z) :
  let sh := DraggableList.shared (fst w) in
  permutation_table (positions sh) ->
  Obj.get (positions sh) (DraggableItem.itemKey p) = Some slot ->
  measured_positive (itemHeights sh) ->
  (forall k, In k (Obj.keys (positions sh)) ->
             k <> DraggableItem.itemKey p ->
             Obj.get (itemHeights sh) k <> None) ->
  DraggableItem.listLength p = Z.of_nat (List.length (positions sh)) ->
  positions
    (DraggableList.shared
       (fst (DraggableList.gestures p
               [DraggableList.GestureStart; DraggableList.GestureUpdate 0]
               w)))
  = positions sh.
Proof.
  intros sh Hpt Hget Hm Hall Hlen.
  unfold DraggableList.gestures. cbn [fold_left DraggableList.gesture].
  set (w1 := DraggableList.dispatch (DraggableItem.onStart p) w).
  assert (Hz : height_is_zero (itemHeights sh) (DraggableItem.itemKey p)
               = false) by now apply measured_positive_never_zero.
  destruct (onStart_measured p sh (snd w) Hz) as [Hh [Hs [His Hio]]].
  destruct (dispatch_offsets (DraggableItem.onStart p) w) as [Ho1 Ho2].
  fold w1 sh in Ho1, Ho2. rewrite Hio in Ho1. rewrite His in Ho2.
  rewrite Hget in Ho1.
  assert (Hsh1 : DraggableList.shared (fst w1)
                 = fst (fst (DraggableItem.onStart p sh (snd w))))
    by apply dispatch_shared.
  rewrite dispatch_shared.
  rewrite (onUpdate_positions_exact p 0 _ _ (DraggableItem.itemKey p))
    by (rewrite Hsh1; apply onStart_key).
  rewrite Hsh1, onStart_positions, Hh, Hs, Hz, Ho1, Ho2, Hlen.
  destruct (negb (truthy (DraggableItem.itemKey p))); [reflexivity|].
  cbn [orb]. unfold Resolver.swap_step.
  rewrite (resolve_at_rest (positions sh) (itemHeights sh)
             (DraggableItem.itemKey p) slot) by (auto; lra).
  rewrite Hget. simpl. now rewrite Z.eqb_refl.
Qed.

Lemma abc_measured :
  measured_positive (itemHeights (DraggableList.shared (fst abc))).
Proof. apply measured_positive_Forall. repeat constructor. Qed.

Lemma abc_permutation :
  permutation_table (positions (DraggableList.shared (fst abc))).
Proof.
  split; [|apply Permutation_refl].
  repeat constructor; simpl; intuition discriminate.
Qed.

Lemma untouched_drag_keeps_table_witness :
  positions
    (DraggableList.shared
       (fst (DraggableList.gestures abc_props
               [DraggableList.GestureStart; DraggableList.GestureUpdate 0]
               abc)))
  = positions (DraggableList.shared (fst abc)).
Proof.
  apply (untouched_drag_keeps_table abc_props abc 0).
  - exact abc_permutation.
  - reflexivity.
  - exact abc_measured.
  - intros k Hk _. simpl in Hk.
    destruct Hk as [<-|[<-|[<-|[]]]]; discriminate.
  - reflexivity.
Defined.

(** ** The logical order follows the table *)

Ltac nat_cases :=
  repeat match goal with
    | |- context [Nat.ltb ?a ?b] => destruct (Nat.ltb_spec a b)
    | |- context [Nat.eqb ?a ?b] => destruct (Nat.eqb_spec a b)
    end.

Lemma nth_error_remove_at {A} (l : list A) s j :
  (s <= List.length l)%nat ->
  nth_error (remove_at s l) j = nth_error l (if Nat.ltb j s then j else S j).
Proof.
  intros Hs. unfold remove_at.
  assert (Hl : List.length (firstn s l) = s) by (rewrite length_firstn; lia).
  destruct (Nat.ltb_spec j s) as [Hlt|Hge].
  - rewrite nth_error_app1 by lia. rewrite nth_error_firstn.
    now rewrite (proj2 (Nat.ltb_lt j s) Hlt).
  - rewrite nth_error_app2 by lia. rewrite Hl, nth_error_skipn.
    f_equal. lia.
Qed.

Lemma nth_error_insert_at {A} (r : list A) t x j :
  (t <= List.length r)%nat ->
  nth_error (insert_at t x r) j
  = if Nat.ltb j t then nth_error r j
    else if Nat.eqb j t then Some x else nth_error r (j - 1).
Proof.
  intros Ht. unfold insert_at.
  assert (Hl : List.length (firstn t r) = t) by (rewrite length_firstn; lia).
  destruct (Nat.ltb_spec j t) as [Hlt|Hge].
  - rewrite nth_error_app1 by lia. rewrite nth_error_firstn.
    now rewrite (proj2 (Nat.ltb_lt j t) Hlt).
  - rewrite nth_error_app2 by lia. rewrite Hl.
    destruct (Nat.eqb_spec j t) as [->|Hne].
    + now rewrite Nat.sub_diag.
    + destruct (j - t)%nat as [|k] eqn:E; [lia|]. simpl.
      rewrite nth_error_skipn. f_equal. lia.
Qed.

(** After the move, the item that was at index [p] sits at the index the
    table's reassignment gives its slot. *)
Lemma nth_error_move_item {A} (l : list A) S T p :
  0 <= S < Z.of_nat (List.length l) ->
  0 <= T < Z.of_nat (List.length l) ->
  0 <= p < Z.of_nat (List.length l) ->
  nth_error (move_item (Z.to_nat S) (Z.to_nat T) l)
    (Z.to_nat (reassign S T p))
  = nth_error l (Z.to_nat p).
Proof.
  intros HS HT Hp. unfold move_item.
  destruct (nth_error l (Z.to_nat S)) as [x|] eqn:E;
    [|apply nth_error_None in E; lia].
  rewrite nth_error_insert_at by (rewrite length_remove_at; lia).
  rewrite !nth_error_remove_at by lia.
  unfold reassign. pose proof (shift_neighbour_cases S T p) as Hc.
  destruct (Z.eqb_spec p S) as [->|Hne].
  - nat_cases; try lia; now rewrite E.
  - destruct Hc as [[Hr Hq]|[[Hr Hq]|[Hr1 [Hr2 Hq]]]]; rewrite Hq;
      nat_cases; try lia; f_equal; lia.
Qed.

Lemma length_modify_positions (ps : TPositions) d S T :
  NoDup (Obj.keys ps) -> NoDup (Obj.values ps) -> Obj.get ps d = Some S ->
  List.length (Resolver.modify_positions ps d T) = List.length ps.
Proof.
  intros Hk Hv Hget.
  rewrite (modify_positions_reassign ps d S T Hk Hv Hget).
  apply length_map.
Qed.

Lemma onStart_initialIndex p sh it :
  DraggableItem.initialIndex (snd (fst (DraggableItem.onStart p sh it)))
  = match Obj.get (positions sh) (DraggableItem.itemKey p) with
    | Some pos => pos
    | None => DraggableItem.index p
    end.
Proof.
  unfold DraggableItem.onStart. now destruct (height_is_zero _ _).
Qed.

(** Through the updates of one drag the table stays the starting table with
    the dragged item moved to a slot of the table. *)
Lemma drag_updates_state {T} (p : DraggableItem.Props) (d : string)
    (ps0 : TPositions) (S : Z) (tys : list Q) :
  NoDup (Obj.keys ps0) -> NoDup (Obj.values ps0) ->
  Obj.get ps0 d = Some S ->
  forall (w1 : DraggableList.State (T := T) * DraggableItem.State) T0,
    draggableItemKey (DraggableList.shared (fst w1)) = Some d ->
    positions (DraggableList.shared (fst w1))
      = Resolver.modify_positions ps0 d T0 ->
    0 <= T0 < Z.of_nat (List.length ps0) ->
    let w2 :=
      DraggableList.gestures p (map DraggableList.GestureUpdate tys) w1 in
    exists T',
      0 <= T' < Z.of_nat (List.length ps0) /\
      positions (DraggableList.shared (fst w2))
        = Resolver.modify_positions ps0 d T' /\
      draggableItemKey (DraggableList.shared (fst w2)) = Some d /\
      DraggableItem.initialIndex (snd w2)
        = DraggableItem.initialIndex (snd w1) /\
      DraggableList.getCurrentData (fst w2)
        = DraggableList.getCurrentData (fst w1).
Proof.
  intros Hk Hv Hget. unfold DraggableList.gestures.
  induction tys as [|ty tys IH]; intros w1 T0 Hkey Hpos HT0;
    cbn [map fold_left].
  - exists T0. auto.
  - set (w := DraggableList.gesture p (DraggableList.GestureUpdate ty) w1).
    assert (Hkey' : draggableItemKey (DraggableList.shared (fst w)) = Some d).
    { subst w. cbn [DraggableList.gesture]. rewrite dispatch_shared.
      now rewrite onUpdate_key. }
    assert (Hidx : DraggableItem.initialIndex (snd w)
                   = DraggableItem.initialIndex (snd w1)).
    { subst w. cbn [DraggableList.gesture].
      rewrite dispatch_initialIndex. apply onUpdate_initialIndex. }
    assert (Hord : DraggableList.getCurrentData (fst w)
                   = DraggableList.getCurrentData (fst w1))
      by apply gesture_update_order.
    destruct (modify_positions_values ps0 d S T0 Hk Hv Hget)
      as [Hk1 [Hv1 Hg1]].
    assert (Hstep : exists T1,
      0 <= T1 < Z.of_nat (List.length ps0) /\
      positions (DraggableList.shared (fst w))
        = Resolver.modify_positions ps0 d T1).
    { subst w. cbn [DraggableList.gesture]. rewrite dispatch_shared.
      rewrite (onUpdate_positions_exact p ty _ _ d Hkey).
      destruct (negb (truthy d) || height_is_zero _ d); [now exists T0|].
      unfold Resolver.swap_step.
      destruct (Resolver.position_differs _ _); [|now exists T0].
      rewrite Hpos.
      match goal with
      | |- context [Resolver.modify_positions _ d ?t'] => exists t'
      end.
      split.
      - rewrite <- (length_modify_positions ps0 d S T0 Hk Hv Hget).
        apply resolve_position_range; [exact Hk1|].
        eapply get_In_keys; exact Hg1.
      - now apply (modify_positions_compose ps0 d S). }
    destruct Hstep as [T1 [HT1 Hpos1]].
    destruct (IH w T1 Hkey' Hpos1 HT1) as [T' [HT' [Hp' [Hk' [Hi' Ho']]]]].
    exists T'. split; [exact HT'|]. split; [exact Hp'|].
    split; [exact Hk'|]. split; congruence.
Qed.

Lemma combine_get (ks : list string) (vs : list Z) i k v :
  NoDup ks -> nth_error ks i = Some k -> nth_error vs i = Some v ->
  Obj.get (combine ks vs) k = Some v.
Proof.
  intros Hnd. revert vs i.
  induction Hnd as [|k0 ks Hn Hnd IH]; intros vs i Hk Hv.
  - destruct i; discriminate.
  - destruct vs as [|v0 vs]; [destruct i; discriminate|].
    destruct i as [|i]; simpl in *.
    + injection Hk as ->. injection Hv as ->. now rewrite String.eqb_refl.
    + destruct (String.eqb_spec k0 k) as [->|Hne].
      * exfalso. apply Hn. eapply nth_error_In; eauto.
      * eapply IH; eauto.
Qed.

(** After the mount the order and the table agree. *)
Lemma mount_matches {T} (item_key : T -> string) (data : list T) :
  NoDup (map item_key data) ->
  order_matches_table item_key
    (DraggableList.getCurrentData (DraggableList.mount item_key data))
    (positions (DraggableList.shared (DraggableList.mount item_key data))).
Proof.
  intros Hnd.
  change (DraggableList.getCurrentData (DraggableList.mount item_key data))
    with (map Some data).
  change (positions (DraggableList.shared (DraggableList.mount item_key data)))
    with (DraggableList.build_positions item_key data 0 []).
  rewrite build_positions_slots by assumption. split.
  - rewrite length_combine, !length_map, length_slots. lia.
  - intros i Hi. rewrite length_map in Hi.
    destruct (nth_error data i) as [item|] eqn:E;
      [|apply nth_error_None in E; lia].
    exists item. split.
    + rewrite nth_error_map, E. reflexivity.
    + apply (combine_get _ _ i); [exact Hnd| |].
      * rewrite nth_error_map, E. reflexivity.
      * unfold slots. rewrite nth_error_map.
        rewrite (nth_error_nth' (seq 0 (List.length data)) 0%nat)
          by (rewrite length_seq; lia).
        rewrite seq_nth by lia. reflexivity.
Qed.

Lemma complete_drag_invariant {T} (item_key : T -> string)
    (p : DraggableItem.Props) (tys : list Q)
    (w : DraggableList.State (T := T) * DraggableItem.State) (S : Z) :
  permutation_table (positions (DraggableList.shared (fst w))) ->
  order_matches_table item_key (DraggableList.getCurrentData (fst w))
    (positions (DraggableList.shared (fst w))) ->
  Obj.get (positions (DraggableList.shared (fst w)))
    (DraggableItem.itemKey p) = Some S ->
  truthy (DraggableItem.itemKey p) = true ->
  DraggableItem.onDragEnd p = true ->
  let w' :=
    DraggableList.gestures p
      (DraggableList.GestureStart
         :: map DraggableList.GestureUpdate tys
         ++ [DraggableList.GestureEnd]) w in
  order_matches_table item_key (DraggableList.getCurrentData (fst w'))
    (positions (DraggableList.shared (fst w'))) /\
  permutation_table (positions (DraggableList.shared (fst w'))) /\
  Obj.keys (positions (DraggableList.shared (fst w')))
    = Obj.keys (positions (DraggableList.shared (fst w))).
Proof.
  intros Hpt [Hlen Hmatch] Hget Ht Hp w'.
  set (ps0 := positions (DraggableList.shared (fst w))) in *.
  set (d := DraggableItem.itemKey p) in *.
  set (order0 := DraggableList.getCurrentData (fst w)) in *.
  pose proof Hpt as [Hk _].
  pose proof (permutation_table_NoDup_values ps0 Hpt) as Hv.
  assert (HS : 0 <= S < Z.of_nat (List.length ps0)).
  { eapply permutation_table_range; eauto using get_In. }
  (* the start *)
  set (w1 := DraggableList.gesture p DraggableList.GestureStart w).
  assert (Hkey1 : draggableItemKey (DraggableList.shared (fst w1)) = Some d).
  { subst w1. cbn [DraggableList.gesture]. rewrite dispatch_shared.
    apply onStart_key. }
  assert (Hpos1 : positions (DraggableList.shared (fst w1))
                  = Resolver.modify_positions ps0 d S).
  { subst w1. cbn [DraggableList.gesture].
    rewrite dispatch_shared, onStart_positions. fold ps0.
    symmetry. now apply modify_positions_same. }
  assert (Hidx1 : DraggableItem.initialIndex (snd w1) = S).
  { subst w1. cbn [DraggableList.gesture].
    rewrite dispatch_initialIndex, onStart_initialIndex. fold ps0 d.
    now rewrite Hget. }
  assert (Hord1 : DraggableList.getCurrentData (fst w1) = order0)
    by apply gesture_start_order.
  (* the updates *)
  destruct (drag_updates_state p d ps0 S tys Hk Hv Hget w1 S Hkey1 Hpos1 HS)
    as [T' [HT' [Hpos2 [Hkey2 [Hidx2 Hord2]]]]].
  set (w2 := DraggableList.gestures p
               (map DraggableList.GestureUpdate tys) w1) in *.
  (* the end *)
  assert (Hw' : w' = DraggableList.gesture p DraggableList.GestureEnd w2).
  { subst w' w2 w1. unfold DraggableList.gestures. cbn [fold_left].
    now rewrite fold_left_app. }
  assert (Hpos' : positions (DraggableList.shared (fst w'))
                  = Resolver.modify_positions ps0 d T').
  { rewrite Hw'. cbn [DraggableList.gesture]. rewrite dispatch_shared.
    destruct (onEnd_shared p (DraggableList.shared (fst w2)) (snd w2))
      as [-> _].
    exact Hpos2. }
  assert (Hget2 : Obj.get (positions (DraggableList.shared (fst w2))) d
                  = Some T').
  { rewrite Hpos2. apply (modify_positions_values ps0 d S T' Hk Hv Hget). }
  assert (Hord' : DraggableList.getCurrentData (fst w')
                  = move_item (Z.to_nat S) (Z.to_nat T') order0).
  { rewrite Hw', (gesture_end_order p w2 d Hkey2 Ht Hp).
    rewrite Hget2, Hidx2, Hidx1, Hord2, Hord1.
    apply handleDragEnd_move_item; rewrite Hlen; assumption. }
  split.
  - rewrite Hord', Hpos'. split.
    + rewrite length_move_item, Hlen.
      symmetry. now apply (length_modify_positions ps0 d S).
    + intros i Hi. rewrite length_move_item in Hi.
      set (pre := reassign T' S (Z.of_nat i)).
      assert (Hpre : 0 <= pre < Z.of_nat (List.length ps0)).
      { apply reassign_range; lia. }
      assert (Hback : reassign S T' pre = Z.of_nat i).
      { subst pre. rewrite reassign_compose. apply reassign_same. }
      destruct (Hmatch (Z.to_nat pre)) as [item [Hn Hg]]; [lia|].
      exists item. split.
      * rewrite <- Hn, <- (Nat2Z.id i), <- Hback.
        apply nth_error_move_item; rewrite Hlen; assumption.
      * rewrite (modify_positions_reassign ps0 d S T' Hk Hv Hget).
        rewrite get_map_values, Hg. simpl. f_equal.
        rewrite Z2Nat.id by lia. exact Hback.
  - split.
    + rewrite Hpos'. now apply (modify_positions_permutation ps0 d S).
    + rewrite Hpos'. apply modify_positions_keys.
      eapply get_In_keys; exact Hget.
Qed.

(** X18.  A complete drag keeps the logical order in step with the table: if
    before the drag the [i]-th entry of [getCurrentData ()] is the item the
    table puts in slot [i], then after the start, any updates and the end of
    the gesture it is so again, and the table is still a permutation
    table. *)
Theorem complete_drag_keeps_order_in_step {T} (item_key : T -> string)
    (p : DraggableItem.Props) (tys : list Q)
    (w : DraggableList.State (T := T) * DraggableItem.State) (S : Z) :
  permutation_table (positions (DraggableList.shared (fst w))) ->
  order_matches_table item_key (DraggableList.getCurrentData (fst w))
    (positions (DraggableList.shared (fst w))) ->
  Obj.get (positions (DraggableList.shared (fst w)))
    (DraggableItem.itemKey p) = Some S ->
  truthy (DraggableItem.itemKey p) = true ->
  DraggableItem.onDragEnd p = true ->
  let w' :=
    DraggableList.gestures p
      (DraggableList.GestureStart
         :: map DraggableList.GestureUpdate tys
         ++ [DraggableList.GestureEnd]) w in
  order_matches_table item_key (DraggableList.getCurrentData (fst w'))
    (positions (DraggableList.shared (fst w'))) /\
  permutation_table (positions (DraggableList.shared (fst w'))).
Proof.
  intros Hpt Hm Hget Ht Hp w'.
  destruct (complete_drag_invariant item_key p tys w S Hpt Hm Hget Ht Hp)
    as [H1 [H2 _]].
  split; assumption.
Qed.

Lemma complete_drag_keeps_order_in_step_witness :
  order_matches_table (fun item : string => item)
    (DraggableList.getCurrentData
       (fst (DraggableList.gestures abc_props
               (DraggableList.GestureStart
                  :: map DraggableList.GestureUpdate [70%Q; 130%Q]
                  ++ [DraggableList.GestureEnd]) abc)))
    (positions
       (DraggableList.shared
          (fst (DraggableList.gestures abc_props
                  (DraggableList.GestureStart
                     :: map DraggableList.GestureUpdate [70%Q; 130%Q]
                     ++ [DraggableList.GestureEnd]) abc)))) /\
  permutation_table
    (positions
       (DraggableList.shared
          (fst (DraggableList.gestures abc_props
                  (DraggableList.GestureStart
                     :: map DraggableList.GestureUpdate [70%Q; 130%Q]
                     ++ [DraggableList.GestureEnd]) abc)))).
Proof.
  apply (complete_drag_keeps_order_in_step (fun item : string => item)
           abc_props [70%Q; 130%Q] abc 0).
  - exact abc_permutation.
  - apply (mount_matches (fun item : string => item)
             ["A"%string; "B"%string; "C"%string]).
    repeat constructor; simpl; intuition discriminate.
  - reflexivity.
  - reflexivity.
  - reflexivity.
Defined.

(** ** Several drags in a row *)

(** X19.  From a freshly mounted list with distinct identities, after any
    number of complete drags, of any items of the list with a non-empty
    identity, rendered at any index and dragged along any offsets, the
    [i]-th entry of [getCurrentData ()] is the item the table puts in slot
    [i], the table is a permutation table and the order is as long as the
    data. *)
Theorem drags_keep_order_in_step {T} (item_key : T -> string)
    (data : list T) (ds : list (T * Z * list Q * DraggableItem.State)) :
  NoDup (map item_key data) ->
  (forall d, In d ds ->
     In (fst (fst (fst d))) data /\
     truthy (item_key (fst (fst (fst d)))) = true) ->
  let st := complete_drags item_key ds (DraggableList.mount item_key data) in
  order_matches_table item_key (DraggableList.getCurrentData st)
    (positions (DraggableList.shared st)) /\
  permutation_table (positions (DraggableList.shared st)) /\
  List.length (DraggableList.getCurrentData st) = List.length data.
Proof.
  intros Hnd Hds st.
  assert (Hinv : forall ds st0,
            (forall d, In d ds ->
               In (fst (fst (fst d))) data /\
               truthy (item_key (fst (fst (fst d)))) = true) ->
            permutation_table (positions (DraggableList.shared st0)) ->
            order_matches_table item_key (DraggableList.getCurrentData st0)
              (positions (DraggableList.shared st0)) ->
            Obj.keys (positions (DraggableList.shared st0))
              = map item_key data ->
            let st1 := complete_drags item_key ds st0 in
            permutation_table (positions (DraggableList.shared st1)) /\
            order_matches_table item_key (DraggableList.getCurrentData st1)
              (positions (DraggableList.shared st1)) /\
            Obj.keys (positions (DraggableList.shared st1))
              = map item_key data).
  { clear ds Hds st. intros ds.
    induction ds as [|[[[item idx] tys] it] ds IH];
      intros st0 Hds Hpt Hm Hkeys; [cbn; auto|].
    unfold complete_drags. cbn [fold_left].
    destruct (Hds _ (or_introl eq_refl)) as [Hin Ht]. cbn [fst] in Hin, Ht.
    assert (Hk : In (item_key item)
                   (Obj.keys (positions (DraggableList.shared st0)))).
    { rewrite Hkeys. now apply in_map. }
    destruct (In_keys_get _ _ Hk) as [S HS].
    destruct (complete_drag_invariant item_key
                (DraggableList.item_props item_key st0 item idx) tys
                (st0, it) S Hpt Hm HS Ht eq_refl) as [Hm' [Hpt' Hkeys']].
    apply IH.
    - intros d Hd. apply Hds. now right.
    - exact Hpt'.
    - exact Hm'.
    - unfold drag_item, complete_drag. cbn [fst snd] in *.
      now rewrite Hkeys'. }
  assert (Hpos : positions (DraggableList.shared
                              (DraggableList.mount item_key data))
                 = combine (map item_key data) (slots (List.length data))).
  { apply build_positions_slots. exact Hnd. }
  destruct (Hinv ds (DraggableList.mount item_key data) Hds) as [H1 [H2 H3]].
  - now apply build_positions_permutation.
  - now apply mount_matches.
  - rewrite Hpos. apply keys_combine.
    now rewrite length_map, length_slots.
  - fold st in H1, H2, H3. split; [exact H2|]. split; [exact H1|].
    destruct H2 as [Hlen _]. rewrite Hlen.
    rewrite <- (length_map item_key data), <- H3.
    unfold Obj.keys. now rewrite length_map.
Qed.

Lemma drags_keep_order_in_step_witness :
  order_matches_table (fun item : string => item)
    (DraggableList.getCurrentData
       (complete_drags (fun item : string => item) abc_drags
          (DraggableList.mount (fun item : string => item)
             ["A"%string; "B"%string; "C"%string])))
    (positions
       (DraggableList.shared
          (complete_drags (fun item : string => item) abc_drags
             (DraggableList.mount (fun item : string => item)
                ["A"%string; "B"%string; "C"%string])))) /\
  permutation_table
    (positions
       (DraggableList.shared
          (complete_drags (fun item : string => item) abc_drags
             (DraggableList.mount (fun item : string => item)
                ["A"%string; "B"%string; "C"%string])))) /\
  List.length
    (DraggableList.getCurrentData
       (complete_drags (fun item : string => item) abc_drags
          (DraggableList.mount (fun item : string => item)
             ["A"%string; "B"%string; "C"%string])))
  = List.length ["A"%string; "B"%string; "C"%string].
Proof.
  apply (drags_keep_order_in_step (fun item : string => item)
           ["A"%string; "B"%string; "C"%string] abc_drags).
  - repeat constructor; simpl; intuition discriminate.
  - intros d [<-|[<-|[]]]; simpl; auto.
Defined.

(** ** The reaction of the items that are not dragged *)

Lemma onStart_heights p sh it :
  itemHeights (fst (fst (DraggableItem.onStart p sh it))) = itemHeights sh.
Proof.
  unfold DraggableItem.onStart. now destruct (height_is_zero _ _).
Qed.

Lemma onUpdate_heights p translationY sh it :
  itemHeights (fst (fst (DraggableItem.onUpdate p translationY sh it)))
  = itemHeights sh.
Proof.
  unfold DraggableItem.onUpdate.
  destruct (draggableItemKey sh) as [d|]; [|reflexivity].
  destruct (negb (truthy d) || height_is_zero (itemHeights sh) d);
    [reflexivity|].
  destruct (DraggableItem.edge_check _ _ _ _) as [direction calls].
  reflexivity.
Qed.

Lemma updates_heights {T} (p : DraggableItem.Props) (tys : list Q) :
  forall w : DraggableList.State (T := T) * DraggableItem.State,
    itemHeights
      (DraggableList.shared
         (fst (DraggableList.gestures p
                 (map DraggableList.GestureUpdate tys) w)))
    = itemHeights (DraggableList.shared (fst w)).
Proof.
  unfold DraggableList.gestures.
  induction tys as [|ty tys IH]; intros w; cbn [map fold_left];
    [reflexivity|].
  rewrite IH. cbn [DraggableList.gesture].
  rewrite dispatch_shared. apply onUpdate_heights.
Qed.

(** The shared values while a drag is in progress: after the start and any
    updates the table is the starting table with the dragged item moved to
    some slot, the dragged key is set and the heights are untouched. *)
Lemma drag_in_progress {T} (p : DraggableItem.Props) (tys : list Q)
    (w : DraggableList.State (T := T) * DraggableItem.State) (S : Z) :
  permutation_table (positions (DraggableList.shared (fst w))) ->
  Obj.get (positions (DraggableList.shared (fst w)))
    (DraggableItem.itemKey p) = Some S ->
  let sh' :=
    DraggableList.shared
      (fst (DraggableList.gestures p
              (DraggableList.GestureStart
                 :: map DraggableList.GestureUpdate tys) w)) in
  exists T',
    positions sh'
      = Resolver.modify_positions (positions (DraggableList.shared (fst w)))
          (DraggableItem.itemKey p) T' /\
    draggableItemKey sh' = Some (DraggableItem.itemKey p) /\
    itemHeights sh' = itemHeights (DraggableList.shared (fst w)).
Proof.
  intros Hpt Hget sh'.
  set (ps0 := positions (DraggableList.shared (fst w))) in *.
  set (d := DraggableItem.itemKey p) in *.
  pose proof Hpt as [Hk _].
  pose proof (permutation_table_NoDup_values ps0 Hpt) as Hv.
  assert (HS : 0 <= S < Z.of_nat (List.length ps0)).
  { eapply permutation_table_range; eauto using get_In. }
  set (w1 := DraggableList.gesture p DraggableList.GestureStart w).
  assert (Hkey1 : draggableItemKey (DraggableList.shared (fst w1)) = Some d).
  { subst w1. cbn [DraggableList.gesture]. rewrite dispatch_shared.
    apply onStart_key. }
  assert (Hpos1 : positions (DraggableList.shared (fst w1))
                  = Resolver.modify_positions ps0 d S).
  { subst w1. cbn [DraggableList.gesture].
    rewrite dispatch_shared, onStart_positions. fold ps0.
    symmetry. now apply modify_positions_same. }
  assert (Hh1 : itemHeights (DraggableList.shared (fst w1))
                = itemHeights (DraggableList.shared (fst w))).
  { subst w1. cbn [DraggableList.gesture].
    rewrite dispatch_shared. apply onStart_heights. }
  destruct (drag_updates_state p d ps0 S tys Hk Hv Hget w1 S Hkey1 Hpos1 HS)
    as [T' [HT' [Hpos2 [Hkey2 _]]]].
  pose proof (updates_heights p tys w1) as Hh2. rewrite Hh1 in Hh2.
  exists T'. split; [exact Hpos2|]. split; [exact Hkey2|exact Hh2].
Qed.

(** The slot of an item that is not dragged, in the table of a drag in
    progress. *)
Lemma sibling_slot (ps0 : TPositions) (d k : string) (S T' q : Z) :
  permutation_table ps0 -> Obj.get ps0 d = Some S ->
  Obj.get ps0 k = Some q -> k <> d ->
  q <> S /\
  Obj.get (Resolver.modify_positions ps0 d T') k
  = Some (Resolver.shift_neighbour S T' q).
Proof.
  intros Hpt Hget Hq Hne. pose proof Hpt as [Hk _].
  pose proof (permutation_table_NoDup_values ps0 Hpt) as Hv.
  assert (HqS : q <> S).
  { intros ->. apply Hne.
    eapply NoDup_values_unique_key; eauto using get_In. }
  split; [exact HqS|].
  rewrite (modify_positions_reassign ps0 d S T' Hk Hv Hget).
  rewrite get_map_values, Hq. cbn. unfold reassign.
  now destruct (Z.eqb_spec q S).
Qed.

(** X20.  While an item is dragged the other items give way by exactly
    their own height.  After the start and any updates of the drag of the
    item in slot [S], with [T'] the slot it holds now: the reaction of the
    dragged item leaves its [translateY] alone; the reaction of a measured
    item rendered at its slot [q] springs to minus its own height when [q]
    lies between [S] (excluded) and [T'] (included), to plus its own height
    when [q] lies between [T'] (included) and [S] (excluded), and to [0]
    otherwise. *)
Theorem siblings_give_way {T} (p : DraggableItem.Props) (tys : list Q)
    (w : DraggableList.State (T := T) * DraggableItem.State)
    (S q : Z) (k : string) (h : Q) :
  permutation_table (positions (DraggableList.shared (fst w))) ->
  Obj.get (positions (DraggableList.shared (fst w)))
    (DraggableItem.itemKey p) = Some S ->
  truthy (DraggableItem.itemKey p) = true ->
  Obj.get (positions (DraggableList.shared (fst w))) k = Some q ->
  k <> DraggableItem.itemKey p ->
  Obj.get (itemHeights (DraggableList.shared (fst w))) k = Some h ->
  let sh' :=
    DraggableList.shared
      (fst (DraggableList.gestures p
              (DraggableList.GestureStart
                 :: map DraggableList.GestureUpdate tys) w)) in
  exists T',
    Obj.get (positions sh') (DraggableItem.itemKey p) = Some T' /\
    (forall index,
       Reaction.reaction (DraggableItem.itemKey p) index sh'
       = Reaction.Unchanged) /\
    Reaction.reaction k q sh'
    = Reaction.withSpring
        (Some (if (S <? q) && (q <=? T') then (inject_Z (-1) * h)%Q
               else if (T' <=? q) && (q <? S) then (inject_Z 1 * h)%Q
               else 0%Q)).
Proof.
  intros Hpt Hget Ht Hq Hne Hh sh'.
  destruct (drag_in_progress p tys w S Hpt Hget) as [T' [Hpos [Hkey Hhs]]].
  fold sh' in Hpos, Hkey, Hhs. clearbody sh'.
  set (ps0 := positions (DraggableList.shared (fst w))) in *.
  set (d := DraggableItem.itemKey p) in *.
  pose proof Hpt as [Hk _].
  pose proof (permutation_table_NoDup_values ps0 Hpt) as Hv.
  exists T'. split; [|split].
  - rewrite Hpos. apply (modify_positions_values ps0 d S T' Hk Hv Hget).
  - intros index. unfold Reaction.reaction, Reaction.react, Reaction.prepare,
      Reaction.is_active. cbn. rewrite Hkey. cbn.
    now rewrite String.eqb_refl.
  - destruct (sibling_slot ps0 d k S T' q Hpt Hget Hq Hne) as [HqS Hq'].
    rewrite <- Hpos in Hq'.
    assert (Hed : String.eqb d k = false).
    { apply String.eqb_neq. congruence. }
    unfold Reaction.reaction, Reaction.react, Reaction.prepare,
      Reaction.is_active, Reaction.active_truthy. cbn.
    rewrite Hkey, Hq', Hhs, Hh. cbn. rewrite Hed, Ht. cbn.
    pose proof (shift_neighbour_cases S T' q) as Hc.
    destruct (Z.ltb_spec S q) as [H1|H1];
      destruct (Z.leb_spec q T') as [H2|H2];
      destruct (Z.leb_spec T' q) as [H3|H3];
      destruct (Z.ltb_spec q S) as [H4|H4]; cbn [andb]; try lia;
      destruct (Z.eqb_spec (Resolver.shift_neighbour S T' q) q) as [E|E];
      cbn [negb]; try lia; try reflexivity;
      first [ replace (Resolver.shift_neighbour S T' q - q) with (-1) by lia
            | replace (Resolver.shift_neighbour S T' q - q) with 1 by lia ];
      reflexivity.
Qed.

Lemma siblings_give_way_witness :
  exists T',
    Obj.get
      (positions
         (DraggableList.shared
            (fst (DraggableList.gestures abc_props
                    (DraggableList.GestureStart
                       :: map DraggableList.GestureUpdate [70%Q; 130%Q])
                    abc))))
      (DraggableItem.itemKey abc_props) = Some T' /\
    (forall index,
       Reaction.reaction (DraggableItem.itemKey abc_props) index
         (DraggableList.shared
            (fst (DraggableList.gestures abc_props
                    (DraggableList.GestureStart
                       :: map DraggableList.GestureUpdate [70%Q; 130%Q])
                    abc)))
       = Reaction.Unchanged) /\
    Reaction.reaction "B" 1
      (DraggableList.shared
         (fst (DraggableList.gestures abc_props
                 (DraggableList.GestureStart
                    :: map DraggableList.GestureUpdate [70%Q; 130%Q])
                 abc)))
    = Reaction.withSpring
        (Some (if (0 <? 1) && (1 <=? T') then (inject_Z (-1) * 60)%Q
               else if (T' <=? 1) && (1 <? 0) then (inject_Z 1 * 60)%Q
               else 0%Q)).
Proof.
  apply (siblings_give_way abc_props [70%Q; 130%Q] abc 0 1 "B" 60%Q).
  - exact abc_permutation.
  - reflexivity.
  - reflexivity.
  - reflexivity.
  - discriminate.
  - reflexivity.
Defined.

(** X21.  An item that was never measured has no height to give way by: in
    a drag in progress the reaction of such an item, rendered at its slot
    [q], springs toward the product of the slot difference with an
    [undefined] height (not a number) as soon as the dragged item has passed
    it, and to [0] while it has not. *)
Theorem unmeasured_sibling_springs_to_nan {T} (p : DraggableItem.Props)
    (tys : list Q)
    (w : DraggableList.State (T := T) * DraggableItem.State)
    (S q : Z) (k : string) :
  permutation_table (positions (DraggableList.shared (fst w))) ->
  Obj.get (positions (DraggableList.shared (fst w)))
    (DraggableItem.itemKey p) = Some S ->
  truthy (DraggableItem.itemKey p) = true ->
  Obj.get (positions (DraggableList.shared (fst w))) k = Some q ->
  k <> DraggableItem.itemKey p ->
  Obj.get (itemHeights (DraggableList.shared (fst w))) k = None ->
  let sh' :=
    DraggableList.shared
      (fst (DraggableList.gestures p
              (DraggableList.GestureStart
                 :: map DraggableList.GestureUpdate tys) w)) in
  exists T',
    Obj.get (positions sh') (DraggableItem.itemKey p) = Some T' /\
    Reaction.reaction k q sh'
    = Reaction.withSpring
        (if ((S <? q) && (q <=? T')) || ((T' <=? q) && (q <? S)) then None
         else Some 0%Q).
Proof.
  intros Hpt Hget Ht Hq Hne Hh sh'.
  destruct (drag_in_progress p tys w S Hpt Hget) as [T' [Hpos [Hkey Hhs]]].
  fold sh' in Hpos, Hkey, Hhs. clearbody sh'.
  set (ps0 := positions (DraggableList.shared (fst w))) in *.
  set (d := DraggableItem.itemKey p) in *.
  pose proof Hpt as [Hk _].
  pose proof (permutation_table_NoDup_values ps0 Hpt) as Hv.
  exists T'. split.
  - rewrite Hpos. apply (modify_positions_values ps0 d S T' Hk Hv Hget).
  - destruct (sibling_slot ps0 d k S T' q Hpt Hget Hq Hne) as [HqS Hq'].
    rewrite <- Hpos in Hq'.
    assert (Hed : String.eqb d k = false).
    { apply String.eqb_neq. congruence. }
    unfold Reaction.reaction, Reaction.react, Reaction.prepare,
      Reaction.is_active, Reaction.active_truthy. cbn.
    rewrite Hkey, Hq', Hhs, Hh. cbn. rewrite Hed, Ht. cbn.
    pose proof (shift_neighbour_cases S T' q) as Hc.
    destruct (Z.ltb_spec S q) as [H1|H1];
      destruct (Z.leb_spec q T') as [H2|H2];
      destruct (Z.leb_spec T' q) as [H3|H3];
      destruct (Z.ltb_spec q S) as [H4|H4]; cbn [andb orb]; try lia;
      destruct (Z.eqb_spec (Resolver.shift_neighbour S T' q) q) as [E|E];
      cbn [negb]; try lia; reflexivity.
Qed.

Lemma unmeasured_sibling_springs_to_nan_witness :
  Obj.get
    (positions
       (DraggableList.shared
          (fst (DraggableList.gestures bc_props
                  (DraggableList.GestureStart
                     :: map DraggableList.GestureUpdate [(-70)%Q])
                  (fst abc_unmeasured, DraggableItem.initial bc_props)))))
    (DraggableItem.itemKey bc_props) = Some 0 /\
  Reaction.reaction "A" 0
    (DraggableList.shared
       (fst (DraggableList.gestures bc_props
               (DraggableList.GestureStart
                  :: map DraggableList.GestureUpdate [(-70)%Q])
               (fst abc_unmeasured, DraggableItem.initial bc_props))))
  = Reaction.withSpring None.
Proof.
  assert (Hpt : permutation_table
                  (positions (DraggableList.shared (fst abc_unmeasured)))).
  { apply (build_positions_permutation (fun item : string => item)
             ["A"%string; "B"%string; "C"%string]).
    repeat constructor; simpl; intuition discriminate. }
  assert (Hne : "A"%string <> DraggableItem.itemKey bc_props)
    by discriminate.
  destruct (unmeasured_sibling_springs_to_nan bc_props [(-70)%Q]
              (fst abc_unmeasured, DraggableItem.initial bc_props) 1 0 "A"
              Hpt eq_refl eq_refl eq_refl Hne eq_refl) as [T' [H1 H2]].
  assert (HT : T' = 0).
  { vm_compute in H1. now injection H1. }
  subst T'. split; [exact H1|exact H2].
Defined.

(** ** Saving the order: [getCurrentData ()] fed back as [data] *)

Lemma matches_nth {T} (item_key : T -> string) (data : list T)
    (ps : TPositions) i :
  order_matches_table item_key (map Some data) ps ->
  (i < List.length data)%nat ->
  exists item,
    nth_error data i = Some item /\
    Obj.get ps (item_key item) = Some (Z.of_nat i).
Proof.
  intros [_ H] Hi. specialize (H i). rewrite length_map in H.
  destruct (H Hi) as [item [Hn Hg]]. rewrite nth_error_map in Hn.
  destruct (nth_error data i) as [x|]; simpl in Hn; [|discriminate].
  injection Hn as ->. eauto.
Qed.

Lemma matches_keys_NoDup {T} (item_key : T -> string) (data : list T)
    (ps : TPositions) :
  order_matches_table item_key (map Some data) ps ->
  NoDup (map item_key data).
Proof.
  intros Hm. apply NoDup_nth_error. intros i j Hi Hij.
  rewrite length_map in Hi.
  destruct (matches_nth item_key data ps i Hm Hi) as [x [Hx Hgx]].
  rewrite !nth_error_map, Hx in Hij. simpl in Hij.
  destruct (nth_error data j) as [y|] eqn:Ey; simpl in Hij; [|discriminate].
  injection Hij as Hkey.
  assert (Hj : (j < List.length data)%nat)
    by (apply nth_error_Some; congruence).
  destruct (matches_nth item_key data ps j Hm Hj) as [y' [Hy' Hgy]].
  rewrite Ey in Hy'. injection Hy' as <-.
  rewrite Hkey, Hgy in Hgx. injection Hgx. lia.
Qed.

(** X22.  Saving is lossless.  When the order and the table are in step,
    feeding [getCurrentData ()] back as the [data] prop re-derives a table
    that gives every identity the slot the drags left it in (and no other
    identity a slot), and leaves [getCurrentData ()] as it was. *)
Theorem save_round_trip {T} (item_key : T -> string)
    (st : DraggableList.State (T := T)) (data : list T) :
  permutation_table (positions (DraggableList.shared st)) ->
  order_matches_table item_key (DraggableList.getCurrentData st)
    (positions (DraggableList.shared st)) ->
  DraggableList.getCurrentData st = map Some data ->
  let st' := DraggableList.syncData item_key data st in
  DraggableList.getCurrentData st' = DraggableList.getCurrentData st /\
  forall k,
    Obj.get (positions (DraggableList.shared st')) k
    = Obj.get (positions (DraggableList.shared st)) k.
Proof.
  intros Hpt Hm Hdata st'. split; [now rewrite Hdata|].
  rewrite Hdata in Hm.
  set (ps := positions (DraggableList.shared st)) in *.
  pose proof (matches_keys_NoDup item_key data ps Hm) as Hnd.
  pose proof Hm as [Hlen _]. rewrite length_map in Hlen.
  assert (Hpos : positions (DraggableList.shared st')
                 = combine (map item_key data) (slots (List.length data))).
  { subst st'. destruct st as [o sh hk]. destruct sh.
    cbn. now apply build_positions_slots. }
  rewrite Hpos. intros k.
  assert (Hkeys : Obj.keys (combine (map item_key data)
                              (slots (List.length data)))
                  = map item_key data).
  { apply keys_combine. now rewrite length_map, length_slots. }
  destruct (in_dec string_dec k (map item_key data)) as [Hin|Hnin].
  - destruct (In_nth_error _ _ Hin) as [i Hi].
    assert (Hlt : (i < List.length data)%nat).
    { rewrite <- (length_map item_key). apply nth_error_Some. congruence. }
    destruct (matches_nth item_key data ps i Hm Hlt) as [x [Hx Hgx]].
    assert (Hk : k = item_key x).
    { rewrite nth_error_map, Hx in Hi. simpl in Hi. congruence. }
    subst k. rewrite Hgx.
    apply (combine_get _ _ i); [exact Hnd|exact Hi|].
    unfold slots. rewrite nth_error_map.
    rewrite (nth_error_nth' (seq 0 (List.length data)) 0%nat)
      by (rewrite length_seq; lia).
    rewrite seq_nth by lia. reflexivity.
  - rewrite get_not_In by now rewrite Hkeys.
    symmetry. apply get_not_In. intros Hk. apply Hnin.
    destruct Hpt as [Hkn _].
    refine (NoDup_length_incl Hnd _ _ k Hk).
    + rewrite length_map. unfold Obj.keys. rewrite length_map. lia.
    + intros k' Hk'. destruct (In_nth_error _ _ Hk') as [i Hi].
      assert (Hlt : (i < List.length data)%nat).
      { rewrite <- (length_map item_key). apply nth_error_Some.
        congruence. }
      destruct (matches_nth item_key data ps i Hm Hlt) as [x [Hx Hgx]].
      rewrite nth_error_map, Hx in Hi. simpl in Hi. injection Hi as <-.
      eapply get_In_keys; eauto.
Qed.

Lemma save_round_trip_witness :
  DraggableList.getCurrentData
    (DraggableList.syncData (fun item : string => item)
       ["B"%string; "C"%string; "A"%string] abc_dragged)
  = DraggableList.getCurrentData abc_dragged /\
  forall k,
    Obj.get
      (positions
         (DraggableList.shared
            (DraggableList.syncData (fun item : string => item)
               ["B"%string; "C"%string; "A"%string] abc_dragged))) k
    = Obj.get (positions (DraggableList.shared abc_dragged)) k.
Proof.
  assert (Hm : order_matches_table (fun item : string => item)
                 (DraggableList.getCurrentData (fst abc))
                 (positions (DraggableList.shared (fst abc)))).
  { apply (mount_matches (fun item : string => item)
             ["A"%string; "B"%string; "C"%string]).
    repeat constructor; simpl; intuition discriminate. }
  destruct (complete_drag_invariant (fun item : string => item) abc_props
              [70%Q; 130%Q] abc 0 abc_permutation Hm eq_refl eq_refl eq_refl)
    as [H1 [H2 _]].
  apply (save_round_trip (fun item : string => item) abc_dragged
           ["B"%string; "C"%string; "A"%string] H2 H1).
  vm_compute. reflexivity.
Defined.

